(** * espritc: the tokenizer

    A shallow embedding of [src/Tokenizer.ts] (the tokenizer with one token
    kind per symbol, module [Fine]) and of the second tokenizer kept next to
    the token declarations in [src/Token.ts] (shared "bracket" / "operator" /
    "punctuation" kinds, block comments, octal and hexadecimal literals and
    the [n] suffix, module [Coarse]).

    Source text is a [string] of 8-bit code units.  The cursor fields
    [start], [current] and [line] are natural numbers; the one place where
    the source subtracts below zero ([source.length - 1] on the empty
    source) is computed in [Z].  [console.error] is a log of messages kept
    in the tokenizer state.  Every [while] of the source is a fuelled loop:
    [None] (or [OutOfFuel]) is a run that did not finish within the fuel. *)

From Stdlib Require Import Bool Arith ZArith QArith Lia List Ascii String.
Import ListNotations.
Open Scope string_scope.
Open Scope nat_scope.

(** ** JavaScript strings *)

Module JS.

Definition LF : string := String (ascii_of_nat 10) "".
Definition CR : string := String (ascii_of_nat 13) "".
Definition TAB : string := String (ascii_of_nat 9) "".
Definition DQUOTE : string := String (ascii_of_nat 34) "".
Definition BACKSLASH : string := String (ascii_of_nat 92) "".

(** [s.charAt(i)]: the one-character string at index [i], the empty string
    out of range. *)
Definition charAt (s : string) (i : nat) : string := substring i 1 s.

(** [s.slice(a, b)] for indices that are not negative: clamped to the
    string, empty when [b <= a]. *)
Definition slice (s : string) (a b : nat) : string := substring a (b - a) s.

Arguments charAt : simpl never.
Arguments slice : simpl never.

(** [c.toLowerCase()] on the 8-bit range: A-Z and the Latin-1 capitals. *)
Definition lowerAscii (c : ascii) : ascii :=
  let n := nat_of_ascii c in
  if ((65 <=? n) && (n <=? 90))
     || ((192 <=? n) && (n <=? 222) && negb (n =? 215))
  then ascii_of_nat (n + 32) else c.

Fixpoint toLowerCase (s : string) : string :=
  match s with
  | EmptyString => EmptyString
  | String c r => String (lowerAscii c) (toLowerCase r)
  end.

(** [s.includes(sub)] *)
Fixpoint includes (s sub : string) : bool :=
  prefix sub s ||
  match s with
  | EmptyString => false
  | String _ r => includes r sub
  end.

(** [/[...]/.test(s)] for a character class: some character of [s] is in
    the class. *)
Fixpoint testClass (cls : ascii -> bool) (s : string) : bool :=
  match s with
  | EmptyString => false
  | String c r => cls c || testClass cls r
  end.

Definition inRange (lo hi : nat) (c : ascii) : bool :=
  (lo <=? nat_of_ascii c) && (nat_of_ascii c <=? hi).

(** [/[0-9]/], [/[0-7]/], [/[0-9a-f]/i] *)
Definition class_0_9 : ascii -> bool := inRange 48 57.
Definition class_0_7 : ascii -> bool := inRange 48 55.
Definition class_0_9a_f_i (c : ascii) : bool :=
  inRange 48 57 c || inRange 97 102 c || inRange 65 70 c.

(** *** [Number(text)] and [BigInt(text)]

    [Number] takes the mathematical value of the numeric literal
    (ECMAScript's MV), a rational, and rounds it to the nearest double, ties
    to even; a value too large for a double gives [Infinity].  The model
    covers the texts the tokenizers pass: they start with a decimal digit,
    so neither a sign, nor surrounding white space, nor the text
    [Infinity] occurs, and no value is negative. *)
Inductive JSNumber :=
| NaN
| Real (q : Q)
| Infinity.

Definition digitValue (c : ascii) : option Z :=
  let n := nat_of_ascii c in
  if inRange 48 57 c then Some (Z.of_nat (n - 48))
  else if inRange 97 102 c then Some (Z.of_nat (n - 87))
  else if inRange 65 70 c then Some (Z.of_nat (n - 55))
  else None.

Fixpoint digitsValue (radix : Z) (s : string) (acc : Z) : option Z :=
  match s with
  | EmptyString => Some acc
  | String c r =>
      match digitValue c with
      | Some d => if (d <? radix)%Z then digitsValue radix r (acc * radix + d)%Z
                  else None
      | None => None
      end
  end.

(** A non-empty run of digits of the radix. *)
Definition radixInteger (radix : Z) (s : string) : option Z :=
  match s with
  | EmptyString => None
  | _ => digitsValue radix s 0%Z
  end.

(** The longest prefix of decimal digits, and what follows it. *)
Fixpoint spanDigits (s : string) : string * string :=
  match s with
  | EmptyString => (EmptyString, EmptyString)
  | String c r =>
      if class_0_9 c
      then let (d, rest) := spanDigits r in (String c d, rest)
      else (EmptyString, s)
  end.

Definition pow10 (e : Z) : Q :=
  if (0 <=? e)%Z then inject_Z (10 ^ e) else Qinv (inject_Z (10 ^ (- e))).

(** [ExponentPart] of a decimal literal: nothing, or [e]/[E], an optional
    sign and at least one digit. *)
Definition exponentPart (s : string) : option Z :=
  match s with
  | EmptyString => Some 0%Z
  | String c r =>
      if (String (lowerAscii c) "" =? "e")%string then
        match r with
        | String "+"%char ds => radixInteger 10 ds
        | String "-"%char ds => option_map Z.opp (radixInteger 10 ds)
        | _ => radixInteger 10 r
        end
      else None
  end.

Definition decimalLiteral (s : string) : JSNumber :=
  let (ip, r1) := spanDigits s in
  let '(fp, r2) :=
    match r1 with
    | String "."%char r => spanDigits r
    | _ => (EmptyString, r1)
    end in
  match ip, fp with
  | EmptyString, EmptyString => NaN
  | _, _ =>
      match digitsValue 10 (ip ++ fp) 0%Z, exponentPart r2 with
      | Some m, Some e =>
          Real (Qred (inject_Z m * pow10 (e - Z.of_nat (String.length fp))))
      | _, _ => NaN
      end
  end.

Definition ofInteger (o : option Z) : JSNumber :=
  match o with
  | Some n => Real (inject_Z n)
  | None => NaN
  end.

Definition radixOfMarker (c : ascii) : option Z :=
  let l := String (lowerAscii c) "" in
  if (l =? "b")%string then Some 2%Z
  else if (l =? "o")%string then Some 8%Z
  else if (l =? "x")%string then Some 16%Z
  else None.

(** The value of the text as a numeric literal, [NaN] when it is none. *)
Definition literalValue (s : string) : JSNumber :=
  match s with
  | EmptyString => Real 0
  | String "0"%char (String m r) =>
      match radixOfMarker m with
      | Some radix => ofInteger (radixInteger radix r)
      | None => decimalLiteral s
      end
  | _ => decimalLiteral s
  end.

(** [2^e <= n / d] *)
Definition atLeastPow2 (n d e : Z) : bool :=
  if (0 <=? e)%Z then (d * 2 ^ e <=? n)%Z else (d <=? n * 2 ^ (- e))%Z.

(** The integer nearest to [n / d], the even one of two that are equally
    near. *)
Definition roundHalfEven (n d : Z) : Z :=
  let m := (n / d)%Z in
  match (2 * (n mod d) ?= d)%Z with
  | Lt => m
  | Gt => (m + 1)%Z
  | Eq => if Z.even m then m else (m + 1)%Z
  end.

(** The double nearest to [n / d], for [n] and [d] above zero: a
    significand of 53 bits at the binary exponent [e] of the value, of
    fewer bits below the least normal exponent -1022, where the doubles
    are the multiples of [2^-1074]. *)
Definition nearestDouble (n d : Z) : JSNumber :=
  let e0 := (Z.log2 n - Z.log2 d)%Z in
  let e := if atLeastPow2 n d e0 then e0 else (e0 - 1)%Z in
  let u := Z.max (e - 52) (-1074) in
  if (0 <=? u)%Z then
    let v := (roundHalfEven n (d * 2 ^ u) * 2 ^ u)%Z in
    if (2 ^ 1024 <=? v)%Z then Infinity else Real (inject_Z v)
  else
    Real (Qred (Qmake (roundHalfEven (n * 2 ^ (- u)) d)
                  (Z.to_pos (2 ^ (- u))))).

Definition roundToDouble (x : JSNumber) : JSNumber :=
  match x with
  | Real q =>
      match Qnum q with
      | Zpos _ => nearestDouble (Qnum q) (Zpos (Qden q))
      | _ => Real 0
      end
  | _ => x
  end.

Definition Number (s : string) : JSNumber := roundToDouble (literalValue s).

(** [BigInt(text)]: [None] is the [SyntaxError] thrown for a text that is
    not an integer literal. *)
Definition BigInt (s : string) : option Z :=
  match s with
  | EmptyString => Some 0%Z
  | String "0"%char (String m r) =>
      match radixOfMarker m with
      | Some radix => radixInteger radix r
      | None => radixInteger 10 s
      end
  | _ => radixInteger 10 s
  end.

End JS.

(** ** Fuelled loops *)

(** [while (cond) body], at most [fuel] tests of the condition. *)
Fixpoint while_ {S : Type} (fuel : nat) (cond : S -> bool)
    (body : S -> option S) (s : S) : option S :=
  match fuel with
  | 0 => None
  | S f =>
      if cond s then
        match body s with
        | Some s' => while_ f cond body s'
        | None => None
        end
      else Some s
  end.

Notation "x <- e ;; k" :=
  (match e with Some x => k | None => None end)
  (at level 61, e at next level, right associativity).

(** ** The tokenizer of [src/Tokenizer.ts] *)

Module Fine.
Import JS.

Inductive NumberKind := decimal | exponential | binary.

(** [TokenADT], with the [kind] the tokenizer adds to a number. *)
Inductive TokenADT :=
| T_leftParen | T_rightParen | T_leftBrace | T_rightBrace
| T_comma | T_dot | T_minus | T_plus | T_semicolon | T_star | T_slash
| T_eof
| T_bangEqual | T_bang | T_equalEqual | T_equal
| T_lessEqual | T_less | T_greaterEqual | T_greater
| T_number (literal : JSNumber) (kind : NumberKind)
| T_string (literal : string).

Record Token := mkToken {
  _type : TokenADT;
  lexeme : string;
  line : nat
}.

(** The mutable fields of a [Tokenizer] object, and what it has written to
    [console.error], oldest message first. *)
Record Tokenizer := mkTokenizer {
  this_tokens : list Token;
  this_start : nat;
  this_current : nat;
  this_line : nat;
  console_error : list string
}.

Definition new_Tokenizer : Tokenizer := mkTokenizer [] 0 0 0 [].

Definition set_start (n : nat) (t : Tokenizer) : Tokenizer :=
  mkTokenizer (this_tokens t) n (this_current t) (this_line t) (console_error t).
Definition set_current (n : nat) (t : Tokenizer) : Tokenizer :=
  mkTokenizer (this_tokens t) (this_start t) n (this_line t) (console_error t).
Definition incr_line (t : Tokenizer) : Tokenizer :=
  mkTokenizer (this_tokens t) (this_start t) (this_current t) (S (this_line t))
    (console_error t).
Definition push (k : Token) (t : Tokenizer) : Tokenizer :=
  mkTokenizer (this_tokens t ++ [k]) (this_start t) (this_current t)
    (this_line t) (console_error t).
Definition error (msg : string) (t : Tokenizer) : Tokenizer :=
  mkTokenizer (this_tokens t) (this_start t) (this_current t) (this_line t)
    (console_error t ++ [msg]).

Section Methods.

Variable source : string.

Definition reachedEOF (t : Tokenizer) : bool :=
  (Z.of_nat (this_current t) >? Z.of_nat (String.length source) - 1)%Z.

(** [advance] is only called with [advanceBy >= 1], so [current - 1] does
    not go below zero. *)
Definition advance (advanceBy : nat) (t : Tokenizer) : string * Tokenizer :=
  let t := set_current (this_current t + advanceBy) t in
  (charAt source (this_current t - 1), t).

Definition peek (t : Tokenizer) : string :=
  if reachedEOF t then "" else charAt source (this_current t).

Definition peekNext (peekBy : nat) (t : Tokenizer) : string :=
  if String.length source <=? this_current t + 1 then ""
  else charAt source (this_current t + peekBy).

Definition match_ (expected : string) (t : Tokenizer) : bool * Tokenizer :=
  if reachedEOF t then (false, t)
  else if negb (charAt source (this_current t) =? expected)%string then (false, t)
  else (true, set_current (S (this_current t)) t).

Definition addToken (tokenMetadata : TokenADT) (t : Tokenizer) : Tokenizer :=
  let lexeme := slice source (this_start t) (this_current t) in
  push (mkToken tokenMetadata lexeme (this_line t)) t.

Definition isDigit (character : string) : bool := testClass class_0_9 character.
Definition isBinaryDigit (character : string) : bool :=
  (character =? "0")%string || (character =? "1")%string.

(** The body [this.advance()] of the scanning loops. *)
Definition step (t : Tokenizer) : option Tokenizer := Some (snd (advance 1 t)).

Definition number (fuel : nat) (t : Tokenizer) : option Tokenizer :=
  t <- while_ fuel (fun t => isDigit (peek t)) step t ;;
  t <- (if (peek t =? ".")%string && isDigit (peekNext 1 t)
        then while_ fuel (fun t => isDigit (peek t)) step (snd (advance 1 t))
        else Some t) ;;
  t <- (if (toLowerCase (peek t) =? "e")%string then
          if isDigit (peekNext 1 t)
          then while_ fuel (fun t => isDigit (peek t)) step (snd (advance 1 t))
          else if (peekNext 1 t =? "-")%string && isDigit (peekNext 2 t)
          then while_ fuel (fun t => isDigit (peek t)) step (snd (advance 2 t))
          else Some t
        else Some t) ;;
  let lexeme := slice source (this_start t) (this_current t) in
  let literal := Number lexeme in
  let kind := if includes (toLowerCase lexeme) "e" then exponential else decimal in
  Some (addToken (T_number literal kind) t).

Definition leadingZeroNumber (fuel : nat) (t : Tokenizer) : option Tokenizer :=
  if (toLowerCase (peek t) =? "b")%string then
    t <- (if isBinaryDigit (peekNext 1 t)
          then while_ fuel (fun t => isBinaryDigit (peek t)) step
                 (snd (advance 1 t))
          else Some (error "Binary digit expected" t)) ;;
    let lexeme := slice source (this_start t) (this_current t) in
    let literal := Number lexeme in
    Some (addToken (T_number literal binary) t)
  else number fuel t.

Definition string_ (fuel : nat) (t : Tokenizer) : option Tokenizer :=
  t <- while_ fuel
         (fun t => negb (peek t =? DQUOTE)%string && negb (reachedEOF t))
         (fun t => step (if (peek t =? LF)%string then incr_line t else t)) t ;;
  if reachedEOF t then Some (error "Unterminated string literal." t)
  else
    let t := snd (advance 1 t) in
    let literal := slice source (this_start t + 1) (this_current t - 1) in
    Some (addToken (T_string literal) t).

Definition unexpected (character : string) : string :=
  "Unexpected character: " ++ DQUOTE ++ character ++ DQUOTE.

(** The [switch] of [scanToken], one test per [case] label in the order of
    the source. *)
Definition scanToken (fuel : nat) (t : Tokenizer) : option Tokenizer :=
  let (character, t) := advance 1 t in
  let is_ k := (character =? k)%string in
  if is_ "(" then Some (addToken T_leftParen t)
  else if is_ ")" then Some (addToken T_rightParen t)
  else if is_ "{" then Some (addToken T_leftBrace t)
  else if is_ "}" then Some (addToken T_rightBrace t)
  else if is_ "," then Some (addToken T_comma t)
  else if is_ "." then Some (addToken T_dot t)
  else if is_ "-" then
    let (m, t) := match_ "-" t in
    if m then
      while_ fuel (fun t => negb (peek t =? LF)%string && negb (reachedEOF t))
        step t
    else Some (addToken T_minus t)
  else if is_ "+" then Some (addToken T_plus t)
  else if is_ ";" then Some (addToken T_semicolon t)
  else if is_ "*" then Some (addToken T_star t)
  else if is_ "/" then Some (addToken T_slash t)
  else if is_ "!" then
    let (m, t) := match_ "=" t in
    Some (addToken (if m then T_bangEqual else T_bang) t)
  else if is_ "=" then
    let (m, t) := match_ "=" t in
    Some (addToken (if m then T_equalEqual else T_equal) t)
  else if is_ "<" then
    let (m, t) := match_ "=" t in
    Some (addToken (if m then T_lessEqual else T_less) t)
  else if is_ ">" then
    let (m, t) := match_ "=" t in
    Some (addToken (if m then T_greaterEqual else T_greater) t)
  else if is_ " " || is_ CR || is_ TAB then Some t
  else if is_ LF then Some (incr_line t)
  else if is_ "0" then leadingZeroNumber fuel t
  else if is_ "1" || is_ "2" || is_ "3" || is_ "4" || is_ "5" || is_ "6"
          || is_ "7" || is_ "8" || is_ "9" then number fuel t
  else if is_ DQUOTE then string_ fuel t
  else Some (error (unexpected character) t).

(** One turn of the loop of [scanTokens]: [this.start = this.current],
    then [this.scanToken()]. *)
Definition turn (fuel : nat) (t : Tokenizer) : option Tokenizer :=
  scanToken fuel (set_start (this_current t) t).

(** The object after [scanTokens()]: the loop, then the [eof] token. *)
Definition scanTokens_run (fuel : nat) : option Tokenizer :=
  t <- while_ fuel (fun t => negb (reachedEOF t)) (turn fuel) new_Tokenizer ;;
  Some (push (mkToken T_eof "" (this_line t)) t).

(** What [scanTokens()] returns. *)
Definition scanTokens (fuel : nat) : option (list Token) :=
  option_map this_tokens (scanTokens_run fuel).

End Methods.

(** The scan with the fuel that the length of the source asks for. *)
Definition scan (source : string) : option (list Token) :=
  scanTokens source (S (String.length source)).

Definition diagnostics (source : string) : option (list string) :=
  option_map console_error (scanTokens_run source (S (String.length source))).

End Fine.

Import JS.

(** ** The tokenizer kept in [src/Token.ts] *)

(** A call returns, throws, or is still running when the fuel is spent. *)
Inductive outcome (A : Type) :=
| Returns (a : A)
| Throws (e : string)
| OutOfFuel.
Arguments Returns {A} a.
Arguments Throws {A} e.
Arguments OutOfFuel {A}.

Notation "x <~ e ;; k" :=
  (match e with Returns x => k | Throws m => Throws m | OutOfFuel => OutOfFuel end)
  (at level 61, e at next level, right associativity).

(** [while (cond) body] where the condition itself may change the state,
    as [this.match(...)] does. *)
Fixpoint while_do {S : Type} (fuel : nat) (cond : S -> bool * S)
    (body : S -> outcome S) (s : S) : outcome S :=
  match fuel with
  | 0 => OutOfFuel
  | S f =>
      let (c, s) := cond s in
      if c then s' <~ body s ;; while_do f cond body s'
      else Returns s
  end.

Module Coarse.
Import JS.

Inductive NumberKind := decimal | exponential | binary | octal | hexadecimal.

Inductive Literal :=
| L_number (n : JSNumber)
| L_bigint (n : Z).

Inductive TokenADT :=
| T_bracket | T_operator | T_punctuation | T_eof
| T_number (literal : Literal) (kind : NumberKind) (bigInt : bool)
| T_string (literal : string).

Record Token := mkToken {
  _type : TokenADT;
  lexeme : string;
  line : nat
}.

Record Tokenizer := mkTokenizer {
  this_tokens : list Token;
  this_start : nat;
  this_current : nat;
  this_line : nat;
  console_error : list string
}.

Definition new_Tokenizer : Tokenizer := mkTokenizer [] 0 0 0 [].

Definition set_start (n : nat) (t : Tokenizer) : Tokenizer :=
  mkTokenizer (this_tokens t) n (this_current t) (this_line t) (console_error t).
Definition set_current (n : nat) (t : Tokenizer) : Tokenizer :=
  mkTokenizer (this_tokens t) (this_start t) n (this_line t) (console_error t).
Definition incr_line (t : Tokenizer) : Tokenizer :=
  mkTokenizer (this_tokens t) (this_start t) (this_current t) (S (this_line t))
    (console_error t).
Definition push (k : Token) (t : Tokenizer) : Tokenizer :=
  mkTokenizer (this_tokens t ++ [k]) (this_start t) (this_current t)
    (this_line t) (console_error t).
Definition error (msg : string) (t : Tokenizer) : Tokenizer :=
  mkTokenizer (this_tokens t) (this_start t) (this_current t) (this_line t)
    (console_error t ++ [msg]).

Section Methods.

Variable source : string.

Definition reachedEOF (t : Tokenizer) : bool :=
  (Z.of_nat (this_current t) >? Z.of_nat (String.length source) - 1)%Z.

Definition advance (advanceBy : nat) (t : Tokenizer) : string * Tokenizer :=
  let t := set_current (this_current t + advanceBy) t in
  (charAt source (this_current t - 1), t).

Definition peek (t : Tokenizer) : string :=
  if reachedEOF t then "" else charAt source (this_current t).

Definition peekNext (peekBy : nat) (t : Tokenizer) : string :=
  if String.length source <=? this_current t + 1 then ""
  else charAt source (this_current t + peekBy).

Definition step (t : Tokenizer) : outcome Tokenizer :=
  Returns (snd (advance 1 t)).

Definition readWhile (fuel : nat) (predicate : string -> bool)
    (t : Tokenizer) : outcome Tokenizer :=
  while_do fuel (fun t => (predicate (peek t), t)) step t.

Definition match_ (expected : string) (lowercase : bool) (t : Tokenizer)
  : bool * Tokenizer :=
  if reachedEOF t then (false, t)
  else
    let character := charAt source (this_current t) in
    if negb lowercase && negb (character =? expected)%string then (false, t)
    else if lowercase && negb (toLowerCase character =? expected)%string
    then (false, t)
    else (true, set_current (S (this_current t)) t).

Definition addToken (tokenMetadata : TokenADT) (t : Tokenizer) : Tokenizer :=
  let lexeme := slice source (this_start t) (this_current t) in
  push (mkToken tokenMetadata lexeme (this_line t)) t.

Definition isDigit (character : string) : bool := testClass class_0_9 character.
Definition isBinaryDigit (character : string) : bool :=
  (character =? "0")%string || (character =? "1")%string.
Definition isOctalDigit (character : string) : bool :=
  testClass class_0_7 character.
Definition isHexadecimalDigit (character : string) : bool :=
  testClass class_0_9a_f_i character.

(** [BigInt(lexeme)], which throws on a text that is no integer literal. *)
Definition bigIntLiteral (lexeme : string) : outcome Literal :=
  match BigInt lexeme with
  | Some n => Returns (L_bigint n)
  | None => Throws "SyntaxError"
  end.

Definition number (fuel : nat) (t : Tokenizer) : outcome Tokenizer :=
  t <~ readWhile fuel isDigit t ;;
  t <~ (let (m, t) := match_ "." false t in
        if m && isDigit (peekNext 1 t)
        then readWhile fuel isDigit (snd (advance 1 t))
        else Returns t) ;;
  t <~ (let (m, t) := match_ "e" true t in
        if m then
          if isDigit (peekNext 1 t)
          then readWhile fuel isDigit (snd (advance 1 t))
          else if (peekNext 1 t =? "-")%string && isDigit (peekNext 2 t)
          then readWhile fuel isDigit (snd (advance 2 t))
          else Returns t
        else Returns t) ;;
  let lexeme := slice source (this_start t) (this_current t) in
  let (bigInt, t) := match_ "n" false t in
  let t := if bigInt then snd (advance 1 t) else t in
  if bigInt then
    literal <~ bigIntLiteral lexeme ;;
    Returns (addToken (T_number literal decimal bigInt) t)
  else
    let literal := L_number (Number lexeme) in
    let kind :=
      if includes (toLowerCase lexeme) "e" then exponential else decimal in
    Returns (addToken (T_number literal kind bigInt) t).

(** [const [, secondChar] = lexeme.toLowerCase()], then the choice of the
    kind. *)
Definition radixKind (lexeme : string) : NumberKind :=
  let secondChar := charAt (toLowerCase lexeme) 1 in
  if (secondChar =? "b")%string then binary
  else if (secondChar =? "o")%string then octal
  else hexadecimal.

(** The three radix branches differ in the marker, the digit test and the
    message only. *)
Definition radixDigits (fuel : nat) (isRadixDigit : string -> bool)
    (msg : string) (t : Tokenizer) : outcome Tokenizer :=
  if isRadixDigit (peekNext 1 t)
  then readWhile fuel isRadixDigit (snd (advance 1 t))
  else Returns (error msg t).

Definition leadingZeroNumber (fuel : nat) (t : Tokenizer)
  : outcome Tokenizer :=
  let after (r : outcome Tokenizer) : outcome Tokenizer :=
    t <~ r ;;
    let lexeme := slice source (this_start t) (this_current t) in
    let (bigInt, t) := match_ "n" false t in
    let t := if bigInt then snd (advance 1 t) else t in
    if bigInt then
      literal <~ bigIntLiteral lexeme ;;
      Returns (addToken (T_number literal (radixKind lexeme) bigInt) t)
    else
      let literal := L_number (Number lexeme) in
      Returns (addToken (T_number literal (radixKind lexeme) bigInt) t) in
  let (mb, tb) := match_ "b" true t in
  if mb then after (radixDigits fuel isBinaryDigit "Binary digit expected" tb)
  else
    let (mo, to) := match_ "o" true tb in
    if mo then after (radixDigits fuel isOctalDigit "Octal digit expected" to)
    else
      let (mx, tx) := match_ "x" true to in
      if mx
      then after (radixDigits fuel isHexadecimalDigit
                    "Hexadecimal digit expected" tx)
      else number fuel tx.

Definition string_ (fuel : nat) (t : Tokenizer) : outcome Tokenizer :=
  t <~ while_do fuel
         (fun t => (negb (peek t =? DQUOTE)%string && negb (reachedEOF t), t))
         (fun t => step (if (peek t =? LF)%string then incr_line t else t)) t ;;
  if reachedEOF t then Returns (error "Unterminated string literal." t)
  else
    let t := snd (advance 1 t) in
    let literal := slice source (this_start t + 1) (this_current t - 1) in
    Returns (addToken (T_string literal) t).

Definition unexpected (character : string) : string :=
  "Unexpected character: " ++ DQUOTE ++ character ++ DQUOTE.

(** The block comment of the [case "{"] arm: the loop, then one more
    [advance]. *)
Definition blockComment (fuel : nat) (t : Tokenizer) : outcome Tokenizer :=
  t <~ while_do fuel
         (fun t => let (m, t) := match_ "-" false t in
                   (negb m || negb (peek t =? "}")%string, t))
         step t ;;
  Returns (snd (advance 1 t)).

(** The [switch] of [scanToken]; an arm without [break] continues into the
    arm below it, which is written out here. *)
Definition scanToken (fuel : nat) (t : Tokenizer) : outcome Tokenizer :=
  let (character, t) := advance 1 t in
  let is_ k := (character =? k)%string in
  if is_ "(" || is_ ")" then Returns (addToken T_bracket t)
  else if is_ "{" then
    let (m, t) := match_ "-" false t in
    if m then blockComment fuel t
    else Returns (addToken T_bracket t)
  else if is_ "}" then Returns (addToken T_bracket t)
  else if is_ "<" || is_ ">" then
    let (m, t) := match_ "=" false t in
    Returns (addToken (if m then T_operator else T_bracket) t)
  else if is_ "," || is_ "." || is_ ";" then Returns (addToken T_punctuation t)
  else if is_ "-" then
    let (m, t) := match_ "-" false t in
    t <~ (if m then
            while_do fuel
              (fun t => (negb (peek t =? LF)%string && negb (reachedEOF t), t))
              step t
          else Returns t) ;;
    Returns (addToken T_operator t)
  else if is_ "+" || is_ "*" || is_ "/" || is_ "!" || is_ "="
  then Returns (addToken T_operator t)
  else if is_ " " || is_ CR || is_ TAB then Returns t
  else if is_ LF then Returns (incr_line t)
  else if is_ "0" then leadingZeroNumber fuel t
  else if is_ "1" || is_ "2" || is_ "3" || is_ "4" || is_ "5" || is_ "6"
          || is_ "7" || is_ "8" || is_ "9" then number fuel t
  else if is_ DQUOTE then string_ fuel t
  else Returns (error (unexpected character) t).

Definition scanTokens_run (fuel : nat) : outcome Tokenizer :=
  t <~ while_do fuel (fun t => (negb (reachedEOF t), t))
         (fun t => scanToken fuel (set_start (this_current t) t))
         new_Tokenizer ;;
  Returns (push (mkToken T_eof "" (this_line t)) t).

Definition scanTokens (fuel : nat) : outcome (list Token) :=
  t <~ scanTokens_run fuel ;; Returns (this_tokens t).

Definition diagnostics (fuel : nat) : outcome (list string) :=
  t <~ scanTokens_run fuel ;; Returns (console_error t).

End Methods.

Definition is_number (k : Token) : bool :=
  match _type k with T_number _ _ _ => true | _ => false end.

(** The claim that a scan returns no numeric token. *)
Definition no_number (tokens : list Token) : Prop :=
  forall k, In k tokens -> is_number k = false.

Definition number_token (n : JSNumber) (kind : NumberKind) (text : string)
  : Token :=
  mkToken (T_number (L_number n) kind false) text 0.

Definition eof_token : Token := mkToken T_eof "" 0.

End Coarse.


(** ** What a scan leaves behind: lexemes and skipped spans *)

Module Spans.
Import JS Fine.

(** Line terminators in a text. *)
Fixpoint count_nl (s : string) : nat :=
  match s with
  | EmptyString => 0
  | String c r => (if (String c "" =? LF)%string then 1 else 0) + count_nl r
  end.

(** The source text consumed by one turn of the loop of [scanTokens] either
    became the lexeme of a token or was skipped. *)
Inductive skip_kind :=
| Whitespace
| LineComment
| Unrecognized
| UnterminatedString.

Inductive span :=
| Lexeme (t : Token)
| Skipped (k : skip_kind) (text : string).

Definition span_text (sp : span) : string :=
  match sp with
  | Lexeme t => lexeme t
  | Skipped _ text => text
  end.

Definition span_tokens (sp : span) : list Token :=
  match sp with
  | Lexeme t => [t]
  | Skipped _ _ => []
  end.

Fixpoint texts (l : list span) : string :=
  match l with
  | [] => ""
  | sp :: r => span_text sp ++ texts r
  end.

Definition lexemes (l : list span) : list Token := flat_map span_tokens l.

(** The case labels of [scanToken]. *)
Definition recognized (character : string) : bool :=
  existsb (String.eqb character)
    ["("; ")"; "{"; "}"; ","; "."; "-"; "+"; ";"; "*"; "/"; "!"; "="; "<";
     ">"; " "; CR; TAB; LF; "0"; "1"; "2"; "3"; "4"; "5"; "6"; "7"; "8"; "9";
     DQUOTE].

Definition skip_ok (k : skip_kind) (text : string) : Prop :=
  match k with
  | Whitespace => text = " " \/ text = CR \/ text = TAB \/ text = LF
  | LineComment => exists body, text = "--" ++ body /\ count_nl body = 0
  | Unrecognized => String.length text = 1 /\ recognized text = false
  | UnterminatedString => exists body, text = DQUOTE ++ body
  end.

(** What a token's lexeme is, by kind. *)
Definition lexeme_ok (t : Token) : Prop :=
  match _type t with
  | T_leftParen => lexeme t = "("
  | T_rightParen => lexeme t = ")"
  | T_leftBrace => lexeme t = "{"
  | T_rightBrace => lexeme t = "}"
  | T_comma => lexeme t = ","
  | T_dot => lexeme t = "."
  | T_minus => lexeme t = "-"
  | T_plus => lexeme t = "+"
  | T_semicolon => lexeme t = ";"
  | T_star => lexeme t = "*"
  | T_slash => lexeme t = "/"
  | T_eof => False
  | T_bangEqual => lexeme t = "!="
  | T_bang => lexeme t = "!"
  | T_equalEqual => lexeme t = "=="
  | T_equal => lexeme t = "="
  | T_lessEqual => lexeme t = "<="
  | T_less => lexeme t = "<"
  | T_greaterEqual => lexeme t = ">="
  | T_greater => lexeme t = ">"
  | T_number literal _ =>
      literal = Number (lexeme t) /\ count_nl (lexeme t) = 0
      /\ lexeme t <> ""
  | T_string literal => lexeme t = DQUOTE ++ literal ++ DQUOTE
  end.

Definition span_ok (sp : span) : Prop :=
  match sp with
  | Lexeme t => lexeme_ok t
  | Skipped k text => skip_ok k text
  end.

(** What [console.error] received for a skipped span. *)
Definition skip_errors (k : skip_kind) (text : string) : list string :=
  match k with
  | Whitespace | LineComment => []
  | Unrecognized => [unexpected text]
  | UnterminatedString => ["Unterminated string literal."]
  end.

(** The spans tile the source, in order, and their tokens followed by the
    [eof] token are the returned sequence. *)
Record tiling (source : string) (tokens : list Token) (l : list span) : Prop := {
  tiling_texts : texts l = source;
  tiling_tokens : exists n, tokens = (lexemes l ++ [mkToken T_eof "" n])%list;
  tiling_ok : Forall span_ok l
}.

Definition is_eof (t : Token) : bool :=
  match _type t with T_eof => true | _ => false end.

Definition is_number (t : Token) : bool :=
  match _type t with T_number _ _ => true | _ => false end.

Definition is_string (t : Token) : bool :=
  match _type t with T_string _ => true | _ => false end.

Fixpoint nondecreasing (l : list nat) : Prop :=
  match l with
  | [] => True
  | a :: r => match r with [] => True | b :: _ => a <= b end /\ nondecreasing r
  end.

(** The claim that only white space and comments lie between lexemes. *)
Definition blank_gaps (l : list span) : Prop :=
  forall k x, In (Skipped k x) l -> k = Whitespace \/ k = LineComment.


(** The claim that the lexeme of a string token leaves the quotes out. *)
Definition string_lexeme_unquoted (tokens : list Token) : Prop :=
  forall k literal,
    In k tokens -> _type k = T_string literal -> lexeme k = literal.

(** The state after [k] turns of the loop of [scanTokens] that starts in
    [t]; [None] when the loop has ended before. *)
Fixpoint turns_from (source : string) (fuel : nat) (t : Tokenizer) (k : nat)
  : option Tokenizer :=
  match k with
  | 0 => Some t
  | S k' =>
      if reachedEOF source t then None
      else t' <- turn source fuel t ;; turns_from source fuel t' k'
  end.

(** The claim that a scan returns no numeric token. *)
Definition no_number (tokens : list Token) : Prop :=
  forall k, In k tokens -> is_number k = false.

(** A double quote that no backslash escapes, as the claim about open
    string literals reads the text after the opening quote: a backslash
    takes the character after it along. *)
Fixpoint has_unescaped_quote (s : string) : bool :=
  match s with
  | EmptyString => false
  | String c r =>
      if (String c "" =? BACKSLASH)%string then
        match r with
        | EmptyString => false
        | String _ r' => has_unescaped_quote r'
        end
      else if (String c "" =? DQUOTE)%string then true
      else has_unescaped_quote r
  end.

(** The claim that a string literal without an unescaped closing quote is
    reported and gives no string token. *)
Definition open_string_claim (body : string) : Prop :=
  has_unescaped_quote body = false ->
  exists toks,
    scan (DQUOTE ++ body) = Some toks
    /\ diagnostics (DQUOTE ++ body) = Some ["Unterminated string literal."]
    /\ forall k, In k toks -> is_string k = false.

(** *** Invariants of the scan *)

Section Invariants.

Variable source : string.

(** A state reached from [t0] while one token is being scanned: only the
    cursor and the line counter have moved, and the line counter has counted
    the line terminators passed. *)
Record within (t0 t : Tokenizer) : Prop := {
  w_tokens : this_tokens t = this_tokens t0;
  w_start : this_start t = this_start t0;
  w_console : console_error t = console_error t0;
  w_lo : this_current t0 <= this_current t;
  w_hi : this_current t <= String.length source;
  w_line : this_line t =
           this_line t0
           + count_nl (slice source (this_current t0) (this_current t))
}.

(** The same, and no line terminator was passed. *)
Definition within0 (t0 t : Tokenizer) : Prop :=
  within t0 t /\ this_line t = this_line t0.

(** What [scanToken] has done when it returns [r], entered in [t0] with
    [start = current]: it has consumed the text of the span [sp]. *)
Record step_post (t0 r : Tokenizer) (sp : span) : Prop := {
  sp_tokens : this_tokens r = (this_tokens t0 ++ span_tokens sp)%list;
  sp_lo : this_current t0 < this_current r;
  sp_hi : this_current r <= String.length source;
  sp_text : slice source (this_current t0) (this_current r) = span_text sp;
  sp_line : this_line r = this_line t0 + count_nl (span_text sp);
  sp_token_line : forall t, sp = Lexeme t -> line t = this_line r;
  sp_ok : span_ok sp;
  sp_console : forall k x, sp = Skipped k x ->
               console_error r = (console_error t0 ++ skip_errors k x)%list;
  sp_console_mono : exists errs,
               console_error r = (console_error t0 ++ errs)%list
}.

(** From a state between two turns to the end of the loop: the turns that
    remain consume the rest of the source, span by span. *)
Record loop_post (t r : Tokenizer) (l : list span) : Prop := {
  lp_current : this_current r = String.length source;
  lp_tokens : this_tokens r = (this_tokens t ++ lexemes l)%list;
  lp_texts : texts l = slice source (this_current t) (String.length source);
  lp_ok : Forall span_ok l;
  lp_line : this_line r = this_line t + count_nl (texts l);
  lp_position : forall pre k post, l = (pre ++ Lexeme k :: post)%list ->
      line k = this_line t + count_nl (texts pre ++ lexeme k);
  lp_sorted : nondecreasing (map line (lexemes l));
  lp_bounds : forall k, In k (lexemes l) ->
      this_line t <= line k /\ line k <= this_line r;
  lp_reported : forall k x m, In (Skipped k x) l -> In m (skip_errors k x) ->
      In m (console_error r);
  lp_console : exists errs, console_error r = (console_error t ++ errs)%list
}.

End Invariants.

End Spans.

(** ** More of what the tokenizers do *)

Module Shapes.
Import JS Fine.

(** The two kinds behind each of the characters [!], [=], [<] and [>]: the
    kind of the character alone, and the kind of the character followed by
    [=]. *)
Definition operator_kinds (character : string)
  : option (TokenADT * TokenADT) :=
  if (character =? "!")%string then Some (T_bang, T_bangEqual)
  else if (character =? "=")%string then Some (T_equal, T_equalEqual)
  else if (character =? "<")%string then Some (T_less, T_lessEqual)
  else if (character =? ">")%string then Some (T_greater, T_greaterEqual)
  else None.

(** The kinds of the characters that are a token on their own. *)
Definition punctuation_kind (character : string) : option TokenADT :=
  if (character =? "(")%string then Some T_leftParen
  else if (character =? ")")%string then Some T_rightParen
  else if (character =? "{")%string then Some T_leftBrace
  else if (character =? "}")%string then Some T_rightBrace
  else if (character =? ",")%string then Some T_comma
  else if (character =? ".")%string then Some T_dot
  else if (character =? "+")%string then Some T_plus
  else if (character =? ";")%string then Some T_semicolon
  else if (character =? "*")%string then Some T_star
  else if (character =? "/")%string then Some T_slash
  else None.

(** *** The shape of a numeric lexeme *)

Fixpoint all_in (cls : ascii -> bool) (s : string) : bool :=
  match s with
  | EmptyString => true
  | String c r => cls c && all_in cls r
  end.

Definition class_0_1 : ascii -> bool := inRange 48 49.

(** A run of decimal digits, of binary digits, that is not empty. *)
Definition digits1 (s : string) : Prop :=
  s <> "" /\ all_in class_0_9 s = true.
Definition bits1 (s : string) : Prop :=
  s <> "" /\ all_in class_0_1 s = true.

(** One character that [toLowerCase] sends to [l]. *)
Definition marker (l m : string) : Prop :=
  String.length m = 1 /\ toLowerCase m = l.

Inductive fraction : string -> Prop :=
| fraction_none : fraction ""
| fraction_some fd : digits1 fd -> fraction ("." ++ fd).

Inductive exponent : string -> Prop :=
| exponent_plain e ed : marker "e" e -> digits1 ed -> exponent (e ++ ed)
| exponent_minus e ed :
    marker "e" e -> digits1 ed -> exponent (e ++ "-" ++ ed).

(** What the lexeme of a number of each kind looks like.  The last case is
    the token that [leadingZeroNumber] adds after it has reported
    [Binary digit expected]. *)
Inductive number_shape : NumberKind -> string -> Prop :=
| shape_decimal ip fr :
    digits1 ip -> fraction fr -> number_shape decimal (ip ++ fr)
| shape_exponential ip fr ex :
    digits1 ip -> fraction fr -> exponent ex ->
    number_shape exponential (ip ++ fr ++ ex)
| shape_binary m bits :
    marker "b" m -> bits1 bits -> number_shape binary ("0" ++ m ++ bits)
| shape_binary_alone : number_shape binary "0".

(** A number token is well formed, any other token is left alone. *)
Definition number_good (k : Token) : Prop :=
  forall literal kind,
    _type k = T_number literal kind ->
    number_shape kind (lexeme k)
    /\ literal = Number (lexeme k)
    /\ literal <> NaN.

(** [lexeme.toLowerCase().includes("e")] *)
Definition has_e (s : string) : bool := includes (toLowerCase s) "e".

Definition starts_with_digit (s : string) : bool :=
  match s with
  | EmptyString => false
  | String c _ => class_0_9 c
  end.

(** What a turn that starts on a decimal digit has done when it returns
    [r]: one number token, cut from the cursor of [t] to the cursor of [r]. *)
Record number_read (source : string) (t r : Tokenizer)
    (literal : JSNumber) (kind : NumberKind) : Prop := {
  nr_tokens :
    this_tokens r
    = (this_tokens t
       ++ [mkToken (T_number literal kind)
             (slice source (this_current t) (this_current r))
             (this_line t)])%list;
  nr_shape : number_shape kind (slice source (this_current t) (this_current r));
  nr_literal : literal = Number (slice source (this_current t) (this_current r));
  nr_value : literal <> NaN;
  nr_line : this_line r = this_line t;
  nr_lo : this_current t < this_current r;
  nr_hi : this_current r <= String.length source;
  nr_munch : kind <> binary ->
             console_error r = console_error t
             /\ isDigit (charAt source (this_current r)) = false;
  nr_console : exists errs, console_error r = (console_error t ++ errs)%list
}.

End Shapes.

(** ** The lexical grammar that a scan follows *)

Module Grammar.
Import JS Fine Spans Shapes.

(** The text ahead starts a fraction, an exponent, that [number] reads. *)
Definition fraction_ahead (rest : string) : bool :=
  (charAt rest 0 =? ".")%string && isDigit (charAt rest 1).

Definition exponent_ahead (rest : string) : bool :=
  (toLowerCase (charAt rest 0) =? "e")%string
  && (isDigit (charAt rest 1)
      || (charAt rest 1 =? "-")%string && isDigit (charAt rest 2)).

(** [number_lexeme kind x rest]: in front of the text [rest], [x] is a
    whole numeric literal of the kind: it has the parts of the kind, and
    nothing of [rest] belongs to it.  The last case is the [0] that
    [leadingZeroNumber] cuts when no binary digit follows the marker. *)
Inductive number_lexeme : NumberKind -> string -> string -> Prop :=
| whole_decimal ip fr rest :
    digits1 ip -> fraction fr ->
    isDigit (charAt rest 0) = false ->
    (fr = "" -> fraction_ahead rest = false) ->
    exponent_ahead rest = false ->
    (ip = "0" -> fr = "" -> toLowerCase (charAt rest 0) <> "b") ->
    number_lexeme decimal (ip ++ fr) rest
| whole_exponential ip fr ex rest :
    digits1 ip -> fraction fr -> exponent ex ->
    isDigit (charAt rest 0) = false ->
    number_lexeme exponential (ip ++ fr ++ ex) rest
| whole_binary m bits rest :
    marker "b" m -> bits1 bits ->
    isBinaryDigit (charAt rest 0) = false ->
    number_lexeme binary ("0" ++ m ++ bits) rest
| whole_binary_alone rest :
    toLowerCase (charAt rest 0) = "b" ->
    isBinaryDigit (charAt rest 1) = false ->
    number_lexeme binary "0" rest.

(** What the text after a token must be for the token to be the whole of
    what the tokenizer reads there: an operator of one character is not
    followed by the character that would extend it, a number is a whole
    literal, and the closing quote of a string is the first one after the
    opening quote. *)
Definition lexeme_whole (k : Token) (rest : string) : Prop :=
  match _type k with
  | T_minus => charAt rest 0 <> "-"
  | T_bang | T_equal | T_less | T_greater => charAt rest 0 <> "="
  | T_number literal kind =>
      number_lexeme kind (lexeme k) rest /\ literal <> NaN
  | T_string literal => includes literal DQUOTE = false
  | _ => True
  end.

(** The same for a skipped span: a line comment runs to the end of its
    line, and a string literal is left open only when no double quote
    follows the opening one up to the end of the source. *)
Definition skip_whole (k : skip_kind) (text rest : string) : Prop :=
  match k with
  | Whitespace | Unrecognized => True
  | LineComment => rest = "" \/ charAt rest 0 = LF
  | UnterminatedString =>
      rest = ""
      /\ exists body, text = DQUOTE ++ body /\ includes body DQUOTE = false
  end.

Definition span_whole (sp : span) (rest : string) : Prop :=
  match sp with
  | Lexeme k => lexeme_whole k rest
  | Skipped k text => skip_whole k text rest
  end.

(** Every span is whole in front of the spans that follow it. *)
Fixpoint spans_whole (l : list span) : Prop :=
  match l with
  | [] => True
  | sp :: r => span_whole sp (texts r) /\ spans_whole r
  end.

(** What [console.error] receives for a span: the message of a skipped
    span, and [Binary digit expected] for the [0] in front of a binary
    marker without a digit. *)
Definition span_errors (sp : span) : list string :=
  match sp with
  | Skipped k text => skip_errors k text
  | Lexeme k =>
      match _type k with
      | T_number _ binary =>
          if (lexeme k =? "0")%string then ["Binary digit expected"] else []
      | _ => []
      end
  end.

Section Scan.

Variable source : string.
Variable fuel : nat.

(** The text from the cursor on. *)
Definition ahead (t : Tokenizer) : string :=
  slice source (this_current t) (String.length source).

(** The turn of the loop that consumes the span [sp], in a scan that goes
    on from the state [t] and has consumed the spans [pre] since. *)
Definition turn_of (t : Tokenizer) (pre : list span) (sp : span) : Prop :=
  exists a b,
    turns_from source fuel t (List.length pre) = Some a
    /\ turn source fuel a = Some b
    /\ this_tokens b = (this_tokens a ++ span_tokens sp)%list
    /\ this_current a = this_current t + String.length (texts pre)
    /\ span_text sp = slice source (this_current a) (this_current b).

(** What one turn adds to [step_post]. *)
Definition step_whole (t0 r : Tokenizer) (sp : span) : Prop :=
  span_whole sp (ahead r)
  /\ console_error r = (console_error t0 ++ span_errors sp)%list.

(** From a state between two turns to the end of the loop. *)
Record scan_post (t r : Tokenizer) (l : list span) : Prop := {
  sc_post : loop_post source t r l;
  sc_whole : spans_whole l;
  sc_console :
    console_error r = (console_error t ++ flat_map span_errors l)%list;
  sc_turns : forall pre sp post,
      l = (pre ++ sp :: post)%list -> turn_of t pre sp
}.

End Scan.

End Grammar.

(** ** Facts about strings *)

Section StringFacts.

Lemma substring_zero (s : string) (n : nat) : substring n 0 s = "".
Proof.
  revert n; induction s as [|c s IH]; intros [|n]; simpl; auto.
Qed.

Lemma substring_split (s : string) :
  forall n m k, substring n (m + k) s = substring n m s ++ substring (n + m) k s.
Proof.
  induction s as [|c s IH]; intros n m k.
  - destruct n, m, k; reflexivity.
  - destruct n as [|n].
    + destruct m as [|m]; simpl.
      * reflexivity.
      * f_equal. apply (IH 0 m k).
    + simpl. apply IH.
Qed.

Lemma substring_past (s : string) :
  forall n m, String.length s <= n -> substring n m s = "".
Proof.
  induction s as [|c s IH]; intros n m H.
  - destruct n, m; reflexivity.
  - destruct n as [|n]; simpl in *; [lia|]. apply IH. lia.
Qed.

Lemma substring_whole (s : string) : substring 0 (String.length s) s = s.
Proof.
  induction s as [|c s IH]; simpl; [reflexivity | now rewrite IH].
Qed.

Lemma substring_length (s : string) :
  forall n m, n + m <= String.length s -> String.length (substring n m s) = m.
Proof.
  induction s as [|c s IH]; intros n m H; simpl in H.
  - destruct n, m; simpl in *; try lia; reflexivity.
  - destruct n as [|n]; simpl.
    + destruct m as [|m]; simpl; [reflexivity|]. f_equal. apply IH. simpl. lia.
    + apply IH. lia.
Qed.

Lemma append_length (a b : string) :
  String.length (a ++ b) = String.length a + String.length b.
Proof. induction a as [|c a IH]; simpl; [reflexivity | now rewrite IH]. Qed.

Lemma append_nil_r (a : string) : a ++ "" = a.
Proof. induction a as [|c a IH]; simpl; [reflexivity | now rewrite IH]. Qed.

Lemma append_assoc (a b c : string) : (a ++ b) ++ c = a ++ (b ++ c).
Proof. induction a as [|x a IH]; simpl; [reflexivity | now rewrite IH]. Qed.

End StringFacts.

Import JS.

Lemma slice_same (s : string) (a : nat) : slice s a a = "".
Proof. unfold slice. rewrite Nat.sub_diag. apply substring_zero. Qed.

Lemma slice_app (s : string) (a b c : nat) :
  a <= b -> b <= c -> slice s a c = slice s a b ++ slice s b c.
Proof.
  intros Hab Hbc. unfold slice.
  replace (c - a) with ((b - a) + (c - b)) by lia.
  rewrite substring_split. repeat f_equal. lia.
Qed.

Lemma slice_one (s : string) (a : nat) : slice s a (S a) = charAt s a.
Proof. unfold slice, charAt. now replace (S a - a) with 1 by lia. Qed.

Lemma slice_snoc (s : string) (a b : nat) :
  a <= b -> slice s a (S b) = slice s a b ++ charAt s b.
Proof.
  intros H. rewrite (slice_app s a b (S b)) by lia. now rewrite slice_one.
Qed.

Lemma slice_whole (s : string) : slice s 0 (String.length s) = s.
Proof. unfold slice. rewrite Nat.sub_0_r. apply substring_whole. Qed.

Lemma slice_length (s : string) (a b : nat) :
  a <= b -> b <= String.length s -> String.length (slice s a b) = b - a.
Proof. intros. unfold slice. apply substring_length. lia. Qed.

Lemma charAt_past (s : string) (i : nat) :
  String.length s <= i -> charAt s i = "".
Proof. intros. now apply substring_past. Qed.

Lemma charAt_length (s : string) (i : nat) :
  i < String.length s -> String.length (charAt s i) = 1.
Proof. intros. unfold charAt. apply substring_length. lia. Qed.

Lemma length_one (x : string) :
  String.length x = 1 -> exists c, x = String c "".
Proof.
  destruct x as [|c [|d x]]; simpl; intros H; try discriminate.
  now exists c.
Qed.

(** ** The loops of [src/Tokenizer.ts] finish *)

Lemma while_rule {S : Type} (I : S -> Prop) (mu : S -> nat)
    (cond : S -> bool) (body : S -> option S) :
  (forall s, I s -> cond s = true ->
             exists s', body s = Some s' /\ I s' /\ mu s' < mu s) ->
  forall fuel s, I s -> mu s < fuel ->
  exists s', while_ fuel cond body s = Some s' /\ I s' /\ cond s' = false.
Proof.
  intros Hbody fuel. induction fuel as [|fuel IH]; intros s HI Hmu; [lia|].
  simpl. destruct (cond s) eqn:Hc.
  - destruct (Hbody s HI Hc) as (s' & -> & HI' & Hlt).
    apply IH; [assumption | lia].
  - exists s. auto.
Qed.

Module FineFacts.
Import JS Fine Spans.

Lemma count_nl_app (a b : string) : count_nl (a ++ b) = count_nl a + count_nl b.
Proof. induction a as [|c a IH]; simpl; [reflexivity | rewrite IH; lia]. Qed.

Lemma count_nl_one (x : string) :
  String.length x = 1 -> count_nl x = if (x =? LF)%string then 1 else 0.
Proof.
  intros H. destruct (length_one x H) as [c ->].
  change (count_nl (String c "")) with
    ((if (String c "" =? LF)%string then 1 else 0) + 0).
  apply Nat.add_0_r.
Qed.

Section Source.

Variable source : string.

Lemma reachedEOF_leb (t : Tokenizer) :
  reachedEOF source t = ((String.length source) <=? this_current t).
Proof.
  unfold reachedEOF.
  destruct (Nat.leb_spec (String.length source) (this_current t)); lia.
Qed.

Lemma peek_eq (t : Tokenizer) :
  peek source t = charAt source (this_current t).
Proof.
  unfold peek. rewrite reachedEOF_leb.
  destruct (Nat.leb_spec (String.length source) (this_current t)); [|reflexivity].
  symmetry. now apply charAt_past.
Qed.

Lemma charAt_inside (i : nat) : charAt source i <> "" -> i < (String.length source).
Proof.
  intros H. destruct (Nat.lt_ge_cases i (String.length source)); [assumption|].
  now rewrite charAt_past in H.
Qed.

Lemma peekNext_inside (k : nat) (t : Tokenizer) :
  peekNext source k t <> "" ->
  this_current t + 1 < (String.length source) /\ this_current t + k < (String.length source)
  /\ peekNext source k t = charAt source (this_current t + k).
Proof.
  unfold peekNext.
  destruct (Nat.leb_spec (String.length source) (this_current t + 1)); [congruence|].
  intros H'. repeat split; try lia. now apply charAt_inside.
Qed.

Lemma within_refl (t : Tokenizer) : this_current t <= (String.length source) -> within source t t.
Proof.
  intros H. split; auto. rewrite slice_same. simpl. lia.
Qed.

Lemma within0_refl (t : Tokenizer) : this_current t <= (String.length source) -> within0 source t t.
Proof. intros H. split; [now apply within_refl | reflexivity]. Qed.

Lemma within_trans (a b c : Tokenizer) :
  within source a b -> within source b c -> within source a c.
Proof.
  intros [T1 S1 C1 L1 H1 N1] [T2 S2 C2 L2 H2 N2].
  split; try congruence; try lia.
  rewrite (slice_app source _ (this_current b)) by assumption.
  rewrite count_nl_app. lia.
Qed.

Lemma within0_trans (a b c : Tokenizer) :
  within0 source a b -> within0 source b c -> within0 source a c.
Proof.
  intros [W1 E1] [W2 E2]. split; [eapply within_trans; eauto | congruence].
Qed.

Lemma within0_count (a b : Tokenizer) :
  within0 source a b -> count_nl (slice source (this_current a) (this_current b)) = 0.
Proof. intros [[] E]. lia. Qed.

Lemma within_advance (n : nat) (t : Tokenizer) :
  this_current t + n <= (String.length source) ->
  count_nl (slice source (this_current t) (this_current t + n)) = 0 ->
  within0 source t (snd (advance source n t)).
Proof.
  intros H Hc. unfold advance, set_current; simpl.
  split; [split|]; simpl; auto; lia.
Qed.

Lemma within_advance1 (t : Tokenizer) :
  this_current t < (String.length source) ->
  charAt source (this_current t) <> LF ->
  within0 source t (snd (advance source 1 t)).
Proof.
  intros Hlt H2.
  apply within_advance; [lia|].
  rewrite Nat.add_1_r, slice_one, count_nl_one by now apply charAt_length.
  apply String.eqb_neq in H2. now rewrite H2.
Qed.

Lemma within_advance2 (t : Tokenizer) :
  charAt source (this_current t) <> LF ->
  charAt source (this_current t + 1) <> LF ->
  this_current t + 2 <= (String.length source) ->
  within0 source t (snd (advance source 2 t)).
Proof.
  intros H1 H2 H. apply within_advance; [lia|].
  replace (this_current t + 2) with (S (S (this_current t))) by lia.
  rewrite slice_snoc, slice_one, count_nl_app by lia.
  rewrite !count_nl_one by (apply charAt_length; lia).
  apply String.eqb_neq in H1, H2.
  replace (S (this_current t)) with (this_current t + 1) by lia.
  now rewrite H1, H2.
Qed.

Lemma within_newline (t : Tokenizer) :
  charAt source (this_current t) = LF ->
  within source t (snd (advance source 1 (incr_line t))).
Proof.
  intros H.
  assert (Hlt : this_current t < String.length source)
    by (apply charAt_inside; rewrite H; discriminate).
  unfold advance, set_current, incr_line; simpl.
  split; simpl; auto; try lia.
  rewrite Nat.add_1_r, slice_one, H. simpl. lia.
Qed.

Lemma match_within (expected : string) (t : Tokenizer) :
  expected <> LF -> this_current t <= (String.length source) ->
  within0 source t (snd (match_ source expected t))
  /\ (fst (match_ source expected t) = true ->
      charAt source (this_current t) = expected
      /\ this_current (snd (match_ source expected t)) = S (this_current t))
  /\ (fst (match_ source expected t) = false ->
      snd (match_ source expected t) = t).
Proof.
  intros Hnl Hle. unfold match_. rewrite reachedEOF_leb.
  destruct (Nat.leb_spec (String.length source) (this_current t)); simpl.
  - split; [now apply within0_refl | split; [discriminate | reflexivity]].
  - destruct (String.eqb_spec (charAt source (this_current t)) expected) as [E|E]; simpl.
    + split; [|split; [auto | discriminate]].
      pose proof (within_advance1 t) as W.
      unfold advance, set_current in W; simpl in W.
      rewrite Nat.add_1_r in W. apply W; congruence.
    + split; [now apply within0_refl | split; [discriminate | reflexivity]].
Qed.

Lemma advance1_eq (t : Tokenizer) :
  advance source 1 t
  = (charAt source (this_current t), set_current (S (this_current t)) t).
Proof.
  unfold advance, set_current; simpl.
  rewrite Nat.add_sub, Nat.add_1_r. reflexivity.
Qed.

Lemma step_eq (t : Tokenizer) :
  step source t = Some (set_current (S (this_current t)) t).
Proof. unfold step. now rewrite advance1_eq. Qed.

(** *** The scanning loops *)

Lemma class_loop (p : string -> bool) (fuel : nat) (t : Tokenizer) :
  p "" = false -> p LF = false ->
  this_current t <= String.length source -> String.length source < fuel ->
  exists t',
    while_ fuel (fun t => p (peek source t)) (step source) t = Some t'
    /\ within0 source t t' /\ p (peek source t') = false.
Proof.
  intros Pe Pn Hle Hfuel.
  apply (while_rule (within0 source t)
           (fun s => String.length source - this_current s)).
  - intros s W Hc. rewrite peek_eq in Hc.
    assert (Hne : charAt source (this_current s) <> "") by congruence.
    assert (Hnl : charAt source (this_current s) <> LF) by congruence.
    apply charAt_inside in Hne.
    exists (snd (advance source 1 s)). split; [reflexivity|]. split.
    + eapply within0_trans; [eassumption | now apply within_advance1].
    + rewrite advance1_eq. simpl. lia.
  - now apply within0_refl.
  - lia.
Qed.

Lemma comment_loop (fuel : nat) (t : Tokenizer) :
  this_current t <= String.length source -> String.length source < fuel ->
  exists t',
    while_ fuel
      (fun t => negb (peek source t =? LF)%string && negb (reachedEOF source t))
      (step source) t = Some t'
    /\ within0 source t t'.
Proof.
  intros Hle Hfuel.
  destruct (while_rule (within0 source t)
              (fun s => String.length source - this_current s)
              (fun t => negb (peek source t =? LF)%string
                        && negb (reachedEOF source t))
              (step source)) with (fuel := fuel) (s := t)
    as (t' & E & W & _); [ | now apply within0_refl | lia | eauto ].
  intros s W Hc. apply andb_prop in Hc as [H1 H2].
  rewrite peek_eq in H1. rewrite reachedEOF_leb in H2.
  apply negb_true_iff in H1, H2.
  apply String.eqb_neq in H1. apply Nat.leb_gt in H2.
  exists (snd (advance source 1 s)). split; [reflexivity|]. split.
  - eapply within0_trans; [eassumption | now apply within_advance1].
  - rewrite advance1_eq. simpl. lia.
Qed.

Lemma string_loop (fuel : nat) (t : Tokenizer) :
  this_current t <= String.length source -> String.length source < fuel ->
  exists t',
    while_ fuel
      (fun t => negb (peek source t =? DQUOTE)%string
                && negb (reachedEOF source t))
      (fun t => step source
                  (if (peek source t =? LF)%string then incr_line t else t))
      t = Some t'
    /\ within source t t'
    /\ (String.length source <= this_current t'
        \/ charAt source (this_current t') = DQUOTE).
Proof.
  intros Hle Hfuel.
  destruct (while_rule (within source t)
              (fun s => String.length source - this_current s)
              (fun t => negb (peek source t =? DQUOTE)%string
                        && negb (reachedEOF source t))
              (fun t => step source
                  (if (peek source t =? LF)%string then incr_line t else t)))
    with (fuel := fuel) (s := t)
    as (t' & E & W & Hc); [ | now apply within_refl | lia | ].
  - intros s W Hc. apply andb_prop in Hc as [H1 H2].
    rewrite reachedEOF_leb in H2. apply negb_true_iff in H2.
    apply Nat.leb_gt in H2. rewrite peek_eq.
    destruct (String.eqb_spec (charAt source (this_current s)) LF) as [N|N].
    + exists (snd (advance source 1 (incr_line s))). split; [reflexivity|].
      split.
      * eapply within_trans; [eassumption | now apply within_newline].
      * rewrite advance1_eq. simpl. lia.
    + exists (snd (advance source 1 s)). split; [reflexivity|]. split.
      * eapply within_trans; [eassumption | now apply within_advance1].
      * rewrite advance1_eq. simpl. lia.
  - exists t'. split; [assumption|]. split; [assumption|].
    apply andb_false_iff in Hc as [Hc|Hc]; apply negb_false_iff in Hc.
    + right. rewrite peek_eq in Hc. now apply String.eqb_eq.
    + left. rewrite reachedEOF_leb in Hc. now apply Nat.leb_le.
Qed.

(** *** [number], [leadingZeroNumber] and [string] *)

Lemma isDigit_inside (x : string) : isDigit x = true -> x <> "" /\ x <> LF.
Proof. intros H. split; intros ->; discriminate. Qed.

Lemma isBinaryDigit_inside (x : string) :
  isBinaryDigit x = true -> x <> "" /\ x <> LF.
Proof. intros H. split; intros ->; discriminate. Qed.

Lemma lower_e_inside (x : string) :
  toLowerCase x = "e" -> x <> "" /\ x <> LF.
Proof. intros H. split; intros ->; discriminate. Qed.

Lemma lower_b_inside (x : string) :
  toLowerCase x = "b" -> x <> "" /\ x <> LF.
Proof. intros H. split; intros ->; discriminate. Qed.

Lemma digits_after_advance (fuel : nat) (t : Tokenizer) :
  this_current t < String.length source -> String.length source < fuel ->
  charAt source (this_current t) <> LF ->
  exists t',
    while_ fuel (fun t => isDigit (peek source t)) (step source)
      (snd (advance source 1 t)) = Some t'
    /\ within0 source t t'.
Proof.
  intros Hlt Hfuel Hnl.
  destruct (class_loop isDigit fuel (snd (advance source 1 t)))
    as (t' & E & W & _); try reflexivity; try assumption.
  - rewrite advance1_eq. simpl. lia.
  - exists t'. split; [assumption|].
    eapply within0_trans; [now apply within_advance1 | eassumption].
Qed.

Lemma fraction_part (fuel : nat) (t : Tokenizer) :
  this_current t <= String.length source -> String.length source < fuel ->
  exists t',
    (if (peek source t =? ".")%string && isDigit (peekNext source 1 t)
     then while_ fuel (fun t => isDigit (peek source t)) (step source)
            (snd (advance source 1 t))
     else Some t) = Some t'
    /\ within0 source t t'.
Proof.
  intros Hle Hfuel.
  destruct ((peek source t =? ".")%string && isDigit (peekNext source 1 t)) eqn:C.
  - apply andb_prop in C as [C1 _]. apply String.eqb_eq in C1.
    rewrite peek_eq in C1.
    apply digits_after_advance; try assumption.
    + apply charAt_inside. rewrite C1. discriminate.
    + rewrite C1. discriminate.
  - exists t. split; [reflexivity | now apply within0_refl].
Qed.

Lemma exponent_part (fuel : nat) (t : Tokenizer) :
  this_current t <= String.length source -> String.length source < fuel ->
  exists t',
    (if (toLowerCase (peek source t) =? "e")%string then
       if isDigit (peekNext source 1 t)
       then while_ fuel (fun t => isDigit (peek source t)) (step source)
              (snd (advance source 1 t))
       else if (peekNext source 1 t =? "-")%string
               && isDigit (peekNext source 2 t)
       then while_ fuel (fun t => isDigit (peek source t)) (step source)
              (snd (advance source 2 t))
       else Some t
     else Some t) = Some t'
    /\ within0 source t t'.
Proof.
  intros Hle Hfuel.
  destruct (String.eqb_spec (toLowerCase (peek source t)) "e") as [C|C];
    [ | exists t; split; [reflexivity | now apply within0_refl] ].
  rewrite peek_eq in C. apply lower_e_inside in C as [Cne Cnl].
  apply charAt_inside in Cne as Clt.
  destruct (isDigit (peekNext source 1 t)) eqn:D1.
  - now apply digits_after_advance.
  - destruct ((peekNext source 1 t =? "-")%string
              && isDigit (peekNext source 2 t)) eqn:D2;
      [ | exists t; split; [reflexivity | now apply within0_refl] ].
    apply andb_prop in D2 as [M D]. apply String.eqb_eq in M.
    apply isDigit_inside in D as [Dne _].
    apply peekNext_inside in Dne as (_ & Hin & _).
    assert (Mne : peekNext source 1 t <> "") by (rewrite M; discriminate).
    apply peekNext_inside in Mne as (_ & _ & M1). rewrite M in M1.
    destruct (class_loop isDigit fuel (snd (advance source 2 t)))
      as (t' & E & W & _); try reflexivity; try assumption.
    + unfold advance, set_current; simpl. lia.
    + exists t'. split; [assumption|].
      eapply within0_trans; [ | eassumption].
      apply within_advance2; try assumption; try lia.
      rewrite <- M1. discriminate.
Qed.

Lemma number_spec (fuel : nat) (t : Tokenizer) :
  this_current t <= String.length source -> String.length source < fuel ->
  exists t' kind,
    number source fuel t
    = Some (addToken source
              (T_number
                 (Number (slice source (this_start t') (this_current t')))
                 kind) t')
    /\ within0 source t t'.
Proof.
  intros Hle Hfuel. unfold number.
  destruct (class_loop isDigit fuel t) as (a & -> & Wa & _);
    try reflexivity; try assumption.
  destruct (fraction_part fuel a) as (b & -> & Wb);
    [apply Wa | assumption | ].
  destruct (exponent_part fuel b) as (c & -> & Wc);
    [apply Wb | assumption | ].
  eexists c, _. split; [reflexivity|].
  eauto using within0_trans.
Qed.

(** [number] looks at what follows a point before it takes it: a point that
    no digit follows stays where the cursor is. *)
Lemma number_leaves_point (fuel : nat) (t : Tokenizer) :
  this_current t <= String.length source -> String.length source < fuel ->
  exists a,
    while_ fuel (fun t => isDigit (peek source t)) (step source) t = Some a
    /\ (peek source a = "." -> isDigit (peekNext source 1 a) = false ->
        exists K,
          number source fuel t = Some (addToken source K a)
          /\ charAt source (this_current a) = ".").
Proof.
  intros Hle Hfuel.
  destruct (class_loop isDigit fuel t) as (a & E & W & _);
    try reflexivity; try assumption.
  exists a. split; [exact E|]. intros Hp Hd.
  unfold number. rewrite E. cbv beta iota. rewrite Hp, Hd. simpl.
  rewrite Hp. simpl.
  eexists. split; [reflexivity|]. now rewrite <- peek_eq.
Qed.

Lemma leadingZeroNumber_spec (fuel : nat) (t : Tokenizer) :
  this_current t <= String.length source -> String.length source < fuel ->
  exists t' kind errs,
    leadingZeroNumber source fuel t
    = Some (addToken source
              (T_number
                 (Number (slice source (this_start t') (this_current t')))
                 kind)
              (mkTokenizer (this_tokens t') (this_start t') (this_current t')
                 (this_line t') (console_error t' ++ errs)))
    /\ within0 source t t'.
Proof.
  intros Hle Hfuel. unfold leadingZeroNumber.
  destruct (String.eqb_spec (toLowerCase (peek source t)) "b") as [C|C].
  - rewrite peek_eq in C. apply lower_b_inside in C as [Cne Cnl].
    apply charAt_inside in Cne as Clt.
    destruct (isBinaryDigit (peekNext source 1 t)) eqn:D.
    + destruct (class_loop isBinaryDigit fuel (snd (advance source 1 t)))
        as (t' & -> & W & _); try reflexivity; try assumption.
      * rewrite advance1_eq. simpl. lia.
      * exists t', binary, []. split.
        -- destruct t'; simpl. now rewrite app_nil_r.
        -- eapply within0_trans; [now apply within_advance1 | eassumption].
    + exists t, binary, ["Binary digit expected"]. split; [reflexivity|].
      now apply within0_refl.
  - destruct (number_spec fuel t Hle Hfuel) as (t' & kind & -> & W).
    exists t', kind, []. split; [|assumption].
    destruct t'; simpl. now rewrite app_nil_r.
Qed.

(** *** One turn of the loop of [scanTokens] *)

Lemma post_token (t0 t1 : Tokenizer) (K : TokenADT) (errs : list string) :
  this_start t0 = this_current t0 ->
  within source t0 t1 -> this_current t0 < this_current t1 ->
  lexeme_ok (mkToken K (slice source (this_current t0) (this_current t1))
               (this_line t1)) ->
  step_post source t0
    (addToken source K
       (mkTokenizer (this_tokens t1) (this_start t1) (this_current t1)
          (this_line t1) (console_error t1 ++ errs)))
    (Lexeme (mkToken K (slice source (this_current t0) (this_current t1))
               (this_line t1))).
Proof.
  intros Hs [T S C L H N] Hlt Hok.
  split; simpl; try assumption; try congruence.
  - intros t [= <-]. reflexivity.
  - exists errs. congruence.
Qed.

Lemma post_token0 (t0 t1 : Tokenizer) (K : TokenADT) :
  this_start t0 = this_current t0 ->
  within source t0 t1 -> this_current t0 < this_current t1 ->
  lexeme_ok (mkToken K (slice source (this_current t0) (this_current t1))
               (this_line t1)) ->
  step_post source t0 (addToken source K t1)
    (Lexeme (mkToken K (slice source (this_current t0) (this_current t1))
               (this_line t1))).
Proof.
  intros Hs W Hlt Hok.
  pose proof (post_token t0 t1 K [] Hs W Hlt Hok) as P.
  rewrite app_nil_r in P. now destruct t1.
Qed.

Lemma post_skip (t0 t1 : Tokenizer) (k : skip_kind) :
  within source t0 t1 -> this_current t0 < this_current t1 ->
  skip_ok k (slice source (this_current t0) (this_current t1)) ->
  step_post source t0
    (mkTokenizer (this_tokens t1) (this_start t1) (this_current t1)
       (this_line t1)
       (console_error t1
        ++ skip_errors k (slice source (this_current t0) (this_current t1))))
    (Skipped k (slice source (this_current t0) (this_current t1))).
Proof.
  intros [T S C L H N] Hlt Hok.
  split; simpl; try assumption; try congruence.
  all: try (now rewrite app_nil_r).
  all: try (intros k' x [= <- <-]; congruence).
  all: try (eexists; rewrite C; reflexivity).
Qed.

Section Turn.

Variable fuel : nat.
Variable t0 : Tokenizer.
Hypothesis Hstart : this_start t0 = this_current t0.
Hypothesis Hlt : this_current t0 < String.length source.
Hypothesis Hfuel : String.length source < fuel.

Let t1 := set_current (S (this_current t0)) t0.

Lemma first_within :
  charAt source (this_current t0) <> LF -> within0 source t0 t1.
Proof.
  intros H. pose proof (within_advance1 t0 Hlt H) as W.
  now rewrite advance1_eq in W.
Qed.

Lemma first_slice :
  slice source (this_current t0) (this_current t1)
  = charAt source (this_current t0).
Proof. unfold t1; simpl. apply slice_one. Qed.

Lemma turn_single (K : TokenADT) (x : string) :
  charAt source (this_current t0) = x -> x <> LF ->
  lexeme_ok (mkToken K x (this_line t0)) ->
  exists r sp, Some (addToken source K t1) = Some r /\ step_post source t0 r sp.
Proof.
  intros E Hnl Hok. eexists _, _. split; [reflexivity|].
  apply post_token0; [assumption | | unfold t1; simpl; lia | ].
  - apply first_within. congruence.
  - rewrite first_slice, E. exact Hok.
Qed.

Lemma turn_double (K2 K1 : TokenADT) (x : string) :
  charAt source (this_current t0) = x -> x <> LF ->
  lexeme_ok (mkToken K1 x (this_line t0)) ->
  lexeme_ok (mkToken K2 (x ++ "=") (this_line t0)) ->
  exists r sp,
    (let (m, t) := match_ source "=" t1 in
     Some (addToken source (if m then K2 else K1) t)) = Some r
    /\ step_post source t0 r sp.
Proof.
  intros E Hnl Hok1 Hok2.
  assert (W1 : within0 source t0 t1) by (apply first_within; congruence).
  destruct (match_within "=" t1) as (W & Ht & Hf);
    [discriminate | unfold t1; simpl; lia | ].
  destruct (match_ source "=" t1) as [m t2]; simpl in *.
  eexists _, _. split; [reflexivity|].
  apply post_token0; [assumption | | | ].
  - eapply within_trans; [apply W1 | apply W].
  - destruct W as [[] _]. unfold t1 in *; simpl in *. lia.
  - destruct m.
    + destruct (Ht eq_refl) as [Ec Ecur]. rewrite Ecur.
      unfold t1; simpl. rewrite slice_snoc, slice_one by lia.
      unfold t1 in Ec; simpl in Ec. rewrite E, Ec.
      destruct W as [_ ->]. exact Hok2.
    + rewrite (Hf eq_refl). rewrite first_slice, E. exact Hok1.
Qed.

Lemma turn_minus :
  charAt source (this_current t0) = "-" ->
  exists r sp,
    (let (m, t) := match_ source "-" t1 in
     if m then
       while_ fuel
         (fun t => negb (peek source t =? LF)%string
                   && negb (reachedEOF source t))
         (step source) t
     else Some (addToken source T_minus t)) = Some r
    /\ step_post source t0 r sp.
Proof.
  intros E.
  assert (W1 : within0 source t0 t1) by (apply first_within; rewrite E; discriminate).
  destruct (match_within "-" t1) as (W & Ht & Hf);
    [discriminate | unfold t1; simpl; lia | ].
  destruct (match_ source "-" t1) as [[|] t2]; simpl in *.
  - destruct (Ht eq_refl) as [Ec Ecur].
    destruct (comment_loop fuel t2) as (t3 & -> & W3);
      [apply W | assumption | ].
    assert (W03 : within0 source t0 t3) by eauto using within0_trans.
    assert (W23 : this_current t2 <= this_current t3) by apply W3.
    pose proof (post_skip t0 t3 LineComment (proj1 W03)) as P.
    simpl in P. rewrite app_nil_r in P.
    exists t3, (Skipped LineComment
                  (slice source (this_current t0) (this_current t3))).
    split; [reflexivity|]. destruct t3 as [tk st cu li co]; simpl in *.
    apply P.
    + unfold t1 in Ecur; simpl in Ecur. lia.
    + exists (slice source (S (S (this_current t0))) cu).
      unfold t1 in Ecur, Ec; simpl in Ecur, Ec.
      split.
      * rewrite (slice_app source _ (S (S (this_current t0))) cu) by lia.
        now rewrite slice_snoc, slice_one, E, Ec by lia.
      * pose proof (within0_count _ _ W3) as Z. simpl in Z.
        now rewrite Ecur in Z.
  - rewrite (Hf eq_refl). eexists _, _. split; [reflexivity|].
    apply post_token0; [assumption | | unfold t1; simpl; lia | ].
    + apply W1.
    + rewrite first_slice, E. reflexivity.
Qed.

Lemma turn_whitespace :
  let x := charAt source (this_current t0) in
  x = " " \/ x = CR \/ x = TAB ->
  exists r sp, Some t1 = Some r /\ step_post source t0 r sp.
Proof.
  intros x Hx.
  assert (W1 : within0 source t0 t1)
    by (apply first_within; fold x; destruct Hx as [->|[->| ->]]; discriminate).
  pose proof (post_skip t0 t1 Whitespace (proj1 W1)) as P.
  simpl in P. rewrite app_nil_r in P.
  exists t1, (Skipped Whitespace
                (slice source (this_current t0) (this_current t1))).
  split; [reflexivity|]. apply P; [lia|].
  rewrite (slice_one source (this_current t0)). fold x. tauto.
Qed.

Lemma turn_newline :
  charAt source (this_current t0) = LF ->
  exists r sp, Some (incr_line t1) = Some r /\ step_post source t0 r sp.
Proof.
  intros E. pose proof (within_newline t0 E) as W.
  rewrite advance1_eq in W. simpl in W.
  pose proof (post_skip t0 _ Whitespace W) as P.
  simpl in P. rewrite app_nil_r in P.
  eexists _, _. split; [reflexivity|]. apply P; [lia|].
  rewrite (slice_one source (this_current t0)). tauto.
Qed.

Lemma digit_lexeme_ok (t' : Tokenizer) (kind : NumberKind) :
  within0 source t1 t' ->
  charAt source (this_current t0) <> LF ->
  lexeme_ok
    (mkToken
       (T_number (Number (slice source (this_start t') (this_current t'))) kind)
       (slice source (this_current t0) (this_current t')) (this_line t')).
Proof.
  intros W Hnl. pose proof (first_within Hnl) as W1.
  pose proof (within0_trans _ _ _ W1 W) as W0.
  assert (Hst : this_start t' = this_current t0).
  { destruct W0 as [[] _]. congruence. }
  assert (Hcur : S (this_current t0) <= this_current t').
  { destruct W as [[] _]. assumption. }
  simpl. rewrite Hst. split; [reflexivity|]. split.
  - apply (within0_count _ _ W0).
  - intros Z. apply (f_equal String.length) in Z. simpl in Z.
    rewrite slice_length in Z; [lia | lia | apply W0].
Qed.

Lemma turn_number :
  charAt source (this_current t0) <> LF ->
  exists r sp, number source fuel t1 = Some r /\ step_post source t0 r sp.
Proof.
  intros Hnl. pose proof (first_within Hnl) as W1.
  destruct (number_spec fuel t1) as (t' & kind & -> & W);
    [unfold t1; simpl; lia | assumption | ].
  pose proof (within0_trans _ _ _ W1 W) as W0.
  assert (Hcur : S (this_current t0) <= this_current t').
  { destruct W as [[] _]. assumption. }
  eexists _, _. split; [reflexivity|].
  apply post_token0; [assumption | apply W0 | lia | ].
  now apply digit_lexeme_ok.
Qed.

Lemma turn_zero :
  charAt source (this_current t0) <> LF ->
  exists r sp, leadingZeroNumber source fuel t1 = Some r /\ step_post source t0 r sp.
Proof.
  intros Hnl. pose proof (first_within Hnl) as W1.
  destruct (leadingZeroNumber_spec fuel t1) as (t' & kind & errs & -> & W);
    [unfold t1; simpl; lia | assumption | ].
  pose proof (within0_trans _ _ _ W1 W) as W0.
  assert (Hcur : S (this_current t0) <= this_current t').
  { destruct W as [[] _]. assumption. }
  eexists _, _. split; [reflexivity|].
  apply post_token; [assumption | apply W0 | lia | ].
  now apply digit_lexeme_ok.
Qed.

Lemma turn_string :
  charAt source (this_current t0) = DQUOTE ->
  exists r sp, string_ source fuel t1 = Some r /\ step_post source t0 r sp.
Proof.
  intros E.
  assert (W1 : within0 source t0 t1) by (apply first_within; rewrite E; discriminate).
  unfold string_.
  destruct (string_loop fuel t1) as (t2 & -> & W & Hend);
    [unfold t1; simpl; lia | assumption | ].
  pose proof (within_trans _ _ _ (proj1 W1) W) as W0.
  assert (Hcur : S (this_current t0) <= this_current t2) by apply W.
  rewrite reachedEOF_leb.
  destruct (Nat.leb_spec (String.length source) (this_current t2)) as [He|He].
  - pose proof (post_skip t0 t2 UnterminatedString W0) as P. simpl in P.
    eexists _, _. split; [reflexivity|]. apply P; [lia|].
    exists (slice source (S (this_current t0)) (this_current t2)).
    rewrite (slice_app source _ (S (this_current t0))) by lia.
    now rewrite slice_one, E.
  - destruct Hend as [Hend|Hend]; [lia|].
    rewrite advance1_eq. simpl.
    eexists _, _. split; [reflexivity|].
    assert (W3 : within source t0 (set_current (S (this_current t2)) t2)).
    { eapply within_trans; [exact W0|].
      assert (Hq : charAt source (this_current t2) <> LF)
        by (rewrite Hend; discriminate).
      pose proof (within_advance1 t2 He Hq) as X.
      rewrite advance1_eq in X. apply X. }
    pose proof (post_token0 t0 _ (T_string
        (slice source (this_start t2 + 1) (this_current t2 - 0))) Hstart W3)
      as P.
    simpl in P. apply P; [lia|].
    assert (Hst : this_start t2 = this_current t0).
    { destruct W0. congruence. }
    rewrite Hst, Nat.sub_0_r, Nat.add_1_r.
    rewrite (slice_app source _ (S (this_current t0)) (S (this_current t2)))
      by lia.
    rewrite slice_one, E, slice_snoc, Hend by lia. reflexivity.
Qed.

Lemma turn_default :
  let x := charAt source (this_current t0) in
  recognized x = false ->
  exists r sp, Some (error (unexpected x) t1) = Some r /\ step_post source t0 r sp.
Proof.
  intros x Hx.
  assert (W1 : within0 source t0 t1).
  { apply first_within. fold x. intros Z. rewrite Z in Hx. discriminate. }
  pose proof (post_skip t0 t1 Unrecognized (proj1 W1)) as P.
  simpl in P. rewrite (slice_one source (this_current t0)) in P. fold x in P.
  eexists _, _. split; [reflexivity|]. apply P; [lia|].
  split; [now apply charAt_length | assumption].
Qed.

Local Ltac concrete_neq :=
  let X := fresh in intros X; vm_compute in X; discriminate X.

Local Ltac on_char k tac :=
  let E := fresh "E" in
  destruct (String.eqb (charAt source (this_current t0)) k) eqn:E;
  cbn [orb];
  [ apply String.eqb_eq in E; tac E | ].

Local Ltac single K k :=
  on_char k ltac:(fun E =>
    apply (turn_single K k); [exact E | concrete_neq | reflexivity]).

Local Ltac double K2 K1 k :=
  on_char k ltac:(fun E =>
    apply (turn_double K2 K1 k);
    [exact E | concrete_neq | reflexivity | reflexivity]).

Local Ltac blank k :=
  on_char k ltac:(fun E => apply turn_whitespace; cbv zeta; tauto).

Local Ltac digit k :=
  on_char k ltac:(fun E => apply turn_number; rewrite E; concrete_neq).

Lemma scanToken_spec :
  exists r sp, scanToken source fuel t0 = Some r /\ step_post source t0 r sp.
Proof.
  unfold scanToken. rewrite advance1_eq. cbv beta iota zeta. fold t1.
  single T_leftParen "(". single T_rightParen ")".
  single T_leftBrace "{". single T_rightBrace "}".
  single T_comma ",". single T_dot ".".
  on_char "-" ltac:(fun E => now apply turn_minus).
  single T_plus "+". single T_semicolon ";".
  single T_star "*". single T_slash "/".
  double T_bangEqual T_bang "!". double T_equalEqual T_equal "=".
  double T_lessEqual T_less "<". double T_greaterEqual T_greater ">".
  blank " ". blank CR. blank TAB.
  on_char LF ltac:(fun E => now apply turn_newline).
  on_char "0" ltac:(fun E => apply turn_zero; rewrite E; concrete_neq).
  digit "1". digit "2". digit "3". digit "4". digit "5".
  digit "6". digit "7". digit "8". digit "9".
  on_char DQUOTE ltac:(fun E => now apply turn_string).
  apply turn_default. cbv zeta. unfold recognized, existsb.
  repeat match goal with
         | H : (_ =? _)%string = false |- _ => rewrite H; clear H
         end.
  reflexivity.
Qed.

End Turn.

(** *** The loop of [scanTokens] *)

Lemma nondecreasing_cons (a : nat) (r : list nat) :
  (forall x, In x r -> a <= x) -> nondecreasing r -> nondecreasing (a :: r).
Proof.
  intros H S. split; [|assumption].
  destruct r as [|b r]; [exact I | apply H; now left].
Qed.

Lemma nondecreasing_snoc (r : list nat) (b : nat) :
  (forall x, In x r -> x <= b) -> nondecreasing r ->
  nondecreasing (r ++ [b])%list.
Proof.
  induction r as [|a r IH]; intros H S; [simpl; auto|].
  destruct S as [S1 S2]. simpl app. apply nondecreasing_cons.
  - intros x Hx. apply in_app_or in Hx as [Hx|[<-|[]]].
    + clear IH H. revert a S1 x Hx.
      induction r as [|c r IHr]; intros a S1 x Hx; [destruct Hx|].
      destruct S2 as [S2 S3]. destruct Hx as [<-|Hx]; [assumption|].
      transitivity c; [assumption|]. now apply IHr.
    + apply H. now left.
  - apply IH; [|assumption]. intros x Hx. apply H. now right.
Qed.

Lemma loop_post_nil (t : Tokenizer) :
  this_current t = String.length source -> loop_post source t t [].
Proof.
  intros Ecur. split; simpl; auto.
  - now rewrite app_nil_r.
  - now rewrite Ecur, slice_same.
  - intros pre k post H. destruct pre; discriminate.
  - intros k [].
  - intros k x m [].
  - exists []. now rewrite app_nil_r.
Qed.

Lemma loop_post_cons (t t' r : Tokenizer) (sp : span) (l : list span) :
  step_post source (set_start (this_current t) t) t' sp ->
  loop_post source t' r l ->
  loop_post source t r (sp :: l).
Proof.
  intros [Ptok Plo Phi Ptext Pline Ptl Pok Pcon [e1 Pmono]]
         [Rcur Rtok Rtext Rok Rline Rpos Rsort Rbnd Rrep [e2 Rcon]].
  simpl in *.
  assert (Hhead : forall k, In k (span_tokens sp) -> line k = this_line t').
  { intros k Hk. destruct sp as [k'|]; [|destruct Hk].
    destruct Hk as [<-|[]]. now apply Ptl. }
  split.
  - assumption.
  - rewrite Rtok, Ptok. unfold lexemes. simpl. now rewrite <- app_assoc.
  - simpl. rewrite Rtext, <- Ptext. symmetry. apply slice_app; lia.
  - now constructor.
  - simpl. rewrite Rline, Pline, count_nl_app. lia.
  - intros pre k post H. destruct pre as [|p pre]; simpl in H.
    + injection H as H1 H2. subst sp l. simpl.
      rewrite (Ptl k eq_refl), Pline. reflexivity.
    + injection H as H1 H2. subst p l. simpl.
      rewrite (Rpos _ _ _ eq_refl).
      rewrite Pline, append_assoc, !count_nl_app. lia.
  - unfold lexemes; simpl. fold (lexemes l).
    destruct sp as [k|]; simpl; [|assumption].
    apply nondecreasing_cons; [|assumption].
    intros x Hx. apply in_map_iff in Hx as (k' & <- & Hk').
    rewrite (Ptl k eq_refl). now apply Rbnd.
  - unfold lexemes; simpl. fold (lexemes l).
    intros k Hk. apply in_app_or in Hk as [Hk|Hk].
    + rewrite (Hhead k Hk). lia.
    + apply Rbnd in Hk. lia.
  - intros k x m [->|Hin] Hm.
    + rewrite Rcon, (Pcon k x eq_refl). apply in_or_app. left.
      apply in_or_app. now right.
    + now apply (Rrep k x m).
  - exists (e1 ++ e2)%list. rewrite Rcon, Pmono. now rewrite <- app_assoc.
Qed.

Lemma loop_spec (fuel : nat) :
  String.length source < fuel ->
  forall n t,
    String.length source - this_current t < n ->
    this_current t <= String.length source ->
    exists r l,
      while_ n (fun t => negb (reachedEOF source t)) (turn source fuel) t = Some r
      /\ loop_post source t r l.
Proof.
  intros Hfuel. induction n as [|n IH]; intros t Hn Hle; [lia|].
  simpl. rewrite reachedEOF_leb.
  destruct (Nat.leb_spec (String.length source) (this_current t)) as [He|He];
    simpl.
  - exists t, []. split; [reflexivity | apply loop_post_nil; lia].
  - unfold turn at 1.
    destruct (scanToken_spec fuel (set_start (this_current t) t))
      as (t' & sp & -> & P); try assumption; try reflexivity.
    pose proof (sp_lo _ _ _ _ P) as Plo. pose proof (sp_hi _ _ _ _ P) as Phi.
    simpl in Plo.
    destruct (IH t') as (r & l & -> & R); try lia.
    exists r, (sp :: l). split; [reflexivity|].
    now apply (loop_post_cons t t').
Qed.

End Source.

(** *** The whole scan *)

Lemma run_spec (source : string) (fuel : nat) :
  String.length source < fuel ->
  exists r l,
    scanTokens_run source fuel
    = Some (push (mkToken T_eof "" (this_line r)) r)
    /\ loop_post source new_Tokenizer r l
    /\ texts l = source
    /\ this_line r = count_nl source
    /\ this_tokens r = lexemes l.
Proof.
  intros Hfuel. unfold scanTokens_run.
  destruct (loop_spec source fuel Hfuel fuel new_Tokenizer)
    as (r & l & E & R); simpl; try lia.
  fold (turn source fuel). rewrite E.
  pose proof (lp_texts _ _ _ _ R) as Rtext.
  pose proof (lp_line _ _ _ _ R) as Rline.
  pose proof (lp_tokens _ _ _ _ R) as Rtok.
  simpl in *. rewrite slice_whole in Rtext.
  exists r, l. rewrite Rline, Rtext. auto.
Qed.

Lemma lexemes_ok (l : list span) :
  Forall span_ok l -> forall k, In k (lexemes l) -> lexeme_ok k.
Proof.
  induction 1 as [|sp l Hsp Hl IH]; intros k Hk; [destruct Hk|].
  unfold lexemes in Hk; simpl in Hk. apply in_app_or in Hk as [Hk|Hk].
  - destruct sp; [|destruct Hk]. destruct Hk as [<-|[]]. exact Hsp.
  - now apply IH.
Qed.

Lemma lexeme_ok_not_eof (k : Token) : lexeme_ok k -> is_eof k = false.
Proof. unfold lexeme_ok, is_eof. destruct (_type k); tauto. Qed.


End FineFacts.

(** ** Claims about [src/Tokenizer.ts] *)

Module FineClaims.
Import JS Fine Spans FineFacts.

Lemma run_tiling (source : string) (fuel : nat) :
  String.length source < fuel ->
  exists r l,
    scanTokens_run source fuel = Some r
    /\ tiling source (this_tokens r) l
    /\ this_tokens r = (lexemes l ++ [mkToken T_eof "" (count_nl source)])%list
    /\ loop_post source new_Tokenizer
         (mkTokenizer (lexemes l) (this_start r) (this_current r)
            (count_nl source) (console_error r)) l.
Proof.
  intros Hfuel.
  destruct (run_spec source fuel Hfuel) as (r & l & E & R & Et & El & Ek).
  exists (push (mkToken T_eof "" (this_line r)) r), l.
  split; [assumption|]. simpl. rewrite Ek, El.
  split; [|split; [reflexivity|]].
  - split; [assumption | now exists (count_nl source) | apply R].
  - destruct r; simpl in *. subst. exact R.
Qed.

(** C1.  For every source the scan returns, whatever fuel is left over, a
    sequence that ends with the [eof] token, whose lexeme is empty, and has
    no [eof] token before it; the empty source gives the [eof] token alone. *)
Theorem C1_scan_ends_with_eof (source : string) (extra : nat) :
  (exists toks n,
     scanTokens source (S (String.length source + extra))
     = Some (toks ++ [mkToken T_eof "" n])%list
     /\ forall k, In k toks -> is_eof k = false)
  /\ scanTokens "" (S extra) = Some [mkToken T_eof "" 0].
Proof.
  split; [|reflexivity].
  destruct (run_tiling source (S (String.length source + extra)))
    as (r & l & E & T & Etok & _); [lia|].
  exists (lexemes l), (count_nl source). unfold scanTokens. rewrite E. simpl.
  split; [now rewrite Etok|].
  intros k Hk. apply lexeme_ok_not_eof.
  apply (lexemes_ok l); [apply T | assumption].
Qed.

(** C3, as it is stated, fails: the character [@] is neither white space nor
    a comment, and no token holds it. *)
Lemma C3_unrecognized_gap :
  scan "@" = Some [mkToken T_eof "" 0]
  /\ ~ (exists l, tiling "@" [mkToken T_eof "" 0] l /\ blank_gaps l).
Proof.
  split; [reflexivity|].
  intros (l & [Htext [n Htok] Hok] & Hgap).
  destruct l as [|[k|kind x] l]; simpl in *.
  - discriminate.
  - unfold lexemes in Htok; simpl in Htok.
    destruct (flat_map span_tokens l); discriminate.
  - inversion Hok as [|? ? Hx _]; subst. simpl in Hx.
    destruct (Hgap kind x (or_introl eq_refl)) as [->| ->]; simpl in Hx.
    + destruct Hx as [->|[->|[->| ->]]]; discriminate.
    + destruct Hx as (body & -> & _). discriminate.
Qed.



(** C8, as it is stated, fails: the lexeme of a string has its quotes. *)
Lemma C8_string_lexeme_has_quotes :
  let source := DQUOTE ++ "abc" ++ DQUOTE in
  let k := mkToken (T_string "abc") source 0 in
  scan source = Some [k; mkToken T_eof "" 0]
  /\ ~ string_lexeme_unquoted [k; mkToken T_eof "" 0].
Proof.
  intros source k. split; [vm_compute; reflexivity|]. intros H.
  specialize (H k "abc" (or_introl eq_refl) eq_refl). discriminate H.
Qed.

(** C10.  The [line] fields of the returned tokens never decrease along the
    sequence, and the [eof] token has the greatest. *)
Theorem C10_lines_nondecreasing (source : string) (extra : nat) :
  exists toks n,
    scanTokens source (S (String.length source + extra))
    = Some (toks ++ [mkToken T_eof "" n])%list
    /\ nondecreasing (map line (toks ++ [mkToken T_eof "" n]))
    /\ forall k, In k toks -> line k <= n.
Proof.
  destruct (run_tiling source (S (String.length source + extra)))
    as (r & l & E & T & Etok & R); [lia|].
  exists (lexemes l), (count_nl source). unfold scanTokens. rewrite E. simpl.
  split; [now rewrite Etok|].
  pose proof (lp_bounds _ _ _ _ R) as B. simpl in B.
  split.
  - rewrite map_app. simpl. apply nondecreasing_snoc.
    + intros x Hx. apply in_map_iff in Hx as (k & <- & Hk). now apply B.
    + apply (lp_sorted _ _ _ _ R).
  - intros k Hk. now apply B.
Qed.

End FineClaims.

(** ** A string literal left open *)

Module FineString.
Import JS Fine Spans FineFacts.

Lemma prefix_append (x q : string) : prefix x (x ++ q) = true.
Proof.
  induction x as [|c x IH]; simpl; [destruct q; reflexivity|].
  destruct (ascii_dec c c); [assumption | congruence].
Qed.

Lemma includes_append (p q x : string) :
  includes q x = true -> includes (p ++ q) x = true.
Proof.
  intros H. induction p as [|c p IH]; simpl; [assumption|].
  fold (includes (p ++ q) x). rewrite IH. apply orb_true_r.
Qed.

Lemma includes_prefix (x q : string) : includes (x ++ q) x = true.
Proof.
  destruct x as [|c x]; [destruct q; reflexivity|].
  change (prefix (String c x) (String c x ++ q)
          || includes (x ++ q) (String c x) = true).
  now rewrite prefix_append.
Qed.

Lemma includes_slice (s x : string) (a j b : nat) :
  a <= j -> j < b -> charAt s j = x -> includes (slice s a b) x = true.
Proof.
  intros Ha Hb E.
  rewrite (slice_app s a j b), (slice_app s j (S j) b) by lia.
  rewrite slice_one, E. apply includes_append, includes_prefix.
Qed.

Section Source.

Variable source : string.
Variable fuel : nat.
Hypothesis Hfuel : String.length source < fuel.

Lemma scanToken_quote (t0 : Tokenizer) :
  charAt source (this_current t0) = DQUOTE ->
  scanToken source fuel t0
  = string_ source fuel (set_current (S (this_current t0)) t0).
Proof.
  intros E. unfold scanToken. rewrite advance1_eq. cbv beta iota zeta.
  rewrite E. reflexivity.
Qed.

Lemma open_string_turn (t : Tokenizer) :
  charAt source (this_current t) = DQUOTE ->
  includes (slice source (S (this_current t)) (String.length source)) DQUOTE
  = false ->
  exists r,
    turn source fuel t = Some r
    /\ this_tokens r = this_tokens t
    /\ console_error r
       = (console_error t ++ ["Unterminated string literal."])%list
    /\ this_current r = String.length source.
Proof.
  intros E Hno.
  assert (Hlt : this_current t < String.length source)
    by (apply charAt_inside; rewrite E; discriminate).
  unfold turn. rewrite scanToken_quote by exact E. simpl.
  unfold string_.
  destruct (string_loop source fuel
              (set_current (S (this_current t))
                 (set_start (this_current t) t)))
    as (t2 & -> & W & Hend); [simpl; lia | assumption | ].
  destruct W as [Wt Ws Wc Wlo Whi Wl]. simpl in *.
  rewrite reachedEOF_leb.
  destruct Hend as [Hend|Hend].
  - apply Nat.leb_le in Hend as Hb. rewrite Hb.
    eexists. split; [reflexivity|]. simpl.
    repeat split; try congruence. lia.
  - destruct (Nat.lt_ge_cases (this_current t2) (String.length source))
      as [Hin|Hout].
    + rewrite (includes_slice source DQUOTE _ (this_current t2)) in Hno;
        [discriminate | lia | lia | assumption].
    + rewrite charAt_past in Hend by assumption. discriminate.
Qed.

Lemma turns_while (k : nat) :
  forall t t' n,
    turns_from source fuel t k = Some t' ->
    while_ (k + n) (fun t => negb (reachedEOF source t)) (turn source fuel) t
    = while_ n (fun t => negb (reachedEOF source t)) (turn source fuel) t'.
Proof.
  induction k as [|k IH]; intros t t' n H; simpl in *.
  - now injection H as ->.
  - destruct (reachedEOF source t); [discriminate|]. simpl.
    destruct (turn source fuel t) as [u|]; [|discriminate].
    now apply IH.
Qed.

Lemma turns_progress (k : nat) :
  forall t t',
    this_current t <= String.length source ->
    turns_from source fuel t k = Some t' ->
    this_current t + k <= this_current t'
    /\ this_current t' <= String.length source.
Proof.
  induction k as [|k IH]; intros t t' Hle H; simpl in *.
  - injection H as ->. lia.
  - rewrite reachedEOF_leb in H.
    destruct (Nat.leb_spec (String.length source) (this_current t));
      [discriminate|].
    destruct (scanToken_spec source fuel (set_start (this_current t) t))
      as (u & sp & E & P); try assumption; try reflexivity.
    unfold turn in H. rewrite E in H.
    destruct P as [_ Plo Phi _ _ _ _ _ _]. simpl in *.
    destruct (IH u t' Phi H). lia.
Qed.

End Source.

(** C6, as the code has it.  When the loop of [scanTokens] is at a double
    quote and no double quote at all follows it in the source, the scan
    reports one error, the open string literal, adds no token for it, and
    ends with the [eof] token. *)
Theorem C6_open_string_reported (source : string) (extra k : nat)
    (t : Tokenizer) :
  turns_from source (S (String.length source + extra)) new_Tokenizer k
  = Some t ->
  charAt source (this_current t) = DQUOTE ->
  includes (slice source (S (this_current t)) (String.length source)) DQUOTE
  = false ->
  exists r n,
    scanTokens_run source (S (String.length source + extra)) = Some r
    /\ console_error r
       = (console_error t ++ ["Unterminated string literal."])%list
    /\ this_tokens r = (this_tokens t ++ [mkToken T_eof "" n])%list.
Proof.
  intros Hk E Hno.
  set (fuel := S (String.length source + extra)) in *.
  assert (Hfuel : String.length source < fuel) by (unfold fuel; lia).
  clearbody fuel.
  assert (Hlt : this_current t < String.length source)
    by (apply charAt_inside; rewrite E; discriminate).
  destruct (turns_progress source fuel Hfuel k new_Tokenizer t) as [Hp _];
    [simpl; lia | assumption | ]. simpl in Hp.
  destruct (open_string_turn source fuel Hfuel t E Hno)
    as (r & Er & Rtok & Rcon & Rcur).
  change (scanTokens_run source fuel)
    with (t <- while_ fuel (fun t => negb (reachedEOF source t))
                 (turn source fuel) new_Tokenizer ;;
          Some (push (mkToken T_eof "" (this_line t)) t)).
  replace (while_ fuel (fun t => negb (reachedEOF source t))
             (turn source fuel) new_Tokenizer)
    with (while_ (k + S (S (fuel - k - 2)))
            (fun t => negb (reachedEOF source t))
            (turn source fuel) new_Tokenizer)
    by (f_equal; lia).
  rewrite (turns_while source fuel k new_Tokenizer t) by assumption.
  simpl. rewrite reachedEOF_leb.
  destruct (Nat.leb_spec (String.length source) (this_current t)); [lia|].
  simpl. rewrite Er, reachedEOF_leb.
  destruct (Nat.leb_spec (String.length source) (this_current r)); [|lia].
  simpl. eexists _, _. split; [reflexivity|]. simpl.
  split; [exact Rcon | now rewrite Rtok].
Qed.

Lemma C6_open_string_witness :
  exists r n,
    scanTokens_run (DQUOTE ++ "abc") 5 = Some r
    /\ console_error r = ["Unterminated string literal."]
    /\ this_tokens r = [mkToken T_eof "" n].
Proof.
  apply (C6_open_string_reported (DQUOTE ++ "abc") 0 0 new_Tokenizer);
    reflexivity.
Defined.

(** C6, as it is stated, fails: the tokenizer knows no escape, so the quote
    after a backslash closes the literal, a string token is returned and
    nothing is reported. *)
Lemma C6_escaped_quote_closes :
  let source := DQUOTE ++ "ab" ++ BACKSLASH ++ DQUOTE in
  scan source = Some [mkToken (T_string ("ab" ++ BACKSLASH)) source 0;
                      mkToken T_eof "" 0]
  /\ diagnostics source = Some []
  /\ ~ open_string_claim ("ab" ++ BACKSLASH ++ DQUOTE).
Proof.
  intros source. split; [vm_compute; reflexivity|].
  split; [vm_compute; reflexivity|].
  intros H. destruct (H eq_refl) as (toks & _ & Hd & _).
  vm_compute in Hd. discriminate Hd.
Qed.

End FineString.

(** ** Claims about the tokenizer kept in [src/Token.ts] *)

Module CoarseClaims.
Import JS Coarse.

Lemma coarse_reachedEOF_leb (source : string) (t : Tokenizer) :
  reachedEOF source t = (String.length source <=? this_current t).
Proof.
  unfold reachedEOF.
  destruct (Nat.leb_spec (String.length source) (this_current t)); lia.
Qed.

(** Past the end of the source [match("-")] fails, so the loop of the block
    comment goes on for ever. *)
Lemma blockComment_past_the_end (source : string) (n : nat) :
  forall t,
    String.length source <= this_current t ->
    while_do n
      (fun t => let (m, t) := match_ source "-" false t in
                (negb m || negb (peek source t =? "}")%string, t))
      (step source) t
    = OutOfFuel.
Proof.
  induction n as [|n IH]; intros t H; [reflexivity|].
  simpl. unfold match_. rewrite coarse_reachedEOF_leb.
  apply Nat.leb_le in H as Hb. rewrite Hb. simpl.
  apply IH. simpl. lia.
Qed.

Lemma scanToken_open_comment (fuel : nat) :
  scanToken "{-" fuel (set_start 0 new_Tokenizer)
  = blockComment "{-" fuel (mkTokenizer [] 0 2 0 []).
Proof. reflexivity. Qed.

(** C2 fails on this tokenizer: on the source [{-], a block comment that is
    never closed, [scanTokens] does not return, whatever the fuel. *)
Theorem C2_open_block_comment_diverges (fuel : nat) :
  scanTokens "{-" fuel = OutOfFuel.
Proof.
  destruct fuel as [|n]; [reflexivity|].
  unfold scanTokens, scanTokens_run.
  change (while_do (S n) (fun t => (negb (reachedEOF "{-" t), t))
            (fun t => scanToken "{-" (S n) (set_start (this_current t) t))
            new_Tokenizer)
    with (s' <~ scanToken "{-" (S n) (set_start 0 new_Tokenizer) ;;
          while_do n (fun t => (negb (reachedEOF "{-" t), t))
            (fun t => scanToken "{-" (S n) (set_start (this_current t) t))
            s').
  rewrite scanToken_open_comment. unfold blockComment.
  now rewrite blockComment_past_the_end by (simpl; lia).
Qed.

(** C4 fails on this tokenizer.  The hexadecimal literal [0x1A] is read as
    the claim says, but after the radix marker has been consumed the digit
    test looks one character too far: [0x1], a hexadecimal literal of one
    digit, is reported as an error and scanned as [0x] and [1], and [0b21]
    passes for a binary literal. *)
Theorem C4_radix_digit_lookahead (extra : nat) :
  (scanTokens "0x1A" (3 + extra)
   = Returns [number_token (Real 26) hexadecimal "0x1A"; eof_token]
   /\ diagnostics "0x1A" (3 + extra) = Returns [])
  /\ (scanTokens "0x1" (3 + extra)
      = Returns [number_token NaN hexadecimal "0x";
                 number_token (Real 1) decimal "1"; eof_token]
      /\ diagnostics "0x1" (3 + extra)
         = Returns ["Hexadecimal digit expected"])
  /\ (scanTokens "0b21" (3 + extra)
      = Returns [number_token NaN binary "0b21"; eof_token]
      /\ diagnostics "0b21" (3 + extra) = Returns []).
Proof. repeat split; reflexivity. Qed.

(** C9 fails on this tokenizer: [match(".")] consumes the point before the
    digit after it is looked at, so the point of [1.] ends up in the lexeme
    of the number, and no [.] token follows. *)
Theorem C9_trailing_point_consumed (extra : nat) :
  scanTokens "1." (2 + extra)
  = Returns [number_token (Real 1) decimal "1."; eof_token]
  /\ scanTokens "1.5" (3 + extra)
     = Returns [number_token (Real 1) decimal "1.";
                number_token (Real 5) decimal "5"; eof_token].
Proof. split; reflexivity. Qed.

(** The [n] suffix: the lexeme has it, the [BigInt] literal is decoded from
    the text before it. *)
Example bigint_suffix :
  scanTokens "12n" 3
  = Returns [mkToken (T_number (L_bigint 12) decimal true) "12n" 0; eof_token].
Proof. reflexivity. Qed.

Example scan_0b2 (extra : nat) :
  scanTokens "0b2" (3 + extra)
  = Returns [number_token NaN binary "0b"; number_token (Real 2) decimal "2";
             eof_token]
  /\ diagnostics "0b2" (3 + extra) = Returns ["Binary digit expected"].
Proof. split; reflexivity. Qed.

End CoarseClaims.

(** ** A radix marker without a digit *)

Module FineRadix.
Import JS Fine Spans FineFacts FineString.

Section Source.

Variable source : string.
Variable fuel : nat.

Lemma scanToken_zero (t0 : Tokenizer) :
  charAt source (this_current t0) = "0" ->
  scanToken source fuel t0
  = leadingZeroNumber source fuel (set_current (S (this_current t0)) t0).
Proof.
  intros E. unfold scanToken. rewrite advance1_eq. cbv beta iota zeta.
  rewrite E. reflexivity.
Qed.

(** A turn on [0], the marker [b] or [B] and no binary digit: the message,
    once, and then, since [leadingZeroNumber] does not return after
    [console.error], a [binary] token for the [0]; the marker is left in
    place. *)
Lemma binary_digit_expected_turn (t : Tokenizer) :
  charAt source (this_current t) = "0" ->
  toLowerCase (charAt source (this_current t + 1)) = "b" ->
  isBinaryDigit (charAt source (this_current t + 2)) = false ->
  turn source fuel t
  = Some (mkTokenizer
            (this_tokens t
             ++ [mkToken (T_number (Real 0) binary) "0" (this_line t)])
            (this_current t) (S (this_current t)) (this_line t)
            (console_error t ++ ["Binary digit expected"])).
Proof.
  intros E0 Eb Ed. unfold turn. rewrite scanToken_zero by exact E0.
  unfold leadingZeroNumber. rewrite peek_eq. simpl.
  rewrite <- Nat.add_1_r, Eb. simpl.
  assert (Hn : isBinaryDigit
                 (peekNext source 1
                    (set_current (this_current t + 1)
                       (set_start (this_current t) t))) = false).
  { unfold peekNext. simpl.
    destruct (String.length source <=? this_current t + 1 + 1);
      [reflexivity|].
    now replace (this_current t + 1 + 1) with (this_current t + 2) by lia. }
  rewrite Hn. unfold addToken, push, error. simpl.
  rewrite Nat.add_1_r, slice_one, E0. reflexivity.
Qed.

End Source.

(** C5 fails on both tokenizers.  After [console.error("Binary digit
    expected")] the method [leadingZeroNumber] goes on to [addToken], where
    [string] returns after its message: the malformed span gives a number
    token tagged [binary], with the lexeme [0] in [src/Tokenizer.ts], which
    leaves the marker to be reported as an unexpected character, and with
    the lexeme [0b] and the value [NaN] in [src/Token.ts].  On [0b2] the
    digit [2] is then a decimal number of its own. *)
Theorem C5_number_token_after_error (extra : nat) :
  (scanTokens "0b2" (4 + extra)
   = Some [mkToken (T_number (Real 0) binary) "0" 0;
           mkToken (T_number (Real 2) decimal) "2" 0;
           mkToken T_eof "" 0]
   /\ option_map console_error (scanTokens_run "0b2" (4 + extra))
      = Some ["Binary digit expected"; unexpected "b"])
  /\ (scanTokens "0b" (3 + extra)
      = Some [mkToken (T_number (Real 0) binary) "0" 0; mkToken T_eof "" 0]
      /\ option_map console_error (scanTokens_run "0b" (3 + extra))
         = Some ["Binary digit expected"; unexpected "b"])
  /\ (Coarse.scanTokens "0b2" (3 + extra)
      = Returns [Coarse.number_token NaN Coarse.binary "0b";
                 Coarse.number_token (Real 2) Coarse.decimal "2";
                 Coarse.eof_token]
      /\ Coarse.diagnostics "0b2" (3 + extra)
         = Returns ["Binary digit expected"])
  /\ (Coarse.scanTokens "0b" (2 + extra)
      = Returns [Coarse.number_token NaN Coarse.binary "0b";
                 Coarse.eof_token]
      /\ Coarse.diagnostics "0b" (2 + extra)
         = Returns ["Binary digit expected"]).
Proof. repeat split; reflexivity. Qed.

End FineRadix.

(** ** Whole scans of [src/Tokenizer.ts] *)

Module FineScan.
Import JS Fine Spans FineFacts FineClaims.

Lemma lexeme_ok_nonempty (k : Token) :
  lexeme_ok k -> 1 <= String.length (lexeme k).
Proof.
  unfold lexeme_ok.
  destruct (_type k); try (intros ->; simpl; lia); try tauto.
  intros (_ & _ & H). destruct (lexeme k); [congruence | simpl; lia].
Qed.

Lemma lexemes_fit (l : list span) :
  Forall span_ok l -> List.length (lexemes l) <= String.length (texts l).
Proof.
  induction 1 as [|sp l Hsp Hl IH]; [simpl; lia|].
  unfold lexemes in *; simpl. rewrite length_app, append_length.
  destruct sp as [k|kind x]; simpl in *.
  - apply lexeme_ok_nonempty in Hsp. lia.
  - lia.
Qed.

(** Every token but [eof] has a lexeme that is not empty, so a scan returns
    at most one token per character of the source, and [eof]. *)
Theorem scan_token_count (source : string) (extra : nat) :
  exists toks,
    scanTokens source (S (String.length source + extra)) = Some toks
    /\ List.length toks <= S (String.length source)
    /\ forall k, In k toks -> is_eof k = false -> lexeme k <> "".
Proof.
  destruct (run_tiling source (S (String.length source + extra)))
    as (r & l & E & T & Etok & _); [lia|].
  exists (this_tokens r). unfold scanTokens. rewrite E.
  split; [reflexivity|]. rewrite Etok. split.
  - rewrite length_app. simpl.
    pose proof (lexemes_fit l (tiling_ok _ _ _ T)) as H.
    rewrite (tiling_texts _ _ _ T) in H. lia.
  - intros k Hk Heof. apply in_app_or in Hk as [Hk|[<-|[]]]; [|discriminate].
    pose proof (lexemes_ok l (tiling_ok _ _ _ T) k Hk) as Hok.
    apply lexeme_ok_nonempty in Hok. intros Z. rewrite Z in Hok.
    simpl in Hok. lia.
Qed.

(** The [line] of the [eof] token is the number of line terminators of the
    whole source, those inside string literals and comments included. *)
Theorem eof_line_counts_terminators (source : string) (extra : nat) :
  exists toks,
    scanTokens source (S (String.length source + extra))
    = Some (toks ++ [mkToken T_eof "" (count_nl source)])%list.
Proof.
  destruct (run_tiling source (S (String.length source + extra)))
    as (r & l & E & _ & Etok & _); [lia|].
  exists (lexemes l). unfold scanTokens. rewrite E. simpl. now rewrite Etok.
Qed.

(** A scan that has written nothing to [console.error] has skipped white
    space and line comments only: the lexemes and these spans make up the
    source. *)
Theorem quiet_scan_skips_blanks_only (source : string) (extra : nat)
    (r : Tokenizer) :
  scanTokens_run source (S (String.length source + extra)) = Some r ->
  console_error r = [] ->
  exists l, tiling source (this_tokens r) l /\ blank_gaps l.
Proof.
  intros Hr Hquiet.
  destruct (run_tiling source (S (String.length source + extra)))
    as (r' & l & E & T & _ & R); [lia|].
  rewrite Hr in E. injection E as <-.
  exists l. split; [assumption|].
  intros k x Hin.
  pose proof (lp_reported _ _ _ _ R k x) as Rep. simpl in Rep.
  rewrite Hquiet in Rep.
  destruct k; auto.
  - destruct (Rep (unexpected x) Hin (or_introl eq_refl)).
  - destruct (Rep "Unterminated string literal." Hin (or_introl eq_refl)).
Qed.

Lemma quiet_scan_witness :
  exists l,
    tiling ("1 + 2 -- sum" ++ LF)
      [mkToken (T_number (Real 1) decimal) "1" 0; mkToken T_plus "+" 0;
       mkToken (T_number (Real 2) decimal) "2" 0; mkToken T_eof "" 1] l
    /\ blank_gaps l.
Proof.
  apply (quiet_scan_skips_blanks_only ("1 + 2 -- sum" ++ LF) 0
           (mkTokenizer
              [mkToken (T_number (Real 1) decimal) "1" 0; mkToken T_plus "+" 0;
               mkToken (T_number (Real 2) decimal) "2" 0; mkToken T_eof "" 1]
              12 13 1 []));
    vm_compute; reflexivity.
Defined.

End FineScan.

(** ** Single turns of the loop of [src/Tokenizer.ts] *)

Module FineTurns.
Import JS Fine Spans Shapes FineFacts FineString.

Section Source.

Variable source : string.

(** [match] on a character: it is consumed when it is the next one. *)
Lemma match_eq (expected : string) (t : Tokenizer) :
  expected <> "" ->
  match_ source expected t
  = if (charAt source (this_current t) =? expected)%string
    then (true, set_current (S (this_current t)) t)
    else (false, t).
Proof.
  intros Hne. unfold match_. rewrite reachedEOF_leb.
  destruct (Nat.leb_spec (String.length source) (this_current t)) as [H|H].
  - rewrite charAt_past by assumption.
    apply not_eq_sym, String.eqb_neq in Hne. now rewrite Hne.
  - now destruct (charAt source (this_current t) =? expected)%string.
Qed.

Lemma turn_advance (t : Tokenizer) :
  advance source 1 (set_start (this_current t) t)
  = (charAt source (this_current t),
     mkTokenizer (this_tokens t) (this_current t) (S (this_current t))
       (this_line t) (console_error t)).
Proof. now rewrite advance1_eq. Qed.

(** Enter [scanToken] on the character [x] that [E] gives. *)
Local Ltac enter_turn E :=
  unfold turn, scanToken; rewrite turn_advance; cbv beta iota zeta;
  rewrite E; simpl String.eqb; cbv beta iota.

(** The lexeme that [addToken] cuts for a token of one or two characters. *)
Lemma lexeme_one (i : nat) : slice source i (S i) = charAt source i.
Proof. apply slice_one. Qed.

Lemma lexeme_two (i : nat) :
  slice source i (S (S i)) = charAt source i ++ charAt source (S i).
Proof. now rewrite slice_snoc, slice_one by lia. Qed.

(** A character that is a token on its own gives that token, whose lexeme
    is the character, and moves the cursor by one; nothing else changes. *)
Theorem punctuation_turn (fuel : nat) (t : Tokenizer) (K : TokenADT) :
  punctuation_kind (charAt source (this_current t)) = Some K ->
  turn source fuel t
  = Some (mkTokenizer
            (this_tokens t
             ++ [mkToken K (charAt source (this_current t)) (this_line t)])
            (this_current t) (S (this_current t)) (this_line t)
            (console_error t)).
Proof.
  unfold punctuation_kind. intros H.
  repeat match type of H with
         | (if (?c =? ?k)%string then _ else _) = _ =>
             destruct (String.eqb_spec c k) as [E|_];
             [ injection H as <-;
               enter_turn E;
               unfold addToken, push; simpl; rewrite lexeme_one, E;
               reflexivity
             | ]
         end.
  discriminate H.
Qed.

(** [!], [=], [<] and [>] take a [=] that follows them along: then the token
    is the two-character kind with a lexeme of two characters, otherwise the
    one-character kind. *)
Theorem operator_turn (fuel : nat) (t : Tokenizer) (K1 K2 : TokenADT) :
  operator_kinds (charAt source (this_current t)) = Some (K1, K2) ->
  turn source fuel t
  = Some
      (if (charAt source (S (this_current t)) =? "=")%string
       then mkTokenizer
              (this_tokens t
               ++ [mkToken K2 (charAt source (this_current t) ++ "=")
                     (this_line t)])
              (this_current t) (S (S (this_current t))) (this_line t)
              (console_error t)
       else mkTokenizer
              (this_tokens t
               ++ [mkToken K1 (charAt source (this_current t)) (this_line t)])
              (this_current t) (S (this_current t)) (this_line t)
              (console_error t)).
Proof.
  unfold operator_kinds. intros H.
  repeat match type of H with
         | (if (?c =? ?k)%string then _ else _) = _ =>
             destruct (String.eqb_spec c k) as [E|_];
             [ injection H as <- <-;
               enter_turn E;
               rewrite match_eq by discriminate; simpl this_current;
               destruct (String.eqb_spec (charAt source (S (this_current t)))
                           "=") as [N|N];
               unfold addToken, push; simpl;
               [ rewrite lexeme_two, E, N | rewrite lexeme_one, E ];
               reflexivity
             | ]
         end.
  discriminate H.
Qed.

(** White space moves the cursor by one and nothing else; only the line
    feed advances the line counter, a carriage return does not. *)
Theorem blank_turn (fuel : nat) (t : Tokenizer) :
  charAt source (this_current t) = " "
  \/ charAt source (this_current t) = CR
  \/ charAt source (this_current t) = TAB
  \/ charAt source (this_current t) = LF ->
  turn source fuel t
  = Some (mkTokenizer (this_tokens t) (this_current t) (S (this_current t))
            (if (charAt source (this_current t) =? LF)%string
             then S (this_line t) else this_line t)
            (console_error t)).
Proof.
  intros [E|[E|[E|E]]]; unfold turn, scanToken; rewrite turn_advance;
    cbv beta iota zeta; rewrite E; reflexivity.
Qed.

(** A character that no case of [scanToken] knows is consumed alone, gives
    no token and one message that names it. *)
Theorem unrecognized_turn (fuel : nat) (t : Tokenizer) :
  this_current t < String.length source ->
  recognized (charAt source (this_current t)) = false ->
  turn source fuel t
  = Some (mkTokenizer (this_tokens t) (this_current t) (S (this_current t))
            (this_line t)
            (console_error t
             ++ [unexpected (charAt source (this_current t))])).
Proof.
  intros Hlt H. unfold recognized, existsb in H.
  repeat match type of H with
         | (_ || _)%bool = false => apply orb_false_elim in H as [? H]
         end.
  unfold turn, scanToken. rewrite turn_advance. cbv beta iota zeta.
  repeat match goal with
         | E : (_ =? _)%string = false |- _ => rewrite E; clear E
         end.
  reflexivity.
Qed.

(** *** Line comments *)

Lemma comment_loop_stop (fuel : nat) (t : Tokenizer) :
  this_current t <= String.length source -> String.length source < fuel ->
  exists t',
    while_ fuel
      (fun t => negb (peek source t =? LF)%string && negb (reachedEOF source t))
      (step source) t = Some t'
    /\ within0 source t t'
    /\ (this_current t' = String.length source
        \/ charAt source (this_current t') = LF).
Proof.
  intros Hle Hfuel.
  destruct (while_rule (within0 source t)
              (fun s => String.length source - this_current s)
              (fun t => negb (peek source t =? LF)%string
                        && negb (reachedEOF source t))
              (step source)) with (fuel := fuel) (s := t)
    as (t' & E & W & Hc); [ | now apply within0_refl | lia | ].
  - intros s W Hc. apply andb_prop in Hc as [H1 H2].
    rewrite peek_eq in H1. rewrite reachedEOF_leb in H2.
    apply negb_true_iff in H1, H2.
    apply String.eqb_neq in H1. apply Nat.leb_gt in H2.
    exists (snd (advance source 1 s)). split; [reflexivity|]. split.
    + eapply within0_trans; [eassumption | now apply within_advance1].
    + rewrite advance1_eq. simpl. lia.
  - exists t'. split; [assumption|]. split; [assumption|].
    apply andb_false_iff in Hc as [Hc|Hc]; apply negb_false_iff in Hc.
    + right. rewrite peek_eq in Hc. now apply String.eqb_eq.
    + left. rewrite reachedEOF_leb in Hc. apply Nat.leb_le in Hc.
      destruct W as [[] _]. lia.
Qed.

(** Two [-] in a row open a line comment: the turn stops at the next line
    terminator, which it leaves in place, or at the end of the source, and
    changes nothing but the cursor.  A [-] alone is the [minus] token. *)
Theorem minus_turn (extra : nat) (t : Tokenizer) :
  charAt source (this_current t) = "-" ->
  if (charAt source (S (this_current t)) =? "-")%string
  then exists r,
      turn source (S (String.length source + extra)) t = Some r
      /\ this_tokens r = this_tokens t
      /\ console_error r = console_error t
      /\ this_line r = this_line t
      /\ S (S (this_current t)) <= this_current r
      /\ count_nl (slice source (this_current t) (this_current r)) = 0
      /\ (this_current r = String.length source
          \/ charAt source (this_current r) = LF)
  else turn source (S (String.length source + extra)) t
       = Some (mkTokenizer
                 (this_tokens t ++ [mkToken T_minus "-" (this_line t)])
                 (this_current t) (S (this_current t)) (this_line t)
                 (console_error t)).
Proof.
  intros E.
  set (fuel := S (String.length source + extra)).
  assert (Hfuel : String.length source < fuel) by (unfold fuel; lia).
  clearbody fuel.
  assert (Hlt : this_current t < String.length source)
    by (apply charAt_inside; rewrite E; discriminate).
  destruct (String.eqb_spec (charAt source (S (this_current t))) "-")
    as [N|N].
  - assert (Hlt2 : S (this_current t) < String.length source)
      by (apply charAt_inside; rewrite N; discriminate).
    enter_turn E. rewrite match_eq by discriminate. simpl this_current.
    rewrite N. unfold set_current. simpl.
    destruct (comment_loop_stop fuel
                (mkTokenizer (this_tokens t) (this_current t)
                   (S (S (this_current t))) (this_line t) (console_error t)))
      as (r & -> & [[Wt Ws Wc Wlo Whi Wl] Wline] & Hstop);
      [simpl; lia | assumption | ].
    simpl in *. exists r. split; [reflexivity|].
    repeat split; try assumption.
    rewrite (slice_app source _ (S (S (this_current t)))) by lia.
    rewrite lexeme_two, E, N, count_nl_app. simpl. lia.
  - enter_turn E. rewrite match_eq by discriminate. simpl this_current.
    apply String.eqb_neq in N. rewrite N.
    unfold addToken, push; simpl. now rewrite lexeme_one, E.
Qed.

(** *** String literals *)

Lemma string_loop_first_quote (fuel : nat) (t : Tokenizer) :
  this_current t <= String.length source -> String.length source < fuel ->
  exists t',
    while_ fuel
      (fun t => negb (peek source t =? DQUOTE)%string
                && negb (reachedEOF source t))
      (fun t => step source
                  (if (peek source t =? LF)%string then incr_line t else t))
      t = Some t'
    /\ within source t t'
    /\ (String.length source <= this_current t'
        \/ charAt source (this_current t') = DQUOTE)
    /\ forall i, this_current t <= i -> i < this_current t' ->
                 charAt source i <> DQUOTE.
Proof.
  intros Hle Hfuel.
  destruct (while_rule
              (fun s => within source t s
                        /\ forall i, this_current t <= i ->
                                     i < this_current s ->
                                     charAt source i <> DQUOTE)
              (fun s => String.length source - this_current s)
              (fun t => negb (peek source t =? DQUOTE)%string
                        && negb (reachedEOF source t))
              (fun t => step source
                  (if (peek source t =? LF)%string then incr_line t else t)))
    with (fuel := fuel) (s := t)
    as (t' & E & [W Hq] & Hc); [ | | lia | ].
  - intros s [W Hq] Hc. apply andb_prop in Hc as [H1 H2].
    rewrite reachedEOF_leb in H2. apply negb_true_iff in H2.
    apply Nat.leb_gt in H2. rewrite peek_eq in *.
    apply negb_true_iff, String.eqb_neq in H1.
    assert (Hq' : forall i, this_current t <= i -> i < S (this_current s) ->
                            charAt source i <> DQUOTE).
    { intros i Hi1 Hi2.
      destruct (Nat.eq_dec i (this_current s)) as [->|Hne];
        [assumption | apply Hq; lia]. }
    destruct (String.eqb_spec (charAt source (this_current s)) LF) as [N|N].
    + exists (snd (advance source 1 (incr_line s))). split; [reflexivity|].
      split; [split|].
      * eapply within_trans; [eassumption | now apply within_newline].
      * rewrite advance1_eq. simpl. exact Hq'.
      * rewrite advance1_eq. simpl. lia.
    + exists (snd (advance source 1 s)). split; [reflexivity|].
      split; [split|].
      * eapply within_trans; [eassumption | now apply within_advance1].
      * rewrite advance1_eq. simpl. exact Hq'.
      * rewrite advance1_eq. simpl. lia.
  - split; [now apply within_refl | intros i H1 H2; lia].
  - exists t'. split; [assumption|]. split; [assumption|].
    split; [|assumption].
    apply andb_false_iff in Hc as [Hc|Hc]; apply negb_false_iff in Hc.
    + right. rewrite peek_eq in Hc. now apply String.eqb_eq.
    + left. rewrite reachedEOF_leb in Hc. now apply Nat.leb_le.
Qed.

(** A string literal runs from its opening quote to the first double quote
    after it, at index [j]: the token's [literal] is the text between the
    two, its lexeme has both quotes, and the line counter has advanced by
    the line terminators of the literal, which the token's [line] includes. *)
Theorem string_turn (extra : nat) (t : Tokenizer) (j : nat) :
  charAt source (this_current t) = DQUOTE ->
  this_current t < j ->
  charAt source j = DQUOTE ->
  includes (slice source (S (this_current t)) j) DQUOTE = false ->
  let literal := slice source (S (this_current t)) j in
  let line' := this_line t + count_nl literal in
  turn source (S (String.length source + extra)) t
  = Some (mkTokenizer
            (this_tokens t
             ++ [mkToken (T_string literal)
                   (DQUOTE ++ literal ++ DQUOTE) line'])
            (this_current t) (S j) line' (console_error t)).
Proof.
  intros E Hj Ej Hno literal line'.
  set (fuel := S (String.length source + extra)).
  assert (Hfuel : String.length source < fuel) by (unfold fuel; lia).
  clearbody fuel.
  assert (Hlt : this_current t < String.length source)
    by (apply charAt_inside; rewrite E; discriminate).
  assert (Hjlt : j < String.length source)
    by (apply charAt_inside; rewrite Ej; discriminate).
  enter_turn E. unfold string_.
  destruct (string_loop_first_quote fuel
              (mkTokenizer (this_tokens t) (this_current t)
                 (S (this_current t)) (this_line t) (console_error t)))
    as (t2 & -> & [Wt Ws Wc Wlo Whi Wl] & Hend & Hq);
    [simpl; lia | assumption | ].
  simpl in *.
  assert (Hcur : this_current t2 = j).
  { destruct (Nat.lt_trichotomy (this_current t2) j) as [H|[H|H]];
      [ | assumption | ].
    - destruct Hend as [Hend|Hend]; [lia|].
      rewrite (includes_slice source DQUOTE _ (this_current t2)) in Hno;
        [discriminate | lia | lia | assumption].
    - destruct (Hq j); [lia | lia | assumption]. }
  rewrite reachedEOF_leb.
  destruct (Nat.leb_spec (String.length source) (this_current t2)); [lia|].
  unfold addToken, push. simpl.
  rewrite Wt, Ws, Wc, Wl, Hcur, Nat.add_sub, !Nat.add_1_r.
  fold literal. fold line'.
  rewrite (slice_app source _ (S (this_current t)) (S j)) by lia.
  rewrite lexeme_one, E, slice_snoc, Ej by lia. fold literal.
  reflexivity.
Qed.

(** *** Progress *)

(** Every turn inside the source returns: it moves the cursor forward by at
    least one character and never past the end, keeps the tokens and the
    messages it found and adds at most one token, and never lowers the line
    counter. *)
Theorem turn_progress (extra : nat) (t : Tokenizer) :
  this_current t < String.length source ->
  exists r new errs,
    turn source (S (String.length source + extra)) t = Some r
    /\ this_current t < this_current r
    /\ this_current r <= String.length source
    /\ this_tokens r = (this_tokens t ++ new)%list
    /\ List.length new <= 1
    /\ console_error r = (console_error t ++ errs)%list
    /\ this_line t <= this_line r.
Proof.
  intros Hlt.
  destruct (scanToken_spec source (S (String.length source + extra))
              (set_start (this_current t) t))
    as (r & sp & E & P); [reflexivity | exact Hlt | lia | ].
  destruct P as [Ptok Plo Phi _ Pline _ _ _ [errs Pcon]]. simpl in *.
  exists r, (span_tokens sp), errs. unfold turn.
  repeat split; try assumption; try lia.
  destruct sp; simpl; lia.
Qed.

End Source.

Lemma punctuation_turn_witness :
  turn "(1)" 0 (mkTokenizer [] 0 0 0 [])
  = Some (mkTokenizer [mkToken T_leftParen "(" 0] 0 1 0 []).
Proof.
  apply (punctuation_turn "(1)" 0 (mkTokenizer [] 0 0 0 []) T_leftParen).
  reflexivity.
Defined.

Lemma operator_turn_witness :
  turn "a<=b" 0 (mkTokenizer [] 0 1 0 [unexpected "a"])
  = Some (mkTokenizer [mkToken T_lessEqual "<=" 0] 1 3 0 [unexpected "a"]).
Proof.
  apply (operator_turn "a<=b" 0 (mkTokenizer [] 0 1 0 [unexpected "a"])
           T_less T_lessEqual).
  reflexivity.
Defined.

Lemma blank_turn_witness :
  turn ("a" ++ CR ++ LF) 0 (mkTokenizer [] 0 1 0 [])
  = Some (mkTokenizer [] 1 2 0 []).
Proof.
  apply (blank_turn ("a" ++ CR ++ LF) 0 (mkTokenizer [] 0 1 0 [])).
  right. left. reflexivity.
Defined.

Lemma unrecognized_turn_witness :
  turn "a<=b" 0 (mkTokenizer [] 0 0 0 [])
  = Some (mkTokenizer [] 0 1 0 [unexpected "a"]).
Proof.
  apply (unrecognized_turn "a<=b" 0 (mkTokenizer [] 0 0 0 []));
    [simpl; lia | reflexivity].
Defined.

Lemma minus_turn_witness :
  exists r,
    turn ("1 -- one" ++ LF ++ "2") 12 (mkTokenizer [] 1 2 0 []) = Some r
    /\ this_tokens r = []
    /\ console_error r = []
    /\ this_line r = 0
    /\ 4 <= this_current r
    /\ count_nl (slice ("1 -- one" ++ LF ++ "2") 2 (this_current r)) = 0
    /\ (this_current r = 10
        \/ charAt ("1 -- one" ++ LF ++ "2") (this_current r) = LF).
Proof.
  apply (minus_turn ("1 -- one" ++ LF ++ "2") 1 (mkTokenizer [] 1 2 0 [])).
  reflexivity.
Defined.

Lemma string_turn_witness :
  turn ("x" ++ DQUOTE ++ "a" ++ LF ++ "b" ++ DQUOTE) 7
    (mkTokenizer [] 0 1 0 [])
  = Some (mkTokenizer
            [mkToken (T_string ("a" ++ LF ++ "b"))
               (DQUOTE ++ "a" ++ LF ++ "b" ++ DQUOTE) 1]
            1 6 1 []).
Proof.
  apply (string_turn ("x" ++ DQUOTE ++ "a" ++ LF ++ "b" ++ DQUOTE) 0
           (mkTokenizer [] 0 1 0 []) 5);
    [reflexivity | simpl; lia | reflexivity | reflexivity].
Defined.

Lemma turn_progress_witness :
  exists r new errs,
    turn "a<=b" 5 (mkTokenizer [] 0 1 0 [unexpected "a"]) = Some r
    /\ 1 < this_current r
    /\ this_current r <= 4
    /\ this_tokens r = new
    /\ List.length new <= 1
    /\ console_error r = (unexpected "a" :: errs)
    /\ 0 <= this_line r.
Proof.
  apply (turn_progress "a<=b" 0 (mkTokenizer [] 0 1 0 [unexpected "a"])).
  simpl. lia.
Defined.

End FineTurns.

(** ** [Number] on the lexemes of [src/Tokenizer.ts] *)

Module NumberFacts.
Import JS Fine Shapes.

Local Ltac each_ascii c :=
  destruct c as [[] [] [] [] [] [] [] []].

Lemma all_in_app (cls : ascii -> bool) (a b : string) :
  all_in cls (a ++ b) = all_in cls a && all_in cls b.
Proof.
  induction a as [|c a IH]; simpl; [reflexivity|].
  now rewrite IH, andb_assoc.
Qed.

Lemma marker_e (e : string) : marker "e" e -> e = "e" \/ e = "E".
Proof.
  intros [Hl He]. destruct (length_one e Hl) as [c ->].
  each_ascii c; vm_compute in He; try discriminate He; auto.
Qed.

Lemma marker_b (m : string) : marker "b" m -> m = "b" \/ m = "B".
Proof.
  intros [Hl He]. destruct (length_one m Hl) as [c ->].
  each_ascii c; vm_compute in He; try discriminate He; auto.
Qed.

Lemma digit_no_marker (c : ascii) :
  class_0_9 c = true -> radixOfMarker c = None.
Proof. each_ascii c; intros H; try discriminate H; reflexivity. Qed.

Lemma spanDigits_app (ds rest : string) :
  all_in class_0_9 ds = true -> starts_with_digit rest = false ->
  spanDigits (ds ++ rest) = (ds, rest).
Proof.
  intros Hd Hr. induction ds as [|c ds IH]; simpl in *.
  - destruct rest as [|c r]; [reflexivity|]. simpl in *. now rewrite Hr.
  - apply andb_prop in Hd as [Hc Hd]. rewrite Hc, (IH Hd). reflexivity.
Qed.

Lemma digitValue_digit (c : ascii) :
  class_0_9 c = true ->
  exists d, digitValue c = Some d /\ (0 <= d < 10)%Z.
Proof.
  intros H. unfold digitValue. unfold class_0_9 in H. rewrite H.
  eexists. split; [reflexivity|].
  unfold inRange in H. apply andb_prop in H as [H1 H2].
  apply Nat.leb_le in H1, H2. lia.
Qed.

Lemma digitValue_bit (c : ascii) :
  class_0_1 c = true ->
  exists d, digitValue c = Some d /\ (0 <= d < 2)%Z.
Proof.
  intros H. unfold class_0_1, inRange in H. apply andb_prop in H as [H1 H2].
  apply Nat.leb_le in H1, H2. unfold digitValue, inRange.
  replace (48 <=? nat_of_ascii c) with true by (symmetry; apply Nat.leb_le; lia).
  replace (nat_of_ascii c <=? 57) with true by (symmetry; apply Nat.leb_le; lia).
  eexists. split; [reflexivity | lia].
Qed.

Lemma digitsValue_digits (s : string) :
  all_in class_0_9 s = true ->
  forall acc, exists v, digitsValue 10 s acc = Some v.
Proof.
  induction s as [|c s IH]; intros H acc; simpl in *; [eauto|].
  apply andb_prop in H as [Hc Hs].
  destruct (digitValue_digit c Hc) as (d & -> & Hd).
  replace (d <? 10)%Z with true by (symmetry; apply Z.ltb_lt; lia).
  apply IH, Hs.
Qed.

Lemma digitsValue_bits (s : string) :
  all_in class_0_1 s = true ->
  forall acc, exists v, digitsValue 2 s acc = Some v.
Proof.
  induction s as [|c s IH]; intros H acc; simpl in *; [eauto|].
  apply andb_prop in H as [Hc Hs].
  destruct (digitValue_bit c Hc) as (d & -> & Hd).
  replace (d <? 2)%Z with true by (symmetry; apply Z.ltb_lt; lia).
  apply IH, Hs.
Qed.

Lemma radixInteger_digits (s : string) :
  digits1 s -> exists v, radixInteger 10 s = Some v.
Proof.
  intros [Hne H]. destruct s as [|c s]; [congruence|].
  apply (digitsValue_digits _ H).
Qed.

Lemma exponentPart_exponent (ex : string) :
  exponent ex -> exists v, exponentPart ex = Some v.
Proof.
  intros [e ed He Hd|e ed He Hd].
  - destruct (radixInteger_digits ed Hd) as [v Hv].
    destruct Hd as [Hne Hall].
    destruct ed as [|d r]; [congruence|]. simpl in Hall.
    apply andb_prop in Hall as [Hdig _].
    destruct (marker_e e He) as [-> | ->]; exists v; simpl;
      each_ascii d; try discriminate Hdig; exact Hv.
  - destruct (radixInteger_digits ed Hd) as [v Hv].
    destruct (marker_e e He) as [-> | ->]; exists (- v)%Z; simpl;
      now rewrite Hv.
Qed.

Lemma exponent_starts (ex : string) :
  exponent ex -> starts_with_digit ex = false /\ ex <> ""
                 /\ (forall r, ex <> "." ++ r).
Proof.
  intros [e ed He Hd|e ed He Hd];
    destruct (marker_e e He) as [-> | ->]; simpl;
    repeat split; intros; discriminate.
Qed.

(** A decimal literal in the shape that [number] reads has a value. *)
Lemma decimalLiteral_shape (ip fr ex : string) :
  digits1 ip -> fraction fr -> ex = "" \/ exponent ex ->
  exists q, decimalLiteral (ip ++ fr ++ ex) = Real q.
Proof.
  intros [Hne Hip] Hfr Hex. unfold decimalLiteral.
  assert (Hv : exists v, exponentPart ex = Some v).
  { destruct Hex as [->|Hex]; [now exists 0%Z|].
    now apply exponentPart_exponent. }
  destruct Hv as [v Hv].
  assert (Hst : starts_with_digit ex = false).
  { destruct Hex as [->|Hex]; [reflexivity | apply (exponent_starts ex Hex)]. }
  destruct Hfr as [|fd [Hfne Hfd]].
  - rewrite spanDigits_app by assumption. simpl.
    assert (Hr : match ex with
                 | String "."%char r => spanDigits r
                 | _ => (EmptyString, ex)
                 end = (EmptyString, ex)).
    { destruct Hex as [->|Hex]; [reflexivity|].
      destruct Hex as [e ed He Hd|e ed He Hd];
        destruct (marker_e e He) as [-> | ->]; reflexivity. }
    rewrite Hr. destruct ip as [|c ip]; [congruence|].
    rewrite append_nil_r.
    destruct (digitsValue_digits _ Hip 0%Z) as [m ->]. rewrite Hv.
    eauto.
  - rewrite spanDigits_app by (assumption || reflexivity).
    change (("." ++ fd) ++ ex) with (String "."%char (fd ++ ex)).
    cbv iota. rewrite spanDigits_app by assumption.
    destruct ip as [|c ip]; [congruence|].
    assert (Hall : all_in class_0_9 (String c ip ++ fd) = true)
      by (rewrite all_in_app, Hip, Hfd; reflexivity).
    destruct (digitsValue_digits _ Hall 0%Z) as [m ->]. rewrite Hv.
    eauto.
Qed.

Lemma literalValue_decimal (s : string) :
  s <> "" ->
  (forall c m r, s = String c (String m r) -> radixOfMarker m = None) ->
  literalValue s = decimalLiteral s.
Proof.
  intros Hne H. destruct s as [|c [|m r]]; [congruence | | ].
  - each_ascii c; reflexivity.
  - specialize (H c m r eq_refl).
    each_ascii c; try reflexivity. simpl. now rewrite H.
Qed.

Lemma second_char_no_marker (ip fr ex : string) (c m : ascii) (r : string) :
  digits1 ip -> fraction fr -> ex = "" \/ exponent ex ->
  ip ++ fr ++ ex = String c (String m r) ->
  radixOfMarker m = None.
Proof.
  intros [Hne Hip] Hfr Hex E.
  destruct ip as [|c0 [|c1 ip]]; [congruence| |].
  - simpl in E. injection E as _ E.
    destruct Hfr as [|fd _]; [|injection E as <- _; reflexivity].
    destruct Hex as [->|Hex]; [discriminate|].
    destruct Hex as [e ed He Hd|e ed He Hd];
      destruct (marker_e e He) as [-> | ->];
      injection E as <- _; reflexivity.
  - simpl in E, Hip. injection E as _ <- _.
    apply andb_prop in Hip as [_ Hip]. apply andb_prop in Hip as [Hc _].
    now apply digit_no_marker.
Qed.

(** Every lexeme of these shapes is a numeric literal. *)
Lemma literalValue_shape (kind : NumberKind) (s : string) :
  number_shape kind s -> exists q, literalValue s = Real q.
Proof.
  intros [ip fr Hip Hfr|ip fr ex Hip Hfr Hex|m bits Hm Hb|].
  - rewrite <- (append_nil_r fr).
    rewrite literalValue_decimal.
    + apply decimalLiteral_shape; auto.
    + destruct Hip as [Hne _]. destruct ip; [congruence | discriminate].
    + intros c m r E.
      apply (second_char_no_marker ip fr "" c m r); auto.
  - rewrite literalValue_decimal.
    + apply decimalLiteral_shape; auto.
    + destruct Hip as [Hne _]. destruct ip; [congruence | discriminate].
    + intros c m r E.
      apply (second_char_no_marker ip fr ex c m r); auto.
  - destruct Hb as [Hne Hb]. destruct bits as [|b bits]; [congruence|].
    destruct (digitsValue_bits _ Hb 0%Z) as [v Hv].
    exists (inject_Z v).
    destruct (marker_b m Hm) as [-> | ->]; simpl; simpl in Hv;
      now rewrite Hv.
  - now exists 0%Q.
Qed.

(** Rounding to a double keeps a value a number. *)
Lemma roundToDouble_value (q : Q) : roundToDouble (Real q) <> NaN.
Proof.
  unfold roundToDouble, nearestDouble.
  destruct (Qnum q); try discriminate.
  repeat match goal with
         | |- context [if ?b then _ else _] => destruct b
         end; discriminate.
Qed.

(** [Number] is not [NaN] on a lexeme of these shapes. *)
Lemma Number_shape (kind : NumberKind) (s : string) :
  number_shape kind s -> Number s <> NaN.
Proof.
  intros H. destruct (literalValue_shape kind s H) as [q Hq].
  unfold Number. rewrite Hq. apply roundToDouble_value.
Qed.

(** *** The kind that [number] reads off the lexeme *)

Lemma toLowerCase_app (a b : string) :
  toLowerCase (a ++ b) = toLowerCase a ++ toLowerCase b.
Proof. induction a as [|c a IH]; simpl; [reflexivity | now rewrite IH]. Qed.

Lemma includes_cons (c d : ascii) (r : string) :
  includes (String d r) (String c "")
  = (if ascii_dec c d then true else false) || includes r (String c "").
Proof.
  simpl. destruct (ascii_dec c d); [|reflexivity]. now destruct r.
Qed.

Lemma includes_app_one (a b : string) (c : ascii) :
  includes (a ++ b) (String c "")
  = includes a (String c "") || includes b (String c "").
Proof.
  induction a as [|d a IH].
  - reflexivity.
  - change (String d a ++ b) with (String d (a ++ b)).
    now rewrite !includes_cons, IH, orb_assoc.
Qed.

Lemma has_e_app (a b : string) : has_e (a ++ b) = has_e a || has_e b.
Proof. unfold has_e. now rewrite toLowerCase_app, includes_app_one. Qed.

Lemma has_e_digits (s : string) : all_in class_0_9 s = true -> has_e s = false.
Proof.
  induction s as [|c s IH]; intros H; [reflexivity|].
  simpl in H. apply andb_prop in H as [Hc Hs].
  change (String c s) with (String c "" ++ s).
  rewrite has_e_app, (IH Hs), orb_false_r.
  each_ascii c; try discriminate Hc; reflexivity.
Qed.

Lemma has_e_fraction (fr : string) : fraction fr -> has_e fr = false.
Proof.
  intros [|fd [_ Hfd]]; [reflexivity|].
  now rewrite has_e_app, (has_e_digits fd Hfd).
Qed.

Lemma has_e_exponent (ex : string) : exponent ex -> has_e ex = true.
Proof.
  intros [e ed He Hd|e ed He Hd];
    destruct (marker_e e He) as [-> | ->]; rewrite has_e_app; reflexivity.
Qed.

(** The shape and the kind of what [number] has read. *)
Lemma decimal_or_exponential (ip fr ex : string) :
  digits1 ip -> fraction fr -> ex = "" \/ exponent ex ->
  number_shape
    (if includes (toLowerCase (ip ++ fr ++ ex)) "e"
     then exponential else decimal)
    (ip ++ fr ++ ex).
Proof.
  intros Hip Hfr Hex. fold (has_e (ip ++ fr ++ ex)).
  rewrite !has_e_app, (has_e_digits ip (proj2 Hip)), (has_e_fraction fr Hfr).
  destruct Hex as [->|Hex]; simpl.
  - rewrite append_nil_r. now constructor.
  - rewrite (has_e_exponent ex Hex). now constructor.
Qed.

End NumberFacts.

(** ** Numbers in [src/Tokenizer.ts] *)

Module NumberTurn.
Import JS Fine Spans Shapes FineFacts FineTurns NumberFacts.

Local Ltac each_ascii c :=
  destruct c as [[] [] [] [] [] [] [] []].

Lemma isDigit_one (x : string) :
  String.length x = 1 -> isDigit x = all_in class_0_9 x.
Proof.
  intros H. destruct (length_one x H) as [c ->]. unfold isDigit. simpl.
  now rewrite orb_false_r, andb_true_r.
Qed.

Lemma isBinaryDigit_one (x : string) :
  String.length x = 1 -> isBinaryDigit x = all_in class_0_1 x.
Proof.
  intros H. destruct (length_one x H) as [c ->].
  each_ascii c; reflexivity.
Qed.

Lemma digit_cases (x : string) :
  isDigit x = true -> String.length x = 1 ->
  x = "0" \/ x = "1" \/ x = "2" \/ x = "3" \/ x = "4" \/ x = "5" \/ x = "6"
  \/ x = "7" \/ x = "8" \/ x = "9".
Proof.
  intros H Hl. destruct (length_one x Hl) as [c ->].
  each_ascii c; try discriminate H; tauto.
Qed.

Section Source.

Variable source : string.
Variable fuel : nat.
Hypothesis Hfuel : String.length source < fuel.

(** A loop that advances while the next character is in a class reads a
    run of the class and stops in front of a character outside it. *)
Lemma class_run (p : string -> bool) (cls : ascii -> bool) (t : Tokenizer) :
  (forall x, String.length x = 1 -> p x = all_in cls x) ->
  p "" = false -> p LF = false ->
  this_current t <= String.length source ->
  exists t',
    while_ fuel (fun t => p (peek source t)) (step source) t = Some t'
    /\ within0 source t t'
    /\ all_in cls (slice source (this_current t) (this_current t')) = true
    /\ p (peek source t') = false.
Proof.
  intros Hp Pe Pn Hle.
  destruct (while_rule
              (fun s => within0 source t s
                        /\ all_in cls (slice source (this_current t)
                                         (this_current s)) = true)
              (fun s => String.length source - this_current s)
              (fun t => p (peek source t)) (step source))
    with (fuel := fuel) (s := t) as (t' & E & [W A] & Hc); [ | | lia | eauto ].
  - intros s [W A] Hc. rewrite peek_eq in Hc.
    assert (Hne : charAt source (this_current s) <> "") by congruence.
    assert (Hnl : charAt source (this_current s) <> LF) by congruence.
    apply charAt_inside in Hne.
    exists (snd (advance source 1 s)). split; [reflexivity|]. split; [split|].
    + eapply within0_trans; [eassumption | now apply within_advance1].
    + rewrite advance1_eq. simpl.
      rewrite slice_snoc by apply W. rewrite all_in_app, A.
      rewrite <- Hp by now apply charAt_length. exact Hc.
    + rewrite advance1_eq. simpl. lia.
  - split; [now apply within0_refl | now rewrite slice_same].
Qed.

Lemma digit_run (t : Tokenizer) :
  this_current t <= String.length source ->
  exists t',
    while_ fuel (fun t => isDigit (peek source t)) (step source) t = Some t'
    /\ within0 source t t'
    /\ all_in class_0_9 (slice source (this_current t) (this_current t'))
       = true
    /\ isDigit (peek source t') = false.
Proof. apply class_run; auto using isDigit_one. Qed.

(** The run that follows a character which is itself in the class has it. *)
Lemma run_after (p : string -> bool) (cls : ascii -> bool)
    (t : Tokenizer) (n : nat) :
  (forall x, String.length x = 1 -> p x = all_in cls x) ->
  p "" = false -> p LF = false ->
  this_current t + n <= String.length source ->
  0 < n ->
  count_nl (slice source (this_current t) (this_current t + n)) = 0 ->
  p (charAt source (this_current t + n)) = true ->
  exists t',
    while_ fuel (fun t => p (peek source t)) (step source)
      (snd (advance source n t)) = Some t'
    /\ within0 source t t'
    /\ this_current t + n < this_current t'
    /\ slice source (this_current t) (this_current t')
       = slice source (this_current t) (this_current t + n)
         ++ slice source (this_current t + n) (this_current t')
    /\ all_in cls (slice source (this_current t + n) (this_current t')) = true
    /\ p (peek source t') = false.
Proof.
  intros Hp Pe Pn Hle Hn Hc Hd.
  destruct (class_run p cls (snd (advance source n t)) Hp Pe Pn)
    as (t' & E & W & A & Hstop); [simpl; lia | ].
  simpl in *. exists t'. split; [assumption|].
  assert (Hlo : this_current t + n <= this_current t') by apply W.
  split; [|split; [|split; [|split]]]; try assumption.
  - eapply within0_trans; [apply (within_advance source n t) | exact W];
      assumption.
  - destruct (Nat.eq_dec (this_current t') (this_current t + n)) as [Z|Z];
      [|lia].
    rewrite peek_eq, Z, Hd in Hstop. discriminate.
  - apply slice_app; lia.
Qed.

Lemma run_digits1 (cls : ascii -> bool) (a b : nat) :
  a < b -> b <= String.length source ->
  all_in cls (slice source a b) = true ->
  slice source a b <> "" /\ all_in cls (slice source a b) = true.
Proof.
  intros Hab Hb H. split; [|assumption].
  intros Z. apply (f_equal String.length) in Z.
  rewrite slice_length in Z by lia. simpl in Z. lia.
Qed.

Lemma one_char_no_nl (t : Tokenizer) (x : string) :
  charAt source (this_current t) = x -> x <> "" -> x <> LF ->
  this_current t + 1 <= String.length source
  /\ count_nl (slice source (this_current t) (this_current t + 1)) = 0
  /\ slice source (this_current t) (this_current t + 1) = x.
Proof.
  intros E Hne Hnl.
  assert (Hlt : this_current t < String.length source)
    by (apply charAt_inside; congruence).
  rewrite Nat.add_1_r, slice_one, E.
  split; [lia|]. split; [|reflexivity].
  rewrite count_nl_one by (rewrite <- E; now apply charAt_length).
  apply String.eqb_neq in Hnl. now rewrite Hnl.
Qed.

Lemma fraction_read (t : Tokenizer) :
  this_current t <= String.length source ->
  isDigit (peek source t) = false ->
  exists t',
    (if (peek source t =? ".")%string && isDigit (peekNext source 1 t)
     then while_ fuel (fun t => isDigit (peek source t)) (step source)
            (snd (advance source 1 t))
     else Some t) = Some t'
    /\ within0 source t t'
    /\ fraction (slice source (this_current t) (this_current t'))
    /\ isDigit (peek source t') = false.
Proof.
  intros Hle Hnd.
  destruct ((peek source t =? ".")%string && isDigit (peekNext source 1 t))
    eqn:C.
  - apply andb_prop in C as [C1 C2]. apply String.eqb_eq in C1.
    rewrite peek_eq in C1.
    destruct (isDigit_inside _ C2) as [C2ne _].
    destruct (peekNext_inside source 1 t C2ne) as (_ & Hin & Epn).
    rewrite Epn in C2.
    destruct (one_char_no_nl t "." C1) as (H1 & H2 & H3); try discriminate.
    destruct (run_after isDigit class_0_9 t 1) as (t' & E & W & Hl & Es & A & St);
      auto using isDigit_one; try lia.
    exists t'. split; [assumption|]. split; [assumption|]. split; [|assumption].
    rewrite Es, H3. constructor.
    apply run_digits1; [lia | apply W | assumption].
  - exists t. split; [reflexivity|]. split; [now apply within0_refl|].
    split; [|assumption]. rewrite slice_same. constructor.
Qed.

Lemma exponent_read (t : Tokenizer) :
  this_current t <= String.length source ->
  isDigit (peek source t) = false ->
  exists t',
    (if (toLowerCase (peek source t) =? "e")%string then
       if isDigit (peekNext source 1 t)
       then while_ fuel (fun t => isDigit (peek source t)) (step source)
              (snd (advance source 1 t))
       else if (peekNext source 1 t =? "-")%string
               && isDigit (peekNext source 2 t)
       then while_ fuel (fun t => isDigit (peek source t)) (step source)
              (snd (advance source 2 t))
       else Some t
     else Some t) = Some t'
    /\ within0 source t t'
    /\ (slice source (this_current t) (this_current t') = ""
        \/ exponent (slice source (this_current t) (this_current t')))
    /\ isDigit (peek source t') = false.
Proof.
  intros Hle Hnd.
  assert (Hstay : exists t',
             Some t = Some t' /\ within0 source t t'
             /\ (slice source (this_current t) (this_current t') = ""
                 \/ exponent (slice source (this_current t) (this_current t')))
             /\ isDigit (peek source t') = false).
  { exists t. split; [reflexivity|]. split; [now apply within0_refl|].
    split; [left; apply slice_same | assumption]. }
  destruct (String.eqb_spec (toLowerCase (peek source t)) "e") as [C|C];
    [|exact Hstay].
  rewrite peek_eq in C.
  destruct (lower_e_inside _ C) as [Cne Cnl].
  assert (Hm : marker "e" (charAt source (this_current t))).
  { split; [apply charAt_length; now apply charAt_inside | assumption]. }
  destruct (one_char_no_nl t _ eq_refl Cne Cnl) as (H1 & H2 & H3).
  destruct (isDigit (peekNext source 1 t)) eqn:D1.
  - destruct (isDigit_inside _ D1) as [Dne _].
    destruct (peekNext_inside source 1 t Dne) as (_ & Hin & Epn).
    rewrite Epn in D1.
    destruct (run_after isDigit class_0_9 t 1) as (t' & E & W & Hl & Es & A & St);
      auto using isDigit_one; try lia.
    exists t'. split; [assumption|]. split; [assumption|]. split; [|assumption].
    right. rewrite Es, H3. apply exponent_plain; [assumption|].
    apply run_digits1; [lia | apply W | assumption].
  - destruct ((peekNext source 1 t =? "-")%string
              && isDigit (peekNext source 2 t)) eqn:D2; [|exact Hstay].
    apply andb_prop in D2 as [M D]. apply String.eqb_eq in M.
    destruct (isDigit_inside _ D) as [Dne _].
    destruct (peekNext_inside source 2 t Dne) as (_ & Hin & Epn).
    rewrite Epn in D.
    assert (Mne : peekNext source 1 t <> "") by (rewrite M; discriminate).
    destruct (peekNext_inside source 1 t Mne) as (_ & _ & M1).
    rewrite M in M1.
    assert (Etwo : slice source (this_current t) (this_current t + 2)
                   = charAt source (this_current t) ++ "-").
    { replace (this_current t + 2) with (S (S (this_current t))) by lia.
      rewrite lexeme_two. f_equal.
      now replace (S (this_current t)) with (this_current t + 1) by lia. }
    destruct (run_after isDigit class_0_9 t 2) as (t' & E & W & Hl & Es & A & St);
      auto using isDigit_one; try lia.
    { rewrite Etwo, count_nl_app.
      rewrite count_nl_one by (apply charAt_length; lia).
      apply String.eqb_neq in Cnl. now rewrite Cnl. }
    exists t'. split; [assumption|]. split; [assumption|]. split; [|assumption].
    right. rewrite Es, Etwo, append_assoc.
    apply exponent_minus; [assumption|].
    apply run_digits1; [lia | apply W | assumption].
Qed.

Lemma number_reads (t : Tokenizer) :
  this_current t <= String.length source ->
  exists t' ds fr ex,
    number source fuel t
    = Some (addToken source
              (T_number
                 (Number (slice source (this_start t') (this_current t')))
                 (if includes
                       (toLowerCase
                          (slice source (this_start t') (this_current t')))
                       "e"
                  then exponential else decimal)) t')
    /\ within0 source t t'
    /\ slice source (this_current t) (this_current t') = ds ++ fr ++ ex
    /\ all_in class_0_9 ds = true
    /\ fraction fr
    /\ (ex = "" \/ exponent ex)
    /\ isDigit (peek source t') = false.
Proof.
  intros Hle. unfold number.
  destruct (digit_run t Hle) as (a & -> & Wa & Aa & Sa).
  destruct (fraction_read a) as (b & -> & Wb & Fb & Sb);
    [apply Wa | assumption | ].
  destruct (exponent_read b) as (c & -> & Wc & Ec & Sc);
    [apply Wb | assumption | ].
  exists c, (slice source (this_current t) (this_current a)),
    (slice source (this_current a) (this_current b)),
    (slice source (this_current b) (this_current c)).
  split; [reflexivity|].
  assert (Hab : this_current t <= this_current a) by apply Wa.
  assert (Hbc : this_current a <= this_current b) by apply Wb.
  assert (Hcd : this_current b <= this_current c) by apply Wc.
  split; [eauto using within0_trans|].
  split; [|auto].
  rewrite (slice_app source _ (this_current a) (this_current c)) by lia.
  now rewrite (slice_app source _ (this_current b) (this_current c)) by lia.
Qed.

Section Turn.

Variable t : Tokenizer.

Let t1 :=
  mkTokenizer (this_tokens t) (this_current t) (S (this_current t))
    (this_line t) (console_error t).

Lemma number_path :
  isDigit (charAt source (this_current t)) = true ->
  exists r literal kind,
    number source fuel t1 = Some r /\ number_read source t r literal kind.
Proof.
  intros Hd.
  destruct (isDigit_inside _ Hd) as [Hne Hnl].
  assert (Hlt : this_current t < String.length source)
    by now apply charAt_inside.
  destruct (number_reads t1) as (t' & ds & fr & ex & -> & W & Es & Ad & Fr & Ex & St);
    [simpl; lia | ].
  destruct W as [[Wt Ws Wc Wlo Whi Wl] Wline]. simpl in *.
  assert (EL : slice source (this_current t) (this_current t')
               = (charAt source (this_current t) ++ ds) ++ fr ++ ex).
  { rewrite (slice_app source _ (S (this_current t))) by lia.
    now rewrite lexeme_one, Es, append_assoc. }
  assert (Hip : digits1 (charAt source (this_current t) ++ ds)).
  { split.
    - intros Z. apply (f_equal String.length) in Z.
      rewrite append_length, charAt_length in Z by assumption.
      simpl in Z. lia.
    - rewrite all_in_app, Ad, <- isDigit_one, Hd by now apply charAt_length.
      reflexivity. }
  pose proof (decimal_or_exponential _ fr ex Hip Fr Ex) as Hshape.
  rewrite <- EL in Hshape.
  pose proof (Number_shape _ _ Hshape) as Hq.
  unfold addToken, push. rewrite Ws, Wt, Wline.
  eexists _, _, _. split; [reflexivity|].
  split; simpl; try reflexivity; try congruence; try lia.
  - intros _. split; [assumption|]. now rewrite <- peek_eq.
  - exists []. now rewrite app_nil_r.
Qed.

Lemma zero_path :
  charAt source (this_current t) = "0" ->
  exists r literal kind,
    leadingZeroNumber source fuel t1 = Some r
    /\ number_read source t r literal kind.
Proof.
  intros E0.
  assert (Hlt : this_current t < String.length source)
    by (apply charAt_inside; rewrite E0; discriminate).
  unfold leadingZeroNumber.
  destruct (String.eqb_spec (toLowerCase (peek source t1)) "b") as [C|C];
    [ | apply number_path; now rewrite E0 ].
  rewrite peek_eq in C. simpl in C.
  destruct (lower_b_inside _ C) as [Cne Cnl].
  assert (Hm : marker "b" (charAt source (S (this_current t)))).
  { split; [apply charAt_length; now apply charAt_inside | assumption]. }
  assert (Number_0 : Number "0" = Real 0) by reflexivity.
  destruct (isBinaryDigit (peekNext source 1 t1)) eqn:D.
  - destruct (isBinaryDigit_inside _ D) as [Dne _].
    destruct (peekNext_inside source 1 t1 Dne) as (_ & Hin & Epn).
    rewrite Epn in D.
    destruct (one_char_no_nl t1 _ eq_refl Cne Cnl) as (H1 & H2 & H3).
    destruct (run_after isBinaryDigit class_0_1 t1 1)
      as (t' & -> & W & Hl & Es & A & St);
      auto using isBinaryDigit_one; try lia.
    destruct W as [[Wt Ws Wc Wlo Whi Wl] Wline]. simpl in *.
    assert (EL : slice source (this_current t) (this_current t')
                 = "0" ++ charAt source (S (this_current t))
                   ++ slice source (S (this_current t) + 1) (this_current t')).
    { rewrite (slice_app source _ (S (this_current t))) by lia.
      now rewrite lexeme_one, E0, Es, H3. }
    assert (Hshape : number_shape binary
                       (slice source (this_current t) (this_current t'))).
    { rewrite EL. constructor; [assumption|].
      apply run_digits1; [lia | assumption | assumption]. }
    pose proof (Number_shape _ _ Hshape) as Hq.
    unfold addToken, push. rewrite Ws, Wt, Wline.
    eexists _, _, _. split; [reflexivity|].
    split; simpl; try reflexivity; try congruence; try lia.
    exists []. now rewrite app_nil_r.
  - unfold addToken, push, error. simpl.
    eexists _, _, _. split; [reflexivity|].
    split; simpl; rewrite ?lexeme_one, ?E0; try reflexivity;
      try congruence; try lia.
    + constructor.
    + eauto.
Qed.

End Turn.

End Source.

(** A turn that starts on a decimal digit adds one number token: its lexeme
    is the text from the old cursor to the new one and has the shape of its
    kind, its [literal] is the value of that lexeme, never [NaN], and a
    decimal or exponential number ends in front of a character that is no
    decimal digit. *)
Theorem number_turn (source : string) (extra : nat) (t : Tokenizer) :
  isDigit (charAt source (this_current t)) = true ->
  exists r literal kind,
    turn source (S (String.length source + extra)) t = Some r
    /\ number_read source t r literal kind.
Proof.
  intros Hd.
  set (fuel := S (String.length source + extra)).
  assert (Hfuel : String.length source < fuel) by (unfold fuel; lia).
  clearbody fuel.
  destruct (isDigit_inside _ Hd) as [Hne _].
  apply charAt_inside in Hne as Hlt.
  destruct (digit_cases _ Hd (charAt_length source _ Hlt))
    as [E|[E|[E|[E|[E|[E|[E|[E|[E|E]]]]]]]]];
    unfold turn, scanToken; rewrite turn_advance; cbv beta iota zeta;
    rewrite E; simpl String.eqb; cbn [orb]; cbv iota;
    [ apply zero_path; assumption | apply number_path; try assumption .. ];
    rewrite E; reflexivity.
Qed.

Lemma number_turn_witness :
  exists r literal kind,
    turn "x=1.5e-3;" 10 (mkTokenizer [] 1 2 0 []) = Some r
    /\ number_read "x=1.5e-3;" (mkTokenizer [] 1 2 0 []) r literal kind.
Proof.
  apply (number_turn "x=1.5e-3;" 0 (mkTokenizer [] 1 2 0 [])). reflexivity.
Defined.

(** *** Every number token of a scan *)

Lemma while_preserves {S A : Type} (f : S -> A) (cond : S -> bool)
    (body : S -> option S) :
  (forall s s', body s = Some s' -> f s' = f s) ->
  forall n s r, while_ n cond body s = Some r -> f r = f s.
Proof.
  intros Hb. induction n as [|n IH]; intros s r H; [discriminate|].
  simpl in H. destruct (cond s); [|now injection H as <-].
  destruct (body s) as [s'|] eqn:E; [|discriminate].
  rewrite (IH _ _ H). now apply Hb.
Qed.

Lemma step_tokens (source : string) (s s' : Tokenizer) :
  step source s = Some s' -> this_tokens s' = this_tokens s.
Proof. intros [= <-]. reflexivity. Qed.

(** A turn that does not start on a decimal digit adds no number token. *)
Lemma other_turn_no_number (source : string) (fuel : nat) (t r : Tokenizer) :
  turn source fuel t = Some r ->
  isDigit (charAt source (this_current t)) = false ->
  exists new,
    this_tokens r = (this_tokens t ++ new)%list
    /\ forall k, In k new -> is_number k = false.
Proof.
  intros H Hd. unfold turn, scanToken in H. rewrite turn_advance in H.
  cbv beta iota zeta in H.
  assert (Hnone : forall s, this_tokens s = this_tokens t ->
                            exists new,
                              this_tokens s = (this_tokens t ++ new)%list
                              /\ forall k, In k new -> is_number k = false).
  { intros s Hs. exists []. rewrite app_nil_r. split; [assumption|].
    intros k []. }
  assert (Hone : forall K s,
             this_tokens s = this_tokens t ->
             (forall l n, K <> T_number l n) ->
             exists new,
               this_tokens (addToken source K s) = (this_tokens t ++ new)%list
               /\ forall k, In k new -> is_number k = false).
  { intros K s Hs HK. eexists [_]. unfold addToken, push; simpl.
    rewrite Hs. split; [reflexivity|].
    intros k [<-|[]]. unfold is_number; simpl.
    destruct K; try reflexivity. destruct (HK literal kind eq_refl). }
  repeat match type of H with
    | (if ?b then _ else _) = _ =>
        match b with
        | context [(?c =? ?k)%string] =>
            destruct (String.eqb_spec c k) as [E|_]; cbn [orb] in H;
            [ try (rewrite E in Hd; discriminate Hd);
              try rewrite match_eq in H by discriminate;
              simpl this_current in H;
              try match type of H with
                  | context [if ?b' then (true, _) else (false, _)] =>
                      destruct b'; cbv beta iota in H
                  end;
              try (injection H as <-;
                   first [ apply Hone; [reflexivity | discriminate]
                         | apply Hnone; reflexivity ])
            | ]
        end
    end.
  - (* the line comment *)
    apply Hnone.
    apply (while_preserves this_tokens _ _ (step_tokens source)) in H.
    exact H.
  - (* the string literal *)
    unfold string_ in H.
    destruct (while_ fuel _ _ _) as [s|] eqn:W in H; [|discriminate].
    apply (while_preserves this_tokens) in W;
      [|intros s0 s0'; destruct (peek source s0 =? LF)%string;
        intros [= <-]; reflexivity].
    simpl in W.
    destruct (reachedEOF source s); injection H as <-.
    + apply Hnone. exact W.
    + apply Hone; [exact W | discriminate].
  - injection H as <-. apply Hnone. reflexivity.
Qed.

(** What holds before the loop of [scanTokens] and is kept by every turn
    holds when the loop ends. *)
Lemma loop_invariant (source : string) (fuel : nat)
    (I : Tokenizer -> Prop) :
  (forall s s', I s -> reachedEOF source s = false ->
                turn source fuel s = Some s' -> I s') ->
  forall n t r,
    while_ n (fun t => negb (reachedEOF source t)) (turn source fuel) t
    = Some r ->
    I t -> I r.
Proof.
  intros Hturn. induction n as [|n IH]; intros t r H HI; [discriminate|].
  simpl in H. destruct (reachedEOF source t) eqn:E; simpl in H.
  - now injection H as <-.
  - destruct (turn source fuel t) as [s'|] eqn:Et; [|discriminate].
    apply (IH s' r H). now apply (Hturn t s').
Qed.

(** Every number token that a scan returns has a lexeme of the shape of its
    kind and a [literal] that is the value of the lexeme, never [NaN]. *)
Theorem scan_numbers_have_values (source : string) (extra : nat) :
  exists toks,
    scanTokens source (S (String.length source + extra)) = Some toks
    /\ forall k, In k toks -> number_good k.
Proof.
  destruct (FineClaims.run_tiling source (S (String.length source + extra)))
    as (r & l & E & _); [lia|].
  exists (this_tokens r). unfold scanTokens. rewrite E.
  split; [reflexivity|].
  unfold scanTokens_run in E.
  destruct (while_ _ _ _ _) as [s|] eqn:W in E; [|discriminate].
  injection E as <-. simpl.
  assert (Hs : Forall number_good (this_tokens s)).
  { apply (loop_invariant source _ (fun s => Forall number_good (this_tokens s))
             ) in W; [assumption | | constructor].
    clear. intros s s' HI He Ht.
    destruct (isDigit (charAt source (this_current s))) eqn:Hd.
    - destruct (number_turn source extra s Hd) as (r & literal & kind & Er & R).
      rewrite Ht in Er. injection Er as <-.
      rewrite (nr_tokens _ _ _ _ _ R). apply Forall_app. split; [assumption|].
      constructor; [|constructor].
      intros literal' kind' [= <- <-]. simpl.
      split; [apply R | split; [apply R | apply R]].
    - destruct (other_turn_no_number source _ s s' Ht Hd) as (new & -> & Hnew).
      apply Forall_app. split; [assumption|].
      apply Forall_forall. intros k Hk literal kind Hty.
      apply Hnew in Hk. unfold is_number in Hk. rewrite Hty in Hk.
      discriminate. }
  intros k Hk. apply in_app_or in Hk as [Hk|[<-|[]]].
  - now apply (proj1 (Forall_forall _ _) Hs).
  - intros literal kind Hty. discriminate.
Qed.

End NumberTurn.

(** ** The scan follows the grammar *)

Module FineGrammar.
Import JS Fine Spans Shapes Grammar FineFacts FineString FineTurns NumberFacts
  NumberTurn.

(** *** The text after the cursor *)

Lemma charAt_app_r (p q : string) (i : nat) :
  charAt (p ++ q) (String.length p + i) = charAt q i.
Proof. induction p as [|c p IH]; [reflexivity | exact IH]. Qed.

Lemma charAt_rest (s : string) (a i : nat) :
  charAt (slice s a (String.length s)) i = charAt s (a + i).
Proof.
  destruct (Nat.le_gt_cases (String.length s) a) as [H|H].
  - rewrite (charAt_past s (a + i)) by lia.
    unfold slice. replace (String.length s - a) with 0 by lia.
    rewrite substring_zero. now destruct i.
  - pose proof (charAt_app_r (slice s 0 a) (slice s a (String.length s)) i)
      as E.
    rewrite <- slice_app, slice_whole, slice_length in E by lia.
    rewrite Nat.sub_0_r in E. now symmetry.
Qed.

Lemma rest_empty (s : string) (a : nat) :
  String.length s <= a -> slice s a (String.length s) = "".
Proof.
  intros H. unfold slice. replace (String.length s - a) with 0 by lia.
  apply substring_zero.
Qed.

(** A text without the character [x] does not include it. *)
Lemma includes_none (s x : string) (a b : nat) :
  String.length x = 1 -> b <= String.length s ->
  (forall i, a <= i -> i < b -> charAt s i <> x) ->
  includes (slice s a b) x = false.
Proof.
  intros Hx Hb. destruct (length_one x Hx) as [d ->].
  remember (b - a) as n eqn:Hn. revert a Hn.
  induction n as [|n IH]; intros a Hn H.
  - unfold slice. rewrite <- Hn, substring_zero. reflexivity.
  - rewrite (slice_app s a (S a) b), slice_one by lia.
    assert (Hl : String.length (charAt s a) = 1)
      by (apply charAt_length; lia).
    destruct (length_one _ Hl) as [c Ec]. rewrite Ec.
    change (includes (String c "" ++ slice s (S a) b) (String d ""))
      with (prefix (String d "") (String c (slice s (S a) b))
            || includes (slice s (S a) b) (String d "")).
    rewrite IH; [ | lia | intros i ? ?; apply H; lia ].
    rewrite orb_false_r. simpl.
    destruct (ascii_dec d c) as [->|]; [|reflexivity].
    destruct (H a); [lia | lia | assumption].
Qed.

Lemma number_lexeme_shape (kind : NumberKind) (x rest : string) :
  number_lexeme kind x rest -> number_shape kind x.
Proof. intros []; now constructor. Qed.

(** What [number] has read is a whole literal of its kind. *)
Lemma whole_decimal_or_exponential (ip fr ex rest : string) :
  digits1 ip -> fraction fr ->
  isDigit (charAt rest 0) = false ->
  (ip = "0" -> fr = "" -> ex = "" -> toLowerCase (charAt rest 0) <> "b") ->
  (ex = "" /\ (fr = "" -> fraction_ahead rest = false)
   /\ exponent_ahead rest = false)
  \/ exponent ex ->
  number_lexeme
    (if includes (toLowerCase (ip ++ fr ++ ex)) "e"
     then exponential else decimal)
    (ip ++ fr ++ ex) rest.
Proof.
  intros Hip Hfr Hd Hz Hex. fold (has_e (ip ++ fr ++ ex)).
  rewrite !has_e_app, (has_e_digits ip (proj2 Hip)), (has_e_fraction fr Hfr).
  destruct Hex as [(-> & Hf & He)|Hex]; simpl.
  - rewrite append_nil_r. constructor; auto.
  - rewrite (has_e_exponent ex Hex). now constructor.
Qed.

Section Source.

Variable source : string.
Variable fuel : nat.
Hypothesis Hfuel : String.length source < fuel.

Lemma ahead_charAt (t : Tokenizer) (i : nat) :
  charAt (ahead source t) i = charAt source (this_current t + i).
Proof. apply charAt_rest. Qed.

Lemma ahead_peek (t : Tokenizer) : charAt (ahead source t) 0 = peek source t.
Proof. now rewrite ahead_charAt, Nat.add_0_r, peek_eq. Qed.

Lemma peekNext_eq (k : nat) (t : Tokenizer) :
  1 <= k -> peekNext source k t = charAt source (this_current t + k).
Proof.
  intros Hk. unfold peekNext.
  destruct (Nat.leb_spec (String.length source) (this_current t + 1));
    [|reflexivity].
  symmetry. apply charAt_past. lia.
Qed.

Lemma ahead_peekNext (k : nat) (t : Tokenizer) :
  1 <= k -> charAt (ahead source t) k = peekNext source k t.
Proof. intros Hk. now rewrite ahead_charAt, peekNext_eq. Qed.

Lemma fraction_ahead_eq (t : Tokenizer) :
  fraction_ahead (ahead source t)
  = (peek source t =? ".")%string && isDigit (peekNext source 1 t).
Proof.
  unfold fraction_ahead. now rewrite ahead_peek, ahead_peekNext by lia.
Qed.

Lemma exponent_ahead_eq (t : Tokenizer) :
  exponent_ahead (ahead source t)
  = (toLowerCase (peek source t) =? "e")%string
    && (isDigit (peekNext source 1 t)
        || (peekNext source 1 t =? "-")%string
           && isDigit (peekNext source 2 t)).
Proof.
  unfold exponent_ahead. now rewrite ahead_peek, !ahead_peekNext by lia.
Qed.

(** The fraction that [number] reads, or none when none is ahead. *)
Lemma fraction_whole (t : Tokenizer) :
  this_current t <= String.length source ->
  isDigit (peek source t) = false ->
  exists t',
    (if (peek source t =? ".")%string && isDigit (peekNext source 1 t)
     then while_ fuel (fun t => isDigit (peek source t)) (step source)
            (snd (advance source 1 t))
     else Some t) = Some t'
    /\ within0 source t t'
    /\ fraction (slice source (this_current t) (this_current t'))
    /\ isDigit (peek source t') = false
    /\ (slice source (this_current t) (this_current t') = "" ->
        t' = t /\ fraction_ahead (ahead source t) = false).
Proof.
  intros Hle Hnd. rewrite <- fraction_ahead_eq.
  destruct (fraction_ahead (ahead source t)) eqn:C.
  - rewrite fraction_ahead_eq in C.
    apply andb_prop in C as [C1 C2]. apply String.eqb_eq in C1.
    rewrite peek_eq in C1.
    destruct (isDigit_inside _ C2) as [C2ne _].
    destruct (peekNext_inside source 1 t C2ne) as (_ & Hin & Epn).
    rewrite Epn in C2.
    destruct (one_char_no_nl source fuel Hfuel t "." C1) as (H1 & H2 & H3);
      try discriminate.
    destruct (run_after source fuel Hfuel isDigit class_0_9 t 1)
      as (t' & E & W & Hl & Es & A & St);
      auto using isDigit_one; try lia.
    exists t'. split; [assumption|]. split; [assumption|].
    rewrite Es, H3. split; [|split; [assumption | discriminate]].
    constructor. apply (run_digits1 source fuel Hfuel); [lia | apply W | assumption].
  - exists t. split; [reflexivity|]. split; [now apply within0_refl|].
    rewrite slice_same. split; [constructor | auto].
Qed.

(** The exponent that [number] reads, or none when none is ahead. *)
Lemma exponent_whole (t : Tokenizer) :
  this_current t <= String.length source ->
  isDigit (peek source t) = false ->
  exists t',
    (if (toLowerCase (peek source t) =? "e")%string then
       if isDigit (peekNext source 1 t)
       then while_ fuel (fun t => isDigit (peek source t)) (step source)
              (snd (advance source 1 t))
       else if (peekNext source 1 t =? "-")%string
               && isDigit (peekNext source 2 t)
       then while_ fuel (fun t => isDigit (peek source t)) (step source)
              (snd (advance source 2 t))
       else Some t
     else Some t) = Some t'
    /\ within0 source t t'
    /\ ((t' = t /\ exponent_ahead (ahead source t) = false)
        \/ exponent (slice source (this_current t) (this_current t')))
    /\ isDigit (peek source t') = false.
Proof.
  intros Hle Hnd.
  assert (Hstay : exponent_ahead (ahead source t) = false ->
             exists t',
               Some t = Some t' /\ within0 source t t'
               /\ ((t' = t /\ exponent_ahead (ahead source t) = false)
                   \/ exponent (slice source (this_current t)
                                  (this_current t')))
               /\ isDigit (peek source t') = false).
  { intros Z. exists t. split; [reflexivity|].
    split; [now apply within0_refl | auto]. }
  pose proof (exponent_ahead_eq t) as A.
  destruct (String.eqb_spec (toLowerCase (peek source t)) "e") as [C|C];
    [|now apply Hstay].
  rewrite peek_eq in C.
  destruct (lower_e_inside _ C) as [Cne Cnl].
  assert (Hm : marker "e" (charAt source (this_current t))).
  { split; [apply charAt_length; now apply charAt_inside | assumption]. }
  destruct (one_char_no_nl source fuel Hfuel t _ eq_refl Cne Cnl) as (H1 & H2 & H3).
  destruct (isDigit (peekNext source 1 t)) eqn:D1.
  - destruct (isDigit_inside _ D1) as [Dne _].
    destruct (peekNext_inside source 1 t Dne) as (_ & Hin & Epn).
    rewrite Epn in D1.
    destruct (run_after source fuel Hfuel isDigit class_0_9 t 1)
      as (t' & E & W & Hl & Es & A' & St);
      auto using isDigit_one; try lia.
    exists t'. split; [assumption|]. split; [assumption|]. split; [|assumption].
    right. rewrite Es, H3. apply exponent_plain; [assumption|].
    apply (run_digits1 source fuel Hfuel); [lia | apply W | assumption].
  - destruct ((peekNext source 1 t =? "-")%string
              && isDigit (peekNext source 2 t)) eqn:D2;
      [|now apply Hstay].
    apply andb_prop in D2 as [M D]. apply String.eqb_eq in M.
    destruct (isDigit_inside _ D) as [Dne _].
    destruct (peekNext_inside source 2 t Dne) as (_ & Hin & Epn).
    rewrite Epn in D.
    assert (Mne : peekNext source 1 t <> "") by (rewrite M; discriminate).
    destruct (peekNext_inside source 1 t Mne) as (_ & _ & M1).
    rewrite M in M1.
    assert (Etwo : slice source (this_current t) (this_current t + 2)
                   = charAt source (this_current t) ++ "-").
    { replace (this_current t + 2) with (S (S (this_current t))) by lia.
      rewrite lexeme_two. f_equal.
      now replace (S (this_current t)) with (this_current t + 1) by lia. }
    destruct (run_after source fuel Hfuel isDigit class_0_9 t 2)
      as (t' & E & W & Hl & Es & A' & St);
      auto using isDigit_one; try lia.
    { rewrite Etwo, count_nl_app.
      rewrite count_nl_one by (apply charAt_length; lia).
      apply String.eqb_neq in Cnl. now rewrite Cnl. }
    exists t'. split; [assumption|]. split; [assumption|]. split; [|assumption].
    right. rewrite Es, Etwo, append_assoc.
    apply exponent_minus; [assumption|].
    apply (run_digits1 source fuel Hfuel); [lia | apply W | assumption].
Qed.

(** [number]: the digits, the fraction and the exponent that are ahead,
    each as far as it goes. *)
Lemma number_whole (t : Tokenizer) :
  this_current t <= String.length source ->
  exists t' ds fr ex,
    number source fuel t
    = Some (addToken source
              (T_number
                 (Number (slice source (this_start t') (this_current t')))
                 (if includes
                       (toLowerCase
                          (slice source (this_start t') (this_current t')))
                       "e"
                  then exponential else decimal)) t')
    /\ within0 source t t'
    /\ slice source (this_current t) (this_current t') = ds ++ fr ++ ex
    /\ all_in class_0_9 ds = true
    /\ fraction fr
    /\ isDigit (peek source t') = false
    /\ ((ex = "" /\ (fr = "" -> fraction_ahead (ahead source t') = false)
         /\ exponent_ahead (ahead source t') = false)
        \/ exponent ex).
Proof.
  intros Hle. unfold number.
  destruct (digit_run source fuel Hfuel t Hle) as (a & -> & Wa & Aa & Sa).
  destruct (fraction_whole a) as (b & -> & Wb & Fb & Sb & Nb);
    [apply Wa | assumption | ].
  destruct (exponent_whole b) as (c & -> & Wc & Ec & Sc);
    [apply Wb | assumption | ].
  exists c, (slice source (this_current t) (this_current a)),
    (slice source (this_current a) (this_current b)),
    (slice source (this_current b) (this_current c)).
  split; [reflexivity|].
  assert (Hab : this_current t <= this_current a) by apply Wa.
  assert (Hbc : this_current a <= this_current b) by apply Wb.
  assert (Hcd : this_current b <= this_current c) by apply Wc.
  split; [eauto using within0_trans|].
  split; [|split; [assumption|split; [assumption|split; [assumption|]]]].
  - rewrite (slice_app source _ (this_current a) (this_current c)) by lia.
    now rewrite (slice_app source _ (this_current b) (this_current c)) by lia.
  - destruct Ec as [[-> Ec]|Ec]; [left | now right].
    split; [apply slice_same|]. split; [|assumption].
    intros Z. destruct (Nb Z) as [-> Hf]. assumption.
Qed.

(** *** Numbers *)

Section Digit.

Variable t : Tokenizer.

Let t1 :=
  mkTokenizer (this_tokens t) (this_current t) (S (this_current t))
    (this_line t) (console_error t).

Lemma number_path_whole :
  isDigit (charAt source (this_current t)) = true ->
  (charAt source (this_current t) = "0" ->
   toLowerCase (charAt source (S (this_current t))) <> "b") ->
  exists r k,
    number source fuel t1 = Some r
    /\ this_tokens r = (this_tokens t ++ [k])%list
    /\ lexeme_whole k (ahead source r)
    /\ console_error r = (console_error t ++ span_errors (Lexeme k))%list.
Proof.
  intros Hd Hz.
  destruct (isDigit_inside _ Hd) as [Hne Hnl].
  assert (Hlt : this_current t < String.length source)
    by now apply charAt_inside.
  destruct (number_whole t1)
    as (t' & ds & fr & ex & -> & W & Es & Ad & Fr & St & Ex);
    [simpl; lia | ].
  destruct W as [[Wt Ws Wc Wlo Whi Wl] Wline]. simpl in *.
  assert (Hl1 : String.length (charAt source (this_current t)) = 1)
    by now apply charAt_length.
  assert (EL : slice source (this_current t) (this_current t')
               = (charAt source (this_current t) ++ ds) ++ fr ++ ex).
  { rewrite (slice_app source _ (S (this_current t))) by lia.
    now rewrite lexeme_one, Es, append_assoc. }
  assert (Hip : digits1 (charAt source (this_current t) ++ ds)).
  { split.
    - intros Z. apply (f_equal String.length) in Z.
      rewrite append_length, Hl1 in Z. simpl in Z. lia.
    - rewrite all_in_app, Ad, <- isDigit_one, Hd by assumption.
      reflexivity. }
  assert (Hwhole :
    number_lexeme
      (if includes
            (toLowerCase (slice source (this_current t) (this_current t')))
            "e"
       then exponential else decimal)
      (slice source (this_current t) (this_current t')) (ahead source t')).
  { rewrite EL. apply whole_decimal_or_exponential; try assumption.
    - now rewrite ahead_peek.
    - intros Zi Zf Ze.
      assert (Zd : ds = "").
      { apply (f_equal String.length) in Zi.
        rewrite append_length, Hl1 in Zi. simpl in Zi.
        destruct ds; [reflexivity | simpl in Zi; lia]. }
      subst ds fr ex. rewrite append_nil_r in Zi.
      apply (f_equal String.length) in Es.
      rewrite slice_length in Es by lia. simpl in Es.
      rewrite ahead_charAt, Nat.add_0_r.
      replace (this_current t') with (S (this_current t)) by lia.
      now apply Hz. }
  pose proof (Number_shape _ _ (number_lexeme_shape _ _ _ Hwhole)) as Hq.
  unfold addToken, push. rewrite Ws, Wt, Wline.
  eexists _, _. split; [reflexivity|]. simpl.
  split; [reflexivity|]. split.
  - unfold lexeme_whole. simpl. split; [exact Hwhole | congruence].
  - rewrite Wc.
    destruct (includes
                (toLowerCase
                   (slice source (this_current t) (this_current t'))) "e");
      now rewrite app_nil_r.
Qed.

Lemma zero_path_whole :
  charAt source (this_current t) = "0" ->
  exists r k,
    leadingZeroNumber source fuel t1 = Some r
    /\ this_tokens r = (this_tokens t ++ [k])%list
    /\ lexeme_whole k (ahead source r)
    /\ console_error r = (console_error t ++ span_errors (Lexeme k))%list.
Proof.
  intros E0.
  assert (Hlt : this_current t < String.length source)
    by (apply charAt_inside; rewrite E0; discriminate).
  unfold leadingZeroNumber.
  destruct (String.eqb_spec (toLowerCase (peek source t1)) "b") as [C|C].
  2:{ apply number_path_whole; [now rewrite E0 | intros _].
      now rewrite peek_eq in C. }
  rewrite peek_eq in C. simpl in C.
  destruct (lower_b_inside _ C) as [Cne Cnl].
  assert (Hl1 : String.length (charAt source (S (this_current t))) = 1)
    by (apply charAt_length; now apply charAt_inside).
  assert (Hm : marker "b" (charAt source (S (this_current t))))
    by now split.
  destruct (isBinaryDigit (peekNext source 1 t1)) eqn:D.
  - destruct (isBinaryDigit_inside _ D) as [Dne _].
    destruct (peekNext_inside source 1 t1 Dne) as (_ & Hin & Epn).
    rewrite Epn in D.
    destruct (one_char_no_nl source fuel Hfuel t1 _ eq_refl Cne Cnl)
      as (H1 & H2 & H3).
    destruct (run_after source fuel Hfuel isBinaryDigit class_0_1 t1 1)
      as (t' & -> & W & Hl & Es & A & St);
      auto using isBinaryDigit_one; try lia.
    destruct W as [[Wt Ws Wc Wlo Whi Wl] Wline]. simpl in *.
    assert (EL : slice source (this_current t) (this_current t')
                 = "0" ++ charAt source (S (this_current t))
                   ++ slice source (S (this_current t) + 1) (this_current t')).
    { rewrite (slice_app source _ (S (this_current t))) by lia.
      now rewrite lexeme_one, E0, Es, H3. }
    assert (Hwhole : number_lexeme binary
                       (slice source (this_current t) (this_current t'))
                       (ahead source t')).
    { rewrite EL. constructor; [assumption | | now rewrite ahead_peek].
      apply (run_digits1 source fuel Hfuel); [lia | assumption | assumption]. }
    pose proof (Number_shape _ _ (number_lexeme_shape _ _ _ Hwhole)) as Hq.
    unfold addToken, push. rewrite Ws, Wt, Wline.
    eexists _, _. split; [reflexivity|]. simpl.
    split; [reflexivity|]. split.
    + unfold lexeme_whole. simpl. split; [exact Hwhole | congruence].
    + rewrite Wc, EL. destruct (length_one _ Hl1) as [m ->].
      simpl. now rewrite app_nil_r.
  - unfold addToken, push, error. simpl.
    eexists _, _. split; [reflexivity|]. simpl.
    split; [reflexivity|]. rewrite lexeme_one, E0. split.
    + unfold lexeme_whole. simpl. split; [|discriminate].
      apply whole_binary_alone.
      * now rewrite ahead_charAt, Nat.add_0_r.
      * rewrite (peekNext_eq 1 t1) in D by lia. now rewrite ahead_charAt.
    + reflexivity.
Qed.

End Digit.

(** *** One turn *)

Lemma sp_lexeme (t0 r : Tokenizer) (sp : span) (k : Token) :
  step_post source t0 r sp ->
  this_tokens r = (this_tokens t0 ++ [k])%list -> sp = Lexeme k.
Proof.
  intros P E. rewrite (sp_tokens _ _ _ _ P) in E. apply app_inv_head in E.
  destruct sp as [k'|]; simpl in E; [|discriminate].
  now injection E as ->.
Qed.

Lemma sp_skipped (t0 r : Tokenizer) (sp : span) :
  step_post source t0 r sp ->
  this_tokens r = this_tokens t0 ->
  exists kind,
    sp = Skipped kind (slice source (this_current t0) (this_current r))
    /\ skip_ok kind (slice source (this_current t0) (this_current r))
    /\ console_error r
       = (console_error t0
          ++ skip_errors kind
               (slice source (this_current t0) (this_current r)))%list.
Proof.
  intros P E. pose proof (sp_tokens _ _ _ _ P) as Et.
  assert (En : span_tokens sp = [])
    by (apply (app_inv_head (this_tokens t0)); rewrite app_nil_r;
        congruence).
  destruct sp as [k|kind x]; [discriminate|].
  pose proof (sp_text _ _ _ _ P) as Ex. simpl in Ex. subst x.
  exists kind. split; [reflexivity|]. split.
  - exact (sp_ok _ _ _ _ P).
  - exact (sp_console _ _ _ _ P _ _ eq_refl).
Qed.

Lemma whole_lexeme (t r : Tokenizer) (sp : span) (k : Token) :
  step_post source (set_start (this_current t) t) r sp ->
  this_tokens r = (this_tokens t ++ [k])%list ->
  lexeme_whole k (ahead source r) ->
  console_error r = (console_error t ++ span_errors (Lexeme k))%list ->
  step_whole source (set_start (this_current t) t) r sp.
Proof.
  intros P E Hw Hc. rewrite (sp_lexeme _ _ _ k P E). now split.
Qed.

Lemma whole_skip (t r : Tokenizer) (sp : span) :
  step_post source (set_start (this_current t) t) r sp ->
  this_tokens r = this_tokens t ->
  (forall kind,
     skip_ok kind (slice source (this_current t) (this_current r)) ->
     console_error r
     = (console_error t
        ++ skip_errors kind
             (slice source (this_current t) (this_current r)))%list ->
     skip_whole kind (slice source (this_current t) (this_current r))
       (ahead source r)) ->
  step_whole source (set_start (this_current t) t) r sp.
Proof.
  intros P E H. destruct (sp_skipped _ _ _ P E) as (kind & -> & Hok & Hc).
  split; [now apply H | exact Hc].
Qed.

Lemma log_grew (log : list string) (m : string) :
  log <> (log ++ [m])%list.
Proof.
  intros Z. apply (f_equal (@List.length string)) in Z.
  rewrite length_app in Z. simpl in Z. lia.
Qed.

Section Turn.

Variable t : Tokenizer.
Variable r : Tokenizer.
Variable sp : span.
Hypothesis Hlt : this_current t < String.length source.

Let t0 := set_start (this_current t) t.

Let t1 :=
  mkTokenizer (this_tokens t) (this_current t) (S (this_current t))
    (this_line t) (console_error t).

Lemma ahead_first (t' : Tokenizer) :
  charAt (ahead source t') 0 = charAt source (this_current t').
Proof. now rewrite ahead_charAt, Nat.add_0_r. Qed.

Lemma whole_single (K : TokenADT) :
  lexeme_whole (mkToken K (charAt source (this_current t)) (this_line t))
    (ahead source t1) ->
  span_errors
    (Lexeme (mkToken K (charAt source (this_current t)) (this_line t))) = [] ->
  Some (addToken source K t1) = Some r ->
  step_post source t0 r sp -> step_whole source t0 r sp.
Proof.
  intros Hw He [= <-] P.
  apply (whole_lexeme _ _ _
           (mkToken K (charAt source (this_current t)) (this_line t)) P).
  - unfold addToken, push, t1. simpl. now rewrite lexeme_one.
  - exact Hw.
  - rewrite He. simpl. now rewrite app_nil_r.
Qed.

Lemma whole_double (K2 K1 : TokenADT) (x : string) :
  charAt source (this_current t) = x ->
  (forall rest line, lexeme_whole (mkToken K2 (x ++ "=") line) rest) ->
  (forall rest line,
     charAt rest 0 <> "=" -> lexeme_whole (mkToken K1 x line) rest) ->
  (forall y line, span_errors (Lexeme (mkToken K2 y line)) = []) ->
  (forall y line, span_errors (Lexeme (mkToken K1 y line)) = []) ->
  (let (m, t') := match_ source "=" t1 in
   Some (addToken source (if m then K2 else K1) t')) = Some r ->
  step_post source t0 r sp -> step_whole source t0 r sp.
Proof.
  intros E H2 H1 E2 E1. rewrite match_eq by discriminate. unfold t1 at 1.
  simpl this_current.
  destruct (String.eqb_spec (charAt source (S (this_current t))) "=")
    as [N|N]; intros [= <-] P.
  - apply (whole_lexeme _ _ _
             (mkToken K2 (x ++ "=") (this_line t)) P).
    + unfold addToken, push, t1. simpl. now rewrite lexeme_two, E, N.
    + apply H2.
    + rewrite E2. simpl. now rewrite app_nil_r.
  - apply (whole_lexeme _ _ _ (mkToken K1 x (this_line t)) P).
    + unfold addToken, push, t1. simpl. now rewrite lexeme_one, E.
    + apply H1. now rewrite ahead_first.
    + rewrite E1. simpl. now rewrite app_nil_r.
Qed.

Lemma whole_minus :
  charAt source (this_current t) = "-" ->
  (let (m, t') := match_ source "-" t1 in
   if m then
     while_ fuel
       (fun t => negb (peek source t =? LF)%string
                 && negb (reachedEOF source t))
       (step source) t'
   else Some (addToken source T_minus t')) = Some r ->
  step_post source t0 r sp -> step_whole source t0 r sp.
Proof.
  intros E. rewrite match_eq by discriminate. unfold t1 at 1.
  simpl this_current.
  destruct (String.eqb_spec (charAt source (S (this_current t))) "-")
    as [N|N].
  - assert (Hlt2 : S (this_current t) < String.length source)
      by (apply charAt_inside; rewrite N; discriminate).
    destruct (comment_loop_stop source fuel
                (set_current (S (S (this_current t))) t1))
      as (r' & -> & [[Wt Ws Wc Wlo Whi Wl] Wline] & Hstop);
      [simpl; lia | assumption | ].
    simpl in *. intros [= <-] P.
    apply (whole_skip _ _ _ P); [exact Wt|].
    intros kind Hok Hc. destruct kind; simpl; auto.
    + destruct Hstop as [Hs|Hs];
        [left; apply rest_empty; lia | right; now rewrite ahead_first].
    + rewrite Wc in Hc. simpl in Hc. now apply log_grew in Hc.
  - intros [= <-] P.
    apply (whole_lexeme _ _ _ (mkToken T_minus "-" (this_line t)) P).
    + unfold addToken, push, t1. simpl. now rewrite lexeme_one, E.
    + unfold lexeme_whole. simpl. now rewrite ahead_first.
    + simpl. now rewrite app_nil_r.
Qed.

(** A span of one character is neither a comment nor an open string,
    unless the character is a double quote. *)
Lemma whole_one (r' : Tokenizer) (x : string) :
  charAt source (this_current t) = x -> x <> DQUOTE ->
  this_tokens r' = this_tokens t ->
  this_current r' = S (this_current t) ->
  step_post source t0 r' sp -> step_whole source t0 r' sp.
Proof.
  intros E Hq Et Ec P. apply (whole_skip _ _ _ P Et).
  rewrite Ec, lexeme_one, E.
  assert (Hl : String.length x = 1)
    by (rewrite <- E; now apply charAt_length).
  destruct (length_one x Hl) as [c ->].
  intros kind Hok _. destruct kind; simpl; auto.
  - destruct Hok as (body & Z & _). discriminate Z.
  - destruct Hok as (body & Z). injection Z as Z1 Z2.
    destruct Hq. unfold DQUOTE. now rewrite Z1.
Qed.

Lemma whole_string :
  charAt source (this_current t) = DQUOTE ->
  string_ source fuel t1 = Some r ->
  step_post source t0 r sp -> step_whole source t0 r sp.
Proof.
  intros E. unfold string_.
  destruct (string_loop_first_quote source fuel t1)
    as (t2 & -> & [Wt Ws Wc Wlo Whi Wl] & Hend & Hq);
    [simpl; lia | assumption | ].
  simpl in Wt, Ws, Wc, Wlo, Hq.
  assert (Hnone : includes (slice source (S (this_current t))
                              (this_current t2)) DQUOTE = false).
  { apply includes_none; [reflexivity | assumption | ].
    intros i H1 H2. now apply Hq. }
  rewrite reachedEOF_leb.
  destruct (Nat.leb_spec (String.length source) (this_current t2)) as [He|He].
  - intros [= <-] P. apply (whole_skip _ _ _ P); [exact Wt|].
    simpl this_current.
    intros kind Hok Hc. destruct kind; simpl; auto.
    + left. apply rest_empty. simpl. lia.
    + split; [apply rest_empty; simpl; lia|].
      exists (slice source (S (this_current t)) (this_current t2)).
      split; [|assumption].
      rewrite (slice_app source _ (S (this_current t))) by lia.
      now rewrite lexeme_one, E.
  - rewrite advance1_eq. cbv beta iota zeta. intros [= <-] P.
    apply (whole_lexeme _ _ _
             (mkToken
                (T_string
                   (slice source (S (this_current t)) (this_current t2)))
                (slice source (this_current t) (S (this_current t2)))
                (this_line t2)) P).
    + unfold addToken, push. simpl.
      now rewrite Wt, Ws, Nat.add_1_r, Nat.sub_0_r.
    + exact Hnone.
    + simpl. rewrite Wc. now rewrite app_nil_r.
Qed.

Lemma whole_default :
  Some (error (unexpected (charAt source (this_current t))) t1) = Some r ->
  step_post source t0 r sp -> step_whole source t0 r sp.
Proof.
  intros [= <-] P. apply (whole_skip _ _ _ P); [reflexivity|].
  simpl. intros kind Hok Hc. destruct kind; simpl; auto;
    apply app_inv_head in Hc; [discriminate Hc|].
  injection Hc as Hc. unfold unexpected in Hc. simpl in Hc.
  discriminate Hc.
Qed.

Local Ltac on_char k tac :=
  let E := fresh "E" in
  destruct (String.eqb (charAt source (this_current t)) k) eqn:E;
  cbn [orb];
  [ apply String.eqb_eq in E; tac E | clear E ].

Local Ltac single K :=
  apply (whole_single K); [exact I | reflexivity].

Local Ltac double K2 K1 k :=
  apply (whole_double K2 K1 k);
  [ assumption | intros; exact I | intros ? ? Z; exact Z
  | reflexivity | reflexivity ].

Local Ltac blank E :=
  intros [= <-]; apply (whole_one _ _ E); [discriminate | reflexivity ..].

Local Ltac digit E :=
  let Z := fresh in
  unfold t1;
  destruct (number_path_whole t) as (r' & k & -> & Etok & Hw & Hc);
  [ rewrite E; reflexivity | intros Z; rewrite E in Z; discriminate Z | ];
  intros [= <-] P; apply (whole_lexeme _ _ _ k P); assumption.

(** What a turn has consumed is a whole span of the grammar, and the turn
    has reported what the span asks for. *)
Lemma turn_whole :
  turn source fuel t = Some r ->
  step_post source t0 r sp -> step_whole source t0 r sp.
Proof.
  unfold turn, scanToken. rewrite turn_advance. cbv beta iota zeta.
  fold t1. fold t0.
  on_char "(" ltac:(fun E => single T_leftParen).
  on_char ")" ltac:(fun E => single T_rightParen).
  on_char "{" ltac:(fun E => single T_leftBrace).
  on_char "}" ltac:(fun E => single T_rightBrace).
  on_char "," ltac:(fun E => single T_comma).
  on_char "." ltac:(fun E => single T_dot).
  on_char "-" ltac:(fun E => now apply whole_minus).
  on_char "+" ltac:(fun E => single T_plus).
  on_char ";" ltac:(fun E => single T_semicolon).
  on_char "*" ltac:(fun E => single T_star).
  on_char "/" ltac:(fun E => single T_slash).
  on_char "!" ltac:(fun E => double T_bangEqual T_bang "!").
  on_char "=" ltac:(fun E => double T_equalEqual T_equal "=").
  on_char "<" ltac:(fun E => double T_lessEqual T_less "<").
  on_char ">" ltac:(fun E => double T_greaterEqual T_greater ">").
  on_char " " ltac:(fun E => blank E).
  on_char CR ltac:(fun E => blank E).
  on_char TAB ltac:(fun E => blank E).
  on_char LF ltac:(fun E => blank E).
  on_char "0" ltac:(fun E =>
    unfold t1;
    destruct (zero_path_whole t E) as (r' & k & -> & Etok & Hw & Hc);
    intros [= <-] P; apply (whole_lexeme _ _ _ k P); assumption).
  on_char "1" ltac:(fun E => digit E). on_char "2" ltac:(fun E => digit E).
  on_char "3" ltac:(fun E => digit E). on_char "4" ltac:(fun E => digit E).
  on_char "5" ltac:(fun E => digit E). on_char "6" ltac:(fun E => digit E).
  on_char "7" ltac:(fun E => digit E). on_char "8" ltac:(fun E => digit E).
  on_char "9" ltac:(fun E => digit E).
  on_char DQUOTE ltac:(fun E => now apply whole_string).
  apply whole_default.
Qed.

End Turn.

(** *** The loop of [scanTokens] *)

Lemma loop_whole :
  forall n t,
    String.length source - this_current t < n ->
    this_current t <= String.length source ->
    exists r l,
      while_ n (fun t => negb (reachedEOF source t)) (turn source fuel) t
      = Some r
      /\ scan_post source fuel t r l.
Proof.
  induction n as [|n IH]; intros t Hn Hle; [lia|].
  simpl. rewrite reachedEOF_leb.
  destruct (Nat.leb_spec (String.length source) (this_current t)) as [He|He];
    simpl.
  - exists t, []. split; [reflexivity|]. split.
    + apply loop_post_nil. lia.
    + exact I.
    + simpl. now rewrite app_nil_r.
    + intros pre sp post H. destruct pre; discriminate.
  - destruct (scanToken_spec source fuel (set_start (this_current t) t))
      as (t' & sp & E & P); try assumption; try reflexivity.
    fold (turn source fuel t) in E.
    pose proof (turn_whole t t' sp He E P) as [Ww Wc].
    rewrite E.
    assert (Plo : this_current t < this_current t')
      by exact (sp_lo _ _ _ _ P).
    assert (Phi : this_current t' <= String.length source)
      by exact (sp_hi _ _ _ _ P).
    assert (Ptext : slice source (this_current t) (this_current t')
                    = span_text sp) by exact (sp_text _ _ _ _ P).
    destruct (IH t') as (r & l & -> & [R Rw Rc Rt]); try lia.
    exists r, (sp :: l). split; [reflexivity|]. split.
    + now apply (loop_post_cons source t t').
    + split; [|assumption]. now rewrite (lp_texts _ _ _ _ R).
    + rewrite Rc, Wc. simpl. now rewrite <- app_assoc.
    + intros pre sp' post H. destruct pre as [|p pre]; simpl in H.
      * injection H as <- _. exists t, t'. simpl.
        split; [reflexivity|]. split; [assumption|].
        split; [exact (sp_tokens _ _ _ _ P)|].
        split; [lia | now symmetry].
      * injection H as <- H.
        destruct (Rt pre sp' post H) as (a & b & Ha & Hb & Htok & Hcur & Hx).
        exists a, b.
        split.
        { simpl. rewrite reachedEOF_leb.
          destruct (Nat.leb_spec (String.length source) (this_current t));
            [lia|].
          now rewrite E. }
        split; [assumption|]. split; [assumption|]. split; [|assumption].
        simpl. rewrite append_length, <- Ptext, slice_length by lia. lia.
Qed.

End Source.

Lemma spans_whole_at (pre : list span) (sp : span) (post : list span) :
  spans_whole (pre ++ sp :: post) -> span_whole sp (texts post).
Proof.
  induction pre as [|p pre IH]; simpl; intros [H1 H2];
    [assumption | now apply IH].
Qed.

Lemma span_ok_at (pre : list span) (sp : span) (post : list span) :
  Forall span_ok (pre ++ sp :: post) -> span_ok sp.
Proof.
  intros H. apply Forall_app in H as [_ H]. now inversion H.
Qed.

(** The whole scan: the spans, the tokens and the log. *)
Lemma run_whole (source : string) (fuel : nat) :
  String.length source < fuel ->
  exists r l,
    scanTokens_run source fuel = Some r
    /\ tiling source (this_tokens r) l
    /\ spans_whole l
    /\ console_error r = flat_map span_errors l
    /\ forall pre sp post,
         l = (pre ++ sp :: post)%list ->
         turn_of source fuel new_Tokenizer pre sp.
Proof.
  intros Hfuel.
  destruct (loop_whole source fuel Hfuel fuel new_Tokenizer)
    as (r & l & E & [R Rw Rc Rt]); simpl; try lia.
  unfold scanTokens_run. rewrite E.
  exists (push (mkToken T_eof "" (this_line r)) r), l.
  split; [reflexivity|]. simpl.
  pose proof (lp_texts _ _ _ _ R) as Rtext.
  pose proof (lp_tokens _ _ _ _ R) as Rtok.
  simpl in Rtext, Rtok. rewrite slice_whole in Rtext.
  split; [|auto].
  split; [assumption | exists (this_line r); now rewrite Rtok | apply R].
Qed.

(** C3, as the code has it.  The source is the concatenation, in order, of
    the lexemes of the returned tokens and of the skipped spans.  A skipped
    span is a white-space character, a line comment that runs up to the
    line terminator or the end of the source, a character the tokenizer
    does not know, or a string literal left open, which has no second
    double quote and runs to the end of the source.  Every token is whole
    in front of what follows it, and [console.error] has received, in
    order, one message for each unknown character, each open string and
    each binary marker without a digit, and nothing else.  The lexeme of a
    string keeps its quotes, so that no character is left out. *)
Theorem C3_spans_tile_source (source : string) (extra : nat) :
  exists r l,
    scanTokens_run source (S (String.length source + extra)) = Some r
    /\ tiling source (this_tokens r) l
    /\ spans_whole l
    /\ console_error r = flat_map span_errors l.
Proof.
  destruct (run_whole source (S (String.length source + extra)))
    as (r & l & E & T & W & C & _); [lia|].
  now exists r, l.
Qed.

(** C8, as the code has it.  Every returned token was added by one turn
    of the loop, and its lexeme is the text of the source that the cursor
    passed in that turn, [source.slice(start, current)]: a number with its
    radix prefix, decimal point and exponent, as far as they go, and a
    string literal with both quotes; it is the [literal] of the string that
    leaves them out. *)
Theorem C8_lexeme_is_consumed_text (source : string) (extra : nat) :
  exists toks l,
    scanTokens source (S (String.length source + extra)) = Some toks
    /\ tiling source toks l
    /\ forall pre k post,
         l = (pre ++ Lexeme k :: post)%list ->
         (exists a b,
            turns_from source (S (String.length source + extra))
              new_Tokenizer (List.length pre) = Some a
            /\ turn source (S (String.length source + extra)) a = Some b
            /\ this_tokens b = (this_tokens a ++ [k])%list
            /\ this_current a = String.length (texts pre)
            /\ lexeme k
               = slice source (this_current a) (this_current b))
         /\ lexeme_ok k
         /\ lexeme_whole k (texts post).
Proof.
  destruct (run_whole source (S (String.length source + extra)))
    as (r & l & E & T & W & _ & Rt); [lia|].
  exists (this_tokens r), l. unfold scanTokens. rewrite E.
  split; [reflexivity|]. split; [assumption|].
  intros pre k post H. split; [|split].
  - destruct (Rt pre (Lexeme k) post H) as (a & b & Ha & Hb & Htok & Hc & Hx).
    now exists a, b.
  - subst l. exact (span_ok_at _ _ _ (tiling_ok _ _ _ T)).
  - subst l. exact (spans_whole_at _ _ _ W).
Qed.

End FineGrammar.

(** ** More about the tokenizer kept in [src/Token.ts] *)

Module CoarseTurns.
Import JS Coarse.

Lemma while_do_preserves {S A : Type} (f : S -> A) (cond : S -> bool * S)
    (body : S -> outcome S) :
  (forall s, f (snd (cond s)) = f s) ->
  (forall s s', body s = Returns s' -> f s' = f s) ->
  forall n s r, while_do n cond body s = Returns r -> f r = f s.
Proof.
  intros Hc Hb. induction n as [|n IH]; intros s r H; [discriminate|].
  simpl in H. specialize (Hc s). destruct (cond s) as [c s1]. simpl in Hc.
  destruct c; [|injection H as <-; assumption].
  destruct (body s1) as [s'| |] eqn:E; try discriminate.
  rewrite (IH _ _ H), (Hb _ _ E). assumption.
Qed.

Lemma charAt_head (c : ascii) (s : string) :
  charAt (String c s) 0 = String c "".
Proof. unfold charAt. simpl. now rewrite substring_zero. Qed.

Section Source.

Variable source : string.

Lemma coarse_peek_eq (t : Tokenizer) :
  peek source t = charAt source (this_current t).
Proof.
  unfold peek. rewrite CoarseClaims.coarse_reachedEOF_leb.
  destruct (Nat.leb_spec (String.length source) (this_current t));
    [|reflexivity].
  symmetry. now apply charAt_past.
Qed.

Lemma coarse_peekNext_eq (t : Tokenizer) :
  peekNext source 1 t = charAt source (this_current t + 1).
Proof.
  unfold peekNext.
  destruct (Nat.leb_spec (String.length source) (this_current t + 1));
    [|reflexivity].
  symmetry. now apply charAt_past.
Qed.

Lemma coarse_advance1_eq (t : Tokenizer) :
  advance source 1 t
  = (charAt source (this_current t), set_current (S (this_current t)) t).
Proof.
  unfold advance, set_current; simpl.
  rewrite Nat.add_sub, Nat.add_1_r. reflexivity.
Qed.

(** [match]: the next character is consumed when it is the expected one,
    after [toLowerCase] when [lowercase] is set. *)
Lemma coarse_match_eq (expected : string) (lowercase : bool) (t : Tokenizer) :
  expected <> "" ->
  match_ source expected lowercase t
  = if ((if lowercase then toLowerCase (charAt source (this_current t))
         else charAt source (this_current t)) =? expected)%string
    then (true, set_current (S (this_current t)) t)
    else (false, t).
Proof.
  intros Hne. unfold match_. rewrite CoarseClaims.coarse_reachedEOF_leb.
  apply not_eq_sym, String.eqb_neq in Hne.
  destruct (Nat.leb_spec (String.length source) (this_current t)) as [H|H].
  - rewrite charAt_past by assumption. simpl.
    destruct lowercase; now rewrite Hne.
  - destruct lowercase; simpl;
      match goal with |- context [(?a =? ?b)%string] =>
        destruct (a =? b)%string end; reflexivity.
Qed.

(** *** Block comments *)

(** The loop of the block comment, which leaves only through a [}]. *)
Lemma block_loop_needs_brace (n : nat) :
  forall t,
    (forall j, this_current t <= j -> charAt source j <> "}") ->
    while_do n
      (fun t => let (m, t) := match_ source "-" false t in
                (negb m || negb (peek source t =? "}")%string, t))
      (step source) t
    = OutOfFuel.
Proof.
  induction n as [|n IH]; intros t H; [reflexivity|].
  simpl. rewrite coarse_match_eq by discriminate. simpl.
  destruct (charAt source (this_current t) =? "-")%string.
  - rewrite coarse_peek_eq. simpl.
    assert (N : charAt source (S (this_current t)) <> "}") by (apply H; lia).
    apply String.eqb_neq in N. rewrite N. simpl.
    apply IH. simpl. intros j Hj. apply H. lia.
  - simpl. apply IH. simpl. intros j Hj. apply H. lia.
Qed.

(** A block comment is skipped without a look at its line terminators: the
    turn on [{-] that returns has moved the cursor and nothing else, the
    line counter included. *)
Theorem block_comment_keeps_line (fuel : nat) (t r : Tokenizer) :
  charAt source (this_current t) = "{" ->
  charAt source (S (this_current t)) = "-" ->
  scanToken source fuel (set_start (this_current t) t) = Returns r ->
  this_line r = this_line t
  /\ this_tokens r = this_tokens t
  /\ console_error r = console_error t.
Proof.
  intros E0 E1 H. unfold scanToken in H. rewrite coarse_advance1_eq in H.
  cbv beta iota zeta in H. simpl this_current in H. rewrite E0 in H.
  simpl String.eqb in H. cbn [orb] in H. cbv iota in H.
  rewrite coarse_match_eq in H by discriminate. simpl in H. rewrite E1 in H.
  simpl in H. unfold blockComment in H.
  destruct (while_do fuel _ _ _) as [s| |] eqn:W in H; try discriminate.
  injection H as <-. simpl.
  assert (P : forall (A : Type) (f : Tokenizer -> A),
             (forall s n, f (set_current n s) = f s) ->
             f s = f (set_current (S (S (this_current t)))
                        (set_start (this_current t) t))).
  { intros A f Hf.
    apply (while_do_preserves f) in W; [exact W | | ].
    - intros s0. rewrite coarse_match_eq by discriminate.
      destruct (charAt source (this_current s0) =? "-")%string; simpl;
        [apply Hf | reflexivity].
    - intros s0 s0' [= <-]. apply Hf. }
  repeat split.
  - apply (P _ this_line). reflexivity.
  - apply (P _ this_tokens). reflexivity.
  - apply (P _ console_error). reflexivity.
Qed.

End Source.

Lemma block_comment_keeps_line_witness :
  this_line (mkTokenizer [] 0 6 0 []) = 0
  /\ this_tokens (mkTokenizer [] 0 6 0 []) = []
  /\ console_error (mkTokenizer [] 0 6 0 []) = [].
Proof.
  apply (block_comment_keeps_line ("{-" ++ LF ++ LF ++ "-}1") 6
           new_Tokenizer (mkTokenizer [] 0 6 0 []));
    reflexivity.
Defined.

(** A block comment that no [}] follows is never left: [scanTokens] does
    not return, whatever the fuel. *)
Theorem open_block_comment_diverges (body : string) (fuel : nat) :
  includes body "}" = false ->
  scanTokens ("{-" ++ body) fuel = OutOfFuel.
Proof.
  intros Hno. destruct fuel as [|n]; [reflexivity|].
  unfold scanTokens, scanTokens_run.
  set (source := "{-" ++ body).
  assert (Hturn : scanToken source (S n) (set_start 0 new_Tokenizer)
                  = OutOfFuel).
  { unfold scanToken. rewrite coarse_advance1_eq.
    cbv beta iota zeta. simpl this_current.
    change (charAt source 0) with "{".
    simpl String.eqb. cbn [orb]. cbv iota.
    rewrite coarse_match_eq by discriminate. simpl this_current.
    assert (E1 : charAt source 1 = "-") by apply (charAt_head "-" body).
    rewrite E1. simpl String.eqb. cbv iota.
    unfold blockComment.
    rewrite block_loop_needs_brace; [reflexivity|].
    simpl. intros j Hj Ej.
    destruct j as [|[|j]]; try lia.
    change (charAt source (S (S j))) with (charAt body j) in Ej.
    assert (Hin : j < String.length body).
    { destruct (Nat.lt_ge_cases j (String.length body)); [assumption|].
      rewrite charAt_past in Ej by assumption. discriminate. }
    rewrite <- (slice_whole body) in Hno.
    rewrite (FineString.includes_slice body "}" 0 j) in Hno;
      [discriminate | lia | assumption | assumption]. }
  simpl while_do. rewrite CoarseClaims.coarse_reachedEOF_leb.
  simpl. now rewrite Hturn.
Qed.

Lemma open_block_comment_witness :
  scanTokens ("{-" ++ " never closed -") 40 = OutOfFuel.
Proof. apply open_block_comment_diverges. reflexivity. Defined.

(** *** The [n] suffix after a radix marker *)

Local Ltac each_ascii c :=
  destruct c as [[] [] [] [] [] [] [] []].

Lemma radix_marker_cases (m : string) :
  String.length m = 1 ->
  toLowerCase m = "b" \/ toLowerCase m = "o" \/ toLowerCase m = "x" ->
  m = "b" \/ m = "B" \/ m = "o" \/ m = "O" \/ m = "x" \/ m = "X".
Proof.
  intros Hl H. destruct (length_one m Hl) as [c ->].
  each_ascii c; vm_compute in H;
    destruct H as [H|[H|H]]; try discriminate H; tauto.
Qed.

Lemma not_hexadecimal (x : string) :
  String.length x <= 1 ->
  isHexadecimalDigit x = false ->
  isOctalDigit x = false /\ isBinaryDigit x = false.
Proof.
  intros Hl H. destruct x as [|c [|d x]]; [split; reflexivity | | simpl in Hl; lia].
  each_ascii c; try discriminate H; split; reflexivity.
Qed.

Lemma charAt_short (source : string) (i : nat) :
  String.length (charAt source i) <= 1.
Proof.
  destruct (Nat.lt_ge_cases i (String.length source)).
  - now rewrite charAt_length.
  - rewrite charAt_past by assumption. simpl. lia.
Qed.

(** [BigInt] is given the text in front of the [n].  When that text is a
    [0] and a radix marker and nothing more, the digit after the marker
    being missing, [BigInt] throws and so does the turn: the error that was
    reported as recoverable ends the scan. *)
Theorem marker_then_suffix_throws (source : string) (fuel : nat)
    (t : Tokenizer) :
  charAt source (this_current t) = "0" ->
  toLowerCase (charAt source (this_current t + 1)) = "b"
  \/ toLowerCase (charAt source (this_current t + 1)) = "o"
  \/ toLowerCase (charAt source (this_current t + 1)) = "x" ->
  charAt source (this_current t + 2) = "n" ->
  isHexadecimalDigit (charAt source (this_current t + 3)) = false ->
  scanToken source fuel (set_start (this_current t) t) = Throws "SyntaxError".
Proof.
  intros E0 Em En Eh.
  assert (Hlen : String.length (charAt source (this_current t + 1)) = 1).
  { apply charAt_length.
    destruct (Nat.lt_ge_cases (this_current t + 1) (String.length source));
      [assumption|].
    rewrite charAt_past in Em by assumption.
    destruct Em as [Em|[Em|Em]]; discriminate Em. }
  destruct (not_hexadecimal _ (charAt_short source _) Eh) as [Eo Eb].
  replace (this_current t + 1) with (S (this_current t)) in * by lia.
  replace (this_current t + 2) with (S (S (this_current t))) in * by lia.
  replace (this_current t + 3) with (S (S (S (this_current t)))) in * by lia.
  assert (EL : slice source (this_current t) (S (S (this_current t)))
               = "0" ++ charAt source (S (this_current t))).
  { rewrite slice_snoc by lia. now rewrite slice_one, E0. }
  assert (Epn : forall s, this_current s = S (S (this_current t)) ->
                          peekNext source 1 s
                          = charAt source (S (S (S (this_current t))))).
  { intros s Hs. rewrite coarse_peekNext_eq, Hs. f_equal. lia. }
  unfold scanToken. rewrite coarse_advance1_eq. cbv beta iota zeta.
  simpl this_current. rewrite E0. simpl String.eqb. cbn [orb]. cbv iota.
  unfold leadingZeroNumber, radixDigits. cbv zeta.
  destruct (radix_marker_cases _ Hlen Em) as [M|[M|[M|[M|[M|M]]]]];
    rewrite M in EL;
    repeat (rewrite coarse_match_eq by discriminate; simpl this_current;
            rewrite ?M, ?En; simpl String.eqb; cbv beta iota;
            rewrite ?Epn by reflexivity; rewrite ?Eh, ?Eo, ?Eb);
    simpl; rewrite EL; reflexivity.
Qed.

Lemma marker_then_suffix_witness :
  scanToken "1+0xn" 5 (set_start 2 (mkTokenizer [] 1 2 0 []))
  = Throws "SyntaxError".
Proof.
  apply (marker_then_suffix_throws "1+0xn" 5 (mkTokenizer [] 1 2 0 []));
    try reflexivity.
  right. right. reflexivity.
Defined.

(** *** The line comment and the suffix *)

Lemma readWhile_stop (source : string) (fuel : nat)
    (predicate : string -> bool) (t : Tokenizer) :
  predicate (peek source t) = false ->
  readWhile source (S fuel) predicate t = Returns t.
Proof. intros H. unfold readWhile. simpl. now rewrite H. Qed.

Lemma while_do_rel {S : Type} (R : S -> S -> Prop) (cond : S -> bool * S)
    (body : S -> outcome S) :
  (forall s, R s s) -> (forall a b c, R a b -> R b c -> R a c) ->
  (forall s, R s (snd (cond s))) ->
  (forall s s', body s = Returns s' -> R s s') ->
  forall n s r, while_do n cond body s = Returns r -> R s r.
Proof.
  intros Hr Ht Hc Hb. induction n as [|n IH]; intros s r H; [discriminate|].
  simpl in H. specialize (Hc s). destruct (cond s) as [c s1]. simpl in Hc.
  destruct c; [|injection H as <-; assumption].
  destruct (body s1) as [s'| |] eqn:E; try discriminate.
  eapply Ht; [exact Hc|]. eapply Ht; [apply (Hb _ _ E) | apply (IH _ _ H)].
Qed.

(** In this tokenizer the [case "-"] arm has no [break]: with or without a
    comment, a turn on [-] that returns has added one operator token whose
    lexeme is all that the turn consumed, the whole line comment when there
    is one. *)
Theorem minus_falls_through (source : string) (fuel : nat)
    (t r : Tokenizer) :
  charAt source (this_current t) = "-" ->
  scanToken source fuel (set_start (this_current t) t) = Returns r ->
  this_tokens r
  = (this_tokens t
     ++ [mkToken T_operator
           (slice source (this_current t) (this_current r)) (this_line t)])%list
  /\ this_line r = this_line t
  /\ console_error r = console_error t
  /\ (if (charAt source (S (this_current t)) =? "-")%string
      then S (S (this_current t)) <= this_current r
      else this_current r = S (this_current t)).
Proof.
  intros E0 H. unfold scanToken in H. rewrite coarse_advance1_eq in H.
  cbv beta iota zeta in H. simpl this_current in H. rewrite E0 in H.
  simpl String.eqb in H. cbn [orb] in H. cbv iota in H.
  rewrite coarse_match_eq in H by discriminate. simpl this_current in H.
  destruct (charAt source (S (this_current t)) =? "-")%string;
    cbv beta iota in H.
  - destruct (while_do fuel _ _ _) as [s| |] eqn:W in H; try discriminate.
    injection H as <-.
    apply (while_do_rel
             (fun a b => this_tokens b = this_tokens a
                         /\ this_start b = this_start a
                         /\ this_line b = this_line a
                         /\ console_error b = console_error a
                         /\ this_current a <= this_current b)) in W.
    + destruct W as (Wt & Ws & Wl & Wc & Wcur). simpl in *.
      unfold addToken, push; simpl. rewrite Wt, Ws, Wl, Wc. auto.
    + intros s0. repeat split; lia.
    + intros a b c (A1 & A2 & A3 & A4 & A5) (B1 & B2 & B3 & B4 & B5).
      repeat split; try congruence; lia.
    + intros s0. simpl. repeat split; lia.
    + intros s0 s0' [= <-]. simpl. repeat split; lia.
  - injection H as <-. unfold addToken, push; simpl. auto.
Qed.

Lemma minus_falls_through_witness :
  this_tokens (mkTokenizer [mkToken T_operator "-- one" 0] 1 7 0 [])
  = [mkToken T_operator (slice ("1-- one" ++ LF ++ "2") 1 7) 0]
  /\ this_line (mkTokenizer [mkToken T_operator "-- one" 0] 1 7 0 []) = 0
  /\ console_error (mkTokenizer [mkToken T_operator "-- one" 0] 1 7 0 []) = []
  /\ 3 <= this_current (mkTokenizer [mkToken T_operator "-- one" 0] 1 7 0 []).
Proof.
  apply (minus_falls_through ("1-- one" ++ LF ++ "2") 9
           (mkTokenizer [] 0 1 0 [])
           (mkTokenizer [mkToken T_operator "-- one" 0] 1 7 0 []));
    reflexivity.
Defined.

Lemma nonzero_digit_cases (d : string) :
  String.length d = 1 -> isDigit d = true -> d <> "0" ->
  d = "1" \/ d = "2" \/ d = "3" \/ d = "4" \/ d = "5" \/ d = "6"
  \/ d = "7" \/ d = "8" \/ d = "9".
Proof.
  intros Hl H H0. destruct (length_one d Hl) as [c ->].
  each_ascii c; try discriminate H; tauto.
Qed.

(** After [match("n")] has consumed the suffix, [number] advances once
    more: a digit with the suffix takes the character after the [n] into its
    lexeme, whatever it is, and moves the cursor by three, past the end of
    the source if need be. *)
Theorem suffix_takes_next_character (source : string) (extra : nat)
    (t : Tokenizer) :
  isDigit (charAt source (this_current t)) = true ->
  charAt source (this_current t) <> "0" ->
  charAt source (S (this_current t)) = "n" ->
  exists v,
    BigInt (charAt source (this_current t)) = Some v
    /\ scanToken source (S extra) (set_start (this_current t) t)
       = Returns
           (mkTokenizer
              (this_tokens t
               ++ [mkToken (T_number (L_bigint v) decimal true)
                     (slice source (this_current t) (this_current t + 3))
                     (this_line t)])
              (this_current t) (this_current t + 3) (this_line t)
              (console_error t)).
Proof.
  intros Hd H0 En.
  assert (Hl : String.length (charAt source (this_current t)) = 1).
  { apply charAt_length.
    destruct (Nat.lt_ge_cases (this_current t) (String.length source));
      [assumption|].
    rewrite charAt_past in Hd by assumption. discriminate Hd. }
  assert (EL : slice source (this_current t) (S (this_current t))
               = charAt source (this_current t)) by apply slice_one.
  replace (this_current t + 3) with (S (S (S (this_current t)))) by lia.
  unfold scanToken. rewrite coarse_advance1_eq. cbv beta iota zeta.
  simpl this_current.
  assert (Hnum :
    number source (S extra)
      (set_current (S (this_current t)) (set_start (this_current t) t))
    = (literal <~ bigIntLiteral (charAt source (this_current t)) ;;
       Returns
         (mkTokenizer
            (this_tokens t
             ++ [mkToken (T_number literal decimal true)
                   (slice source (this_current t)
                      (S (S (S (this_current t)))))
                   (this_line t)])
            (this_current t) (S (S (S (this_current t)))) (this_line t)
            (console_error t)))).
  { unfold number.
    rewrite readWhile_stop
      by (rewrite coarse_peek_eq; simpl this_current; now rewrite En).
    cbv beta iota.
    rewrite coarse_match_eq by discriminate. simpl this_current. rewrite En.
    simpl String.eqb. cbv beta iota. cbn [andb].
    rewrite coarse_match_eq by discriminate. simpl this_current. rewrite En.
    simpl. rewrite coarse_match_eq by discriminate. simpl this_current. rewrite En.
    simpl. rewrite EL.
    destruct (bigIntLiteral (charAt source (this_current t))); try reflexivity.
    unfold addToken, push. simpl. repeat f_equal; lia. }
  destruct (nonzero_digit_cases _ Hl Hd H0)
    as [E|[E|[E|[E|[E|[E|[E|[E|E]]]]]]]];
    rewrite E in *; eexists; (split; [reflexivity|]);
    simpl String.eqb; cbn [orb]; cbv iota;
    rewrite Hnum; reflexivity.
Qed.

Lemma suffix_takes_next_character_witness :
  exists v,
    BigInt "7" = Some v
    /\ scanToken ("7n" ++ LF ++ "8") 1 (set_start 0 new_Tokenizer)
       = Returns
           (mkTokenizer
              [mkToken (T_number (L_bigint v) decimal true)
                 ("7n" ++ LF) 0]
              0 3 0 []).
Proof.
  apply (suffix_takes_next_character ("7n" ++ LF ++ "8") 0 new_Tokenizer);
    [reflexivity | discriminate | reflexivity].
Defined.

Lemma exponent_marker_cases (m : string) :
  String.length m = 1 -> toLowerCase m = "e" -> m = "e" \/ m = "E".
Proof.
  intros Hl H. destruct (length_one m Hl) as [c ->].
  each_ascii c; vm_compute in H; try discriminate H; tauto.
Qed.

(** [match("e", true)] consumes the exponent marker before the digit test,
    and the test then looks one character too far ([peekNext] from the
    character after the marker).  When that character is neither a digit
    nor a [-], the lexeme is cut right after the marker, also when an
    exponent digit stands there: the token is an exponential number whose
    literal is [NaN]. *)
Theorem exponent_marker_without_digits (source : string) (extra : nat)
    (t : Tokenizer) :
  isDigit (charAt source (this_current t)) = true ->
  charAt source (this_current t) <> "0" ->
  toLowerCase (charAt source (this_current t + 1)) = "e" ->
  charAt source (this_current t + 2) <> "n" ->
  isDigit (charAt source (this_current t + 3)) = false ->
  charAt source (this_current t + 3) <> "-" ->
  scanToken source (S extra) (set_start (this_current t) t)
  = Returns
      (mkTokenizer
         (this_tokens t
          ++ [mkToken (T_number (L_number NaN) exponential false)
                (slice source (this_current t) (this_current t + 2))
                (this_line t)])
         (this_current t) (this_current t + 2) (this_line t)
         (console_error t)).
Proof.
  intros Hd H0 Ee Hn Hd3 Hm3.
  assert (Hl : String.length (charAt source (this_current t)) = 1).
  { apply charAt_length.
    destruct (Nat.lt_ge_cases (this_current t) (String.length source));
      [assumption|].
    rewrite charAt_past in Hd by assumption. discriminate Hd. }
  assert (Hle : String.length (charAt source (this_current t + 1)) = 1).
  { apply charAt_length.
    destruct (Nat.lt_ge_cases (this_current t + 1) (String.length source));
      [assumption|].
    rewrite charAt_past in Ee by assumption. discriminate Ee. }
  assert (EL : slice source (this_current t) (this_current t + 2)
               = charAt source (this_current t)
                 ++ charAt source (this_current t + 1)).
  { rewrite (slice_app source (this_current t) (this_current t + 1)
               (this_current t + 2)) by lia.
    replace (this_current t + 1) with (S (this_current t)) by lia.
    replace (this_current t + 2) with (S (S (this_current t))) by lia.
    now rewrite !slice_one. }
  replace (this_current t + 1) with (S (this_current t)) in * by lia.
  replace (this_current t + 2) with (S (S (this_current t))) in * by lia.
  replace (this_current t + 3) with (S (S (S (this_current t)))) in * by lia.
  assert (Ene : charAt source (S (this_current t)) <> ".").
  { intros E. rewrite E in Ee. discriminate Ee. }
  assert (End_ : isDigit (charAt source (S (this_current t))) = false).
  { destruct (exponent_marker_cases _ Hle Ee) as [E|E]; now rewrite E. }
  unfold scanToken. rewrite coarse_advance1_eq. cbv beta iota zeta.
  simpl this_current.
  assert (Hnum :
    number source (S extra)
      (set_current (S (this_current t)) (set_start (this_current t) t))
    = Returns
        (mkTokenizer
           (this_tokens t
            ++ [mkToken
                  (T_number
                     (L_number
                        (Number (charAt source (this_current t)
                                 ++ charAt source (S (this_current t)))))
                     (if includes
                           (toLowerCase
                              (charAt source (this_current t)
                               ++ charAt source (S (this_current t)))) "e"
                      then exponential else decimal) false)
                  (slice source (this_current t) (S (S (this_current t))))
                  (this_line t)])
           (this_current t) (S (S (this_current t))) (this_line t)
           (console_error t))).
  { unfold number.
    rewrite readWhile_stop
      by (rewrite coarse_peek_eq; simpl this_current; exact End_).
    cbv beta iota.
    rewrite coarse_match_eq by discriminate. simpl this_current.
    apply String.eqb_neq in Ene. rewrite Ene. cbv beta iota. cbn [andb].
    rewrite coarse_match_eq by discriminate. simpl this_current.
    rewrite Ee. simpl String.eqb. cbv beta iota.
    rewrite coarse_peekNext_eq. simpl this_current.
    replace (S (S (this_current t)) + 1) with (S (S (S (this_current t))))
      by lia.
    rewrite Hd3. apply String.eqb_neq in Hm3. rewrite Hm3. cbn [andb].
    cbv beta iota.
    rewrite coarse_match_eq by discriminate. simpl this_current.
    apply String.eqb_neq in Hn. rewrite Hn. cbv beta iota zeta.
    unfold addToken, push. simpl. rewrite EL. reflexivity. }
  destruct (nonzero_digit_cases _ Hl Hd H0)
    as [E|[E|[E|[E|[E|[E|[E|[E|E]]]]]]]];
    destruct (exponent_marker_cases _ Hle Ee) as [E'|E'];
    rewrite E, E' in Hnum; rewrite E;
    simpl String.eqb; cbn [orb]; cbv iota;
    rewrite Hnum; reflexivity.
Qed.

Lemma exponent_marker_without_digits_witness :
  scanToken "1e5" 1 (set_start 0 new_Tokenizer)
  = Returns
      (mkTokenizer
         [mkToken (T_number (L_number NaN) exponential false) "1e" 0]
         0 2 0 []).
Proof.
  apply (exponent_marker_without_digits "1e5" 0 new_Tokenizer);
    [reflexivity | discriminate | reflexivity | discriminate | reflexivity
    | discriminate].
Defined.

(** An angle bracket alone is a bracket token; with an [=] directly after
    it the two characters are one operator token. *)
Theorem angle_turn (source : string) (fuel : nat) (t : Tokenizer) :
  charAt source (this_current t) = "<"
  \/ charAt source (this_current t) = ">" ->
  scanToken source fuel (set_start (this_current t) t)
  = Returns
      (if (charAt source (S (this_current t)) =? "=")%string
       then mkTokenizer
              (this_tokens t
               ++ [mkToken T_operator
                     (charAt source (this_current t) ++ "=") (this_line t)])
              (this_current t) (S (S (this_current t))) (this_line t)
              (console_error t)
       else mkTokenizer
              (this_tokens t
               ++ [mkToken T_bracket (charAt source (this_current t))
                     (this_line t)])
              (this_current t) (S (this_current t)) (this_line t)
              (console_error t)).
Proof.
  intros H.
  assert (E1 : slice source (this_current t) (S (this_current t))
               = charAt source (this_current t)) by apply slice_one.
  assert (E2 : charAt source (S (this_current t)) = "=" ->
               slice source (this_current t) (S (S (this_current t)))
               = charAt source (this_current t) ++ "=").
  { intros E.
    rewrite (slice_app source (this_current t) (S (this_current t))
               (S (S (this_current t)))) by lia.
    now rewrite !slice_one, E. }
  unfold scanToken. rewrite coarse_advance1_eq. cbv beta iota zeta.
  simpl this_current.
  destruct H as [E|E]; rewrite E in *; simpl String.eqb; cbn [orb];
    cbv iota; rewrite coarse_match_eq by discriminate; simpl this_current;
    destruct (charAt source (S (this_current t)) =? "=")%string eqn:Q;
    cbv beta iota; unfold addToken, push; simpl;
    [ apply String.eqb_eq in Q; rewrite (E2 Q) | rewrite E1
    | apply String.eqb_eq in Q; rewrite (E2 Q) | rewrite E1 ];
    reflexivity.
Qed.

Lemma angle_turn_witness :
  scanToken "a<=b" 0 (set_start 1 (mkTokenizer [] 0 1 0 []))
  = Returns (mkTokenizer [mkToken T_operator "<=" 0] 1 3 0 []).
Proof.
  apply (angle_turn "a<=b" 0 (mkTokenizer [] 0 1 0 [])).
  left; reflexivity.
Defined.

End CoarseTurns.

(** ** The examples of the specification *)

Module Examples.
Import JS.

Example Number_values :
  Number "0x1A" = Real 26 /\ Number "1.5" = Real (3 # 2)
  /\ Number "0b" = NaN /\ Number "1." = Real 1.
Proof. repeat split; reflexivity. Qed.

(** [Number] rounds to the nearest double: 0.0015 is not a double, the odd
    integer above 2^53 is not one either, and 10^400 is too large for one. *)
Example Number_rounds :
  literalValue "1.5e-3" = Real (3 # 2000)
  /\ Number "1.5e-3" = Real (3458764513820541 # 2305843009213693952)
  /\ Number "9007199254740993" = Real 9007199254740992
  /\ Number "1e400" = Infinity.
Proof. repeat split; vm_compute; reflexivity. Qed.

Example fine_1_plus_2 :
  Fine.scan "1 + 2"
  = Some [Fine.mkToken (Fine.T_number (Real 1) Fine.decimal) "1" 0;
          Fine.mkToken Fine.T_plus "+" 0;
          Fine.mkToken (Fine.T_number (Real 2) Fine.decimal) "2" 0;
          Fine.mkToken Fine.T_eof "" 0].
Proof. vm_compute. reflexivity. Qed.

Example fine_comment_then_number :
  Fine.scan ("-- comment" ++ LF ++ "1")
  = Some [Fine.mkToken (Fine.T_number (Real 1) Fine.decimal) "1" 1;
          Fine.mkToken Fine.T_eof "" 1].
Proof. vm_compute. reflexivity. Qed.

Example fine_exponent :
  Fine.scan "1.5e-3"
  = Some [Fine.mkToken
            (Fine.T_number
               (Real (3458764513820541 # 2305843009213693952))
               Fine.exponential)
            "1.5e-3" 0;
          Fine.mkToken Fine.T_eof "" 0].
Proof. vm_compute. reflexivity. Qed.

(** [src/Tokenizer.ts] looks at the digit before it takes the point or the
    marker. *)
Example fine_trailing_point :
  Fine.scan "1."
  = Some [Fine.mkToken (Fine.T_number (Real 1) Fine.decimal) "1" 0;
          Fine.mkToken Fine.T_dot "." 0;
          Fine.mkToken Fine.T_eof "" 0].
Proof. vm_compute. reflexivity. Qed.

Example fine_binary :
  Fine.scan "0b101"
  = Some [Fine.mkToken (Fine.T_number (Real 5) Fine.binary) "0b101" 0;
          Fine.mkToken Fine.T_eof "" 0].
Proof. vm_compute. reflexivity. Qed.

(** [src/Tokenizer.ts] has the binary marker only. *)
Example fine_no_hexadecimal :
  Fine.scan "0x1A"
  = Some [Fine.mkToken (Fine.T_number (Real 0) Fine.decimal) "0" 0;
          Fine.mkToken (Fine.T_number (Real 1) Fine.decimal) "1" 0;
          Fine.mkToken Fine.T_eof "" 0]
  /\ Fine.diagnostics "0x1A"
     = Some [Fine.unexpected "x"; Fine.unexpected "A"].
Proof. split; vm_compute; reflexivity. Qed.

(** A block comment that is closed is skipped. *)
Example coarse_block_comment :
  Coarse.scanTokens "{- a -}+" 9
  = Returns [Coarse.mkToken Coarse.T_operator "+" 0; Coarse.eof_token].
Proof. vm_compute. reflexivity. Qed.

End Examples.
